(** * owl-sr: the predictor's standings tracker, series calculator,
      heuristic model, roster heuristic and evaluation, embedded from
      [predictor.py].

    Conventions of the embedding.
    - Python [int] is [Z]; Python [float] is read in exact arithmetic
      as a real number ([R]); [str] is [string].
    - A [defaultdict(int)] is a [gmap] read through [getd] (the value,
      or 0 when the key is absent).  Python stores a default 0 on
      such a read; no function below can tell a stored 0 from an
      absent key, so the store is not modelled.
    - A plain [dict] whose iteration order is used (the series-score
      table, the stage prediction) is an insertion-ordered association
      list ([odict]).
    - A method that can raise returns a [result]; a method of the
      abstract predictor that may touch [self] threads the state.
    - The trueskill package is not part of the repository: a [Rating]
      is a (mean, uncertainty) pair whose constructor refuses an
      uncertainty of 0, and [env.rate] is a parameter. *)

From Stdlib Require Import ZArith String List Reals Lra Lia Bool Permutation Sorted.
From stdpp Require Import base option gmap strings list fin_maps.

Local Open Scope Z_scope.
Local Open Scope string_scope.

(** ** Exceptions and results *)

Inductive exn : Type :=
| NotImplementedError
| KeyError
| IndexError
| UnboundLocalError
| ValueError
| TypeError.

Inductive result (A : Type) : Type :=
| Ok (a : A)
| Raise (e : exn).
Arguments Ok {A} a.
Arguments Raise {A} e.

(** ** Data model *)

(** [Roster]: the player names of one team for one game. *)
Definition Roster : Type := list string.

Module Game.
Record t : Type := mk {
  teams : string * string;
  score : Z * Z;
  stage : string;
  match_id : Z;
  match_format : string;
  drawable : bool;
  rosters : Roster * Roster
}.
End Game.
Abbreviation Game := Game.t.

(** [Availabilities]: (stage, match number) -> team -> eligible players.
    The innermost Python set is kept as the list of its elements in
    iteration order. *)
Definition Availabilities : Type :=
  gmap (string * nat) (gmap string (list string)).

(** Read of a [defaultdict(int)]. *)
Definition getd `{Countable K} (m : gmap K Z) (k : K) : Z :=
  default 0 (m !! k).

(** [m[k] += d] on a [defaultdict(int)]. *)
Definition incr `{Countable K} (k : K) (d : Z) (m : gmap K Z) : gmap K Z :=
  <[k := getd m k + d]> m.

(** The fields set by [Predictor.__init__]. *)
Record Predictor : Type := mkPredictor {
  availabilities : Availabilities;
  roster_queues : gmap string (list Roster);
  (* Global standings. *)
  map_diffs : gmap string Z;
  head_to_head_map_diffs : gmap (string * string) Z;
  (* Stage standings. *)
  stage : option string;
  base_stage : option string;
  stage_wins : gmap string Z;
  stage_losses : gmap string Z;
  stage_map_diffs : gmap string Z;
  stage_head_to_head_map_diffs : gmap (string * string) Z;
  stage_title_wins : gmap string Z;
  stage_title_losses : gmap string Z;
  (* Match standings.  [score] is the very dict stored at
     [scores[match_id]]: both are written together. *)
  match_id : option Z;
  score : option (gmap string Z);
  scores : gmap Z (gmap string Z);
  match_history : gmap (option string) (gmap string (list Z));
  (* Draw counts. *)
  expected_draws : R;
  real_draws : R;
  (* Evaluation history. *)
  points : list R;
  corrects : list bool
}.

(** Field assignments. *)
Definition set_map_diffs (f : gmap string Z -> gmap string Z) (p : Predictor) : Predictor :=
  mkPredictor (availabilities p) (roster_queues p) (f (map_diffs p))
    (head_to_head_map_diffs p) (stage p) (base_stage p) (stage_wins p)
    (stage_losses p) (stage_map_diffs p) (stage_head_to_head_map_diffs p)
    (stage_title_wins p) (stage_title_losses p) (match_id p) (score p)
    (scores p) (match_history p) (expected_draws p) (real_draws p)
    (points p) (corrects p).

Definition set_head_to_head_map_diffs
    (f : gmap (string * string) Z -> gmap (string * string) Z) (p : Predictor) : Predictor :=
  mkPredictor (availabilities p) (roster_queues p) (map_diffs p)
    (f (head_to_head_map_diffs p)) (stage p) (base_stage p) (stage_wins p)
    (stage_losses p) (stage_map_diffs p) (stage_head_to_head_map_diffs p)
    (stage_title_wins p) (stage_title_losses p) (match_id p) (score p)
    (scores p) (match_history p) (expected_draws p) (real_draws p)
    (points p) (corrects p).

Definition set_stage (st base : option string) (p : Predictor) : Predictor :=
  mkPredictor (availabilities p) (roster_queues p) (map_diffs p)
    (head_to_head_map_diffs p) st base (stage_wins p)
    (stage_losses p) (stage_map_diffs p) (stage_head_to_head_map_diffs p)
    (stage_title_wins p) (stage_title_losses p) (match_id p) (score p)
    (scores p) (match_history p) (expected_draws p) (real_draws p)
    (points p) (corrects p).

Definition set_stage_wins (f : gmap string Z -> gmap string Z) (p : Predictor) : Predictor :=
  mkPredictor (availabilities p) (roster_queues p) (map_diffs p)
    (head_to_head_map_diffs p) (stage p) (base_stage p) (f (stage_wins p))
    (stage_losses p) (stage_map_diffs p) (stage_head_to_head_map_diffs p)
    (stage_title_wins p) (stage_title_losses p) (match_id p) (score p)
    (scores p) (match_history p) (expected_draws p) (real_draws p)
    (points p) (corrects p).

Definition set_stage_losses (f : gmap string Z -> gmap string Z) (p : Predictor) : Predictor :=
  mkPredictor (availabilities p) (roster_queues p) (map_diffs p)
    (head_to_head_map_diffs p) (stage p) (base_stage p) (stage_wins p)
    (f (stage_losses p)) (stage_map_diffs p) (stage_head_to_head_map_diffs p)
    (stage_title_wins p) (stage_title_losses p) (match_id p) (score p)
    (scores p) (match_history p) (expected_draws p) (real_draws p)
    (points p) (corrects p).

Definition set_stage_map_diffs (f : gmap string Z -> gmap string Z) (p : Predictor) : Predictor :=
  mkPredictor (availabilities p) (roster_queues p) (map_diffs p)
    (head_to_head_map_diffs p) (stage p) (base_stage p) (stage_wins p)
    (stage_losses p) (f (stage_map_diffs p)) (stage_head_to_head_map_diffs p)
    (stage_title_wins p) (stage_title_losses p) (match_id p) (score p)
    (scores p) (match_history p) (expected_draws p) (real_draws p)
    (points p) (corrects p).

Definition set_stage_head_to_head_map_diffs
    (f : gmap (string * string) Z -> gmap (string * string) Z) (p : Predictor) : Predictor :=
  mkPredictor (availabilities p) (roster_queues p) (map_diffs p)
    (head_to_head_map_diffs p) (stage p) (base_stage p) (stage_wins p)
    (stage_losses p) (stage_map_diffs p) (f (stage_head_to_head_map_diffs p))
    (stage_title_wins p) (stage_title_losses p) (match_id p) (score p)
    (scores p) (match_history p) (expected_draws p) (real_draws p)
    (points p) (corrects p).

Definition set_stage_title_wins (f : gmap string Z -> gmap string Z) (p : Predictor) : Predictor :=
  mkPredictor (availabilities p) (roster_queues p) (map_diffs p)
    (head_to_head_map_diffs p) (stage p) (base_stage p) (stage_wins p)
    (stage_losses p) (stage_map_diffs p) (stage_head_to_head_map_diffs p)
    (f (stage_title_wins p)) (stage_title_losses p) (match_id p) (score p)
    (scores p) (match_history p) (expected_draws p) (real_draws p)
    (points p) (corrects p).

Definition set_stage_title_losses (f : gmap string Z -> gmap string Z) (p : Predictor) : Predictor :=
  mkPredictor (availabilities p) (roster_queues p) (map_diffs p)
    (head_to_head_map_diffs p) (stage p) (base_stage p) (stage_wins p)
    (stage_losses p) (stage_map_diffs p) (stage_head_to_head_map_diffs p)
    (stage_title_wins p) (f (stage_title_losses p)) (match_id p) (score p)
    (scores p) (match_history p) (expected_draws p) (real_draws p)
    (points p) (corrects p).

(** Assignment of the match fields: [match_id], [score], [scores] and
    [match_history]. *)
Definition set_match (mid : option Z) (sc : option (gmap string Z))
    (scs : gmap Z (gmap string Z))
    (mh : gmap (option string) (gmap string (list Z))) (p : Predictor) : Predictor :=
  mkPredictor (availabilities p) (roster_queues p) (map_diffs p)
    (head_to_head_map_diffs p) (stage p) (base_stage p) (stage_wins p)
    (stage_losses p) (stage_map_diffs p) (stage_head_to_head_map_diffs p)
    (stage_title_wins p) (stage_title_losses p) mid sc scs mh
    (expected_draws p) (real_draws p) (points p) (corrects p).

(** [self.score[team] = v]; the dict is also the one at
    [scores[match_id]]. *)
Definition set_score (sc : gmap string Z) (p : Predictor) : Predictor :=
  set_match (match_id p) (Some sc)
    (match match_id p with
     | Some mid => <[mid := sc]> (scores p)
     | None => scores p
     end)
    (match_history p) p.

(** ** Standings tracker *)

(** The six [clear()] calls of a stage change. *)
Definition clear_stage_counters (self : Predictor) : Predictor :=
  set_stage_title_losses (fun _ => ∅)
    (set_stage_title_wins (fun _ => ∅)
      (set_stage_head_to_head_map_diffs (fun _ => ∅)
        (set_stage_map_diffs (fun _ => ∅)
          (set_stage_losses (fun _ => ∅)
            (set_stage_wins (fun _ => ∅) self))))).

(** [stage.startswith(self.stage)], guarded by [self.stage is not None]. *)
Definition extends_stage (st : string) (cur : option string) : bool :=
  match cur with
  | Some c => String.prefix c st
  | None => false
  end.

(** [Predictor._update_stage]. *)
Definition _update_stage (st : string) (self : Predictor) : Predictor :=
  if bool_decide (Some st = stage self) then self
  else if extends_stage st (stage self) then
    (* Entering the title matches. *)
    set_stage (Some st) (stage self) self
  else
    (* Entering a new stage. *)
    clear_stage_counters (set_stage (Some st) (Some st) self).

(** [self.match_history[stage][team].append(match_id)] on the nested
    [defaultdict]. *)
Definition history_append (stg : option string) (team : string) (mid : Z)
    (h : gmap (option string) (gmap string (list Z)))
  : gmap (option string) (gmap string (list Z)) :=
  let per_stage := default ∅ (h !! stg) in
  <[stg := <[team := (default [] (per_stage !! team) ++ [mid])%list]> per_stage]> h.

(** [Predictor._update_match_ids]. *)
Definition _update_match_ids (mid : Z) (teams : string * string)
    (self : Predictor) : Predictor :=
  if bool_decide (Some mid = match_id self) then self
  else
    (* Record a new match. *)
    let sc : gmap string Z := <[teams.2 := 0]> (<[teams.1 := 0]> ∅) in
    set_match (Some mid) (Some sc) (<[mid := sc]> (scores self))
      (history_append (stage self) teams.2 mid
         (history_append (stage self) teams.1 mid (match_history self)))
      self.

(** The match-result part of [_update_standings], once the running
    scores [sw] of the winner and [sl] of the loser are read. *)
Definition handle_match_result (is_title : bool) (winner loser : string)
    (sw sl : Z) (self : Predictor) : Predictor :=
  if bool_decide (sw = sl) then
    (* The winner won the match. *)
    if is_title then
      set_stage_title_losses (incr loser 1)
        (set_stage_title_wins (incr winner 1) self)
    else
      set_stage_losses (incr loser 1) (set_stage_wins (incr winner 1) self)
  else if bool_decide (sw = sl - 1) then
    (* The winner avoided the loss. *)
    if is_title then
      set_stage_title_losses (incr winner (-1))
        (set_stage_title_wins (incr loser (-1)) self)
    else
      set_stage_losses (incr winner (-1)) (set_stage_wins (incr loser (-1)) self)
  else self.

(** [Predictor._update_standings].  [self.score] is a plain dict (or
    [None] before the first match): reading a team it does not hold
    raises. *)
Definition _update_standings (game : Game) (self : Predictor)
  : result unit * Predictor :=
  let self := _update_stage (Game.stage game) self in
  let self := _update_match_ids (Game.match_id game) (Game.teams game) self in
  (* Wins & map diffs. *)
  let '(team1, team2) := Game.teams game in
  let '(score1, score2) := Game.score game in
  let is_title := String.eqb (Game.match_format game) "title" in
  if bool_decide (score1 ≠ score2) then
    let '(winner, loser) :=
      if bool_decide (score1 > score2) then (team1, team2) else (team2, team1) in
    let self := set_map_diffs (incr winner 1) self in
    let self := set_map_diffs (incr loser (-1)) self in
    let self := set_head_to_head_map_diffs (incr (winner, loser) 1) self in
    let self := set_head_to_head_map_diffs (incr (loser, winner) (-1)) self in
    let self :=
      if is_title then self
      else
        set_stage_head_to_head_map_diffs (incr (loser, winner) (-1))
          (set_stage_head_to_head_map_diffs (incr (winner, loser) 1)
            (set_stage_map_diffs (incr loser (-1))
              (set_stage_map_diffs (incr winner 1) self))) in
    (* Handle the match result. *)
    match score self with
    | None => (Raise TypeError, self)
    | Some sc =>
        match sc !! winner, sc !! loser with
        | Some sw, Some sl =>
            let self := handle_match_result is_title winner loser sw sl self in
            (Ok tt, set_score (<[winner := sw + 1]> sc) self)
        | _, _ => (Raise KeyError, self)
        end
    end
  else (Ok tt, self).

(** [for game in games: self._update_standings(game)], the standings
    part of [train_games]; an exception ends the replay. *)
Fixpoint replay_standings (games : list Game) (self : Predictor)
  : result unit * Predictor :=
  match games with
  | [] => (Ok tt, self)
  | game :: rest =>
      match _update_standings game self with
      | (Ok _, self') => replay_standings rest self'
      | (Raise e, self') => (Raise e, self')
      end
  end.

(** A tracker as [__init__] leaves it. *)
Definition fresh (av : Availabilities) : Predictor :=
  mkPredictor av ∅ ∅ ∅ None None ∅ ∅ ∅ ∅ ∅ ∅ None None ∅ ∅ 0%R 0%R [] [].

(** The first two statements of [_update_standings]: the state in
    which it reads the running score. *)
Definition entered (game : Game) (self : Predictor) : Predictor :=
  _update_match_ids (Game.match_id game) (Game.teams game)
    (_update_stage (Game.stage game) self).

(** The stage-scoped counters. *)
Definition stage_counters (p : Predictor) :=
  (stage_wins p, stage_losses p, stage_map_diffs p,
   stage_head_to_head_map_diffs p, stage_title_wins p, stage_title_losses p).

(** 1 when a running score [a] leads [b]. *)
Definition lead (a b : Z) : Z := if bool_decide (a > b) then 1 else 0.

(** ** Matches as sequences of map games *)

(** The winner and loser of a decisive game, as [_update_standings]
    names them. *)
Definition winner_loser (game : Game) : string * string :=
  if bool_decide ((Game.score game).1 > (Game.score game).2)
  then Game.teams game
  else ((Game.teams game).2, (Game.teams game).1).

(** The number of decisive games of [games] won by [team]. *)
Fixpoint map_wins (team : string) (games : list Game) : Z :=
  match games with
  | [] => 0
  | game :: rest =>
      (if bool_decide ((winner_loser game).1 = team) then 1 else 0)
      + map_wins team rest
  end.

(** A decisive regular-format map game of match [mid], played in stage
    [st] between [A] and [B] (listed in either order). *)
Definition map_of_match (mid : Z) (st A B : string) (game : Game) : Prop :=
  Game.match_id game = mid ∧ Game.stage game = st ∧
  Game.match_format game = "regular" ∧
  (Game.teams game = (A, B) ∨ Game.teams game = (B, A)) ∧
  (Game.score game).1 ≠ (Game.score game).2.

(** ** Floats, read as reals *)

#[global] Instance Rlt_decision (x y : R) : Decision (x < y)%R := Rlt_dec x y.
#[global] Instance Rgt_decision (x y : R) : Decision (x > y)%R := Rgt_dec x y.
#[global] Instance Rle_decision (x y : R) : Decision (x <= y)%R := Rle_dec x y.
#[global] Instance Req_decision (x y : R) : Decision (x = y) := Req_dec_T x y.

(** [math.log]: a domain error outside the positive reals. *)
Definition log (x : R) : result R :=
  if bool_decide (0 < x)%R then Ok (ln x) else Raise ValueError.

(** Python's [sum] of floats: left to right from 0. *)
Definition sum (l : list R) : R := fold_left Rplus l 0%R.

(** ** Insertion-ordered dicts *)

Definition odict (K V : Type) : Type := list (K * V).

Section odict.
Context {K V : Type} `{EqDecision K}.

(** [d.get(k)]. *)
Fixpoint od_get (k : K) (d : odict K V) : option V :=
  match d with
  | [] => None
  | (k', v) :: rest => if decide (k' = k) then Some v else od_get k rest
  end.

(** [d[k] = v]: in place for a key already held, appended otherwise. *)
Fixpoint od_set (k : K) (v : V) (d : odict K V) : odict K V :=
  match d with
  | [] => [(k, v)]
  | (k', v') :: rest =>
      if decide (k' = k) then (k', v) :: rest else (k', v') :: od_set k v rest
  end.

Definition od_keys (d : odict K V) : list K := map fst d.
Definition od_values (d : odict K V) : list V := map snd d.
End odict.

(** [PScores]: series score -> probability. *)
Definition PScores : Type := odict (Z * Z) R.

(** [d[k] += v] on a [defaultdict(float)]. *)
Definition od_add (k : Z * Z) (v : R) (d : PScores) : PScores :=
  od_set k (default 0 (od_get k d) + v)%R d.

(** The probability mass held by a score table. *)
Fixpoint total (d : PScores) : R :=
  match d with
  | [] => 0%R
  | (_, p) :: rest => (p + total rest)%R
  end.

(** ** Series outcome calculator *)

(** One map of the series: the inner [for ... in p_scores.items()] of
    [_predict_bo_match_score], filling a new table. *)
Definition play_map (drawable : bool) (p_win p_draw p_loss : R)
    (p_scores : PScores) : PScores :=
  fold_left
    (λ new_p_scores '((score1, score2), p),
       let new_p_scores := od_add (score1 + 1, score2) (p * p_win) new_p_scores in
       let new_p_scores := od_add (score1, score2 + 1) (p * p_loss) new_p_scores in
       if drawable then od_add (score1, score2) (p * p_draw) new_p_scores
       else new_p_scores)
    p_scores [].

(** The [for drawable in drawables] loop.  Besides the table it leaves
    the local [p_loss] of its last iteration, unbound ([None]) when the
    loop body never ran. *)
Fixpoint play_maps (p_undrawable p_drawable : R * R) (drawables : list bool)
    (p_scores : PScores) (p_loss : option R) : PScores * option R :=
  match drawables with
  | [] => (p_scores, p_loss)
  | drawable :: rest =>
      let '(p_win, p_draw) := if drawable then p_drawable else p_undrawable in
      let p_loss := (1 - p_win - p_draw)%R in
      play_maps p_undrawable p_drawable rest
        (play_map drawable p_win p_draw p_loss p_scores) (Some p_loss)
  end.

(** The tie-breaker game: it reads [p_win] of the undrawable
    prediction and whatever [p_loss] the loop left. *)
Definition tie_breaker (p_win : R) (p_loss : option R) (p_scores : PScores)
  : result PScores :=
  fold_left
    (λ acc '((score1, score2), p),
       match acc with
       | Raise e => Raise e
       | Ok new_p_scores =>
           if bool_decide (score1 = score2) then
             let new_p_scores :=
               od_add (score1 + 1, score2) (p * p_win) new_p_scores in
             match p_loss with
             | Some p_loss =>
                 Ok (od_add (score1, score2 + 1) (p * p_loss) new_p_scores)
             | None => Raise UnboundLocalError
             end
           else Ok (od_add (score1, score2) p new_p_scores)
       end)
    p_scores (Ok []).

(** The series calculation on the two predictions. *)
Definition bo_match_score (p_undrawable p_drawable : R * R)
    (drawables : list bool) : result PScores :=
  let '(p_scores, p_loss) :=
    play_maps p_undrawable p_drawable drawables [((0, 0), 1%R)] None in
  tie_breaker p_undrawable.1 p_loss p_scores.

(** ** Methods of the base class over an abstract model

    [predict] is the abstract method of the class: it returns the win
    and draw probabilities and may touch the predictor. *)
Section Predictor_methods.
Context {Self : Type}.
Variable predict :
  string * string → option (Roster * Roster) → bool → Self → (R * R) * Self.

(** [Predictor._predict_bo_match_score]. *)
Definition _predict_bo_match_score (teams : string * string)
    (rosters : option (Roster * Roster)) (drawables : list bool)
    (self : Self) : result PScores * Self :=
  let '(p_undrawable, self) := predict teams rosters false self in
  let '(p_drawable, self) := predict teams rosters true self in
  (bo_match_score p_undrawable p_drawable drawables, self).

(** [Predictor.predict_match_score]. *)
Definition predict_match_score (teams : string * string)
    (rosters : option (Roster * Roster)) (match_format : string)
    (self : Self) : result PScores * Self :=
  if String.eqb match_format "regular" then
    _predict_bo_match_score teams rosters [true; false; true; false] self
  else if String.eqb match_format "title" then
    _predict_bo_match_score teams rosters [false; false; true; true; false] self
  else (Raise NotImplementedError, self).

(** The clamp [max(0.0, min(p, 1.0))]. *)
Definition clamp (p : R) : R := Rmax 0 (Rmin p 1).

(** The probability [evaluate] scores: that of the side that won,
    from the clamped prediction. *)
Definition scored_probability (game : Game) (p_win p_draw : R) : R * bool :=
  let p_win := clamp p_win in
  let p_draw := clamp p_draw in
  let p_loss := (1 - p_win - p_draw)%R in
  if bool_decide ((Game.score game).1 > (Game.score game).2)
  then (p_win, bool_decide (p_win > p_loss)%R)
  else (p_loss, bool_decide (p_win < p_loss)%R).

(** [Predictor.evaluate]. *)
Definition evaluate (game : Game) (self : Self) : result (R * bool) * Self :=
  if bool_decide ((Game.score game).1 = (Game.score game).2) then
    (Ok (0%R, false), self)
  else
    let '((p_win, p_draw), self) :=
      predict (Game.teams game) (Some (Game.rosters game)) false self in
    let '(p, correct) := scored_probability game p_win p_draw in
    match log (2 * p) with
    | Ok point => (Ok (point, correct), self)
    | Raise e => (Raise e, self)
    end.
End Predictor_methods.

(** ** The heuristic model *)

Module SimplePredictor.
Record t : Type := mk {
  base : Predictor;
  alpha : R;
  beta : R
}.

(** [SimplePredictor.predict]. *)
Definition predict (self : t) (teams : string * string)
    (rosters : option (Roster * Roster)) (drawable : bool) : R * R :=
  let '(team1, team2) := teams in
  let diff1 := getd (map_diffs (base self)) team1 in
  let diff2 := getd (map_diffs (base self)) team2 in
  let p_win :=
    if bool_decide (diff1 > diff2) then (0.5 + alpha self)%R
    else if bool_decide (diff1 = diff2) then
      let record := getd (head_to_head_map_diffs (base self)) teams in
      if bool_decide (record > 0) then (0.5 + beta self)%R
      else if bool_decide (record = 0) then 0.5%R
      else (0.5 - beta self)%R
    else (0.5 - alpha self)%R in
  (p_win, 0%R).
End SimplePredictor.

(** A model that answers every question with the same two predictions
    and keeps no state: a test double for the abstract [predict]. *)
Definition constant_model (p_undrawable p_drawable : R * R)
    (teams : string * string) (rosters : option (Roster * Roster))
    (drawable : bool) (self : unit) : (R * R) * unit :=
  (if drawable then p_drawable else p_undrawable, self).

(** ** Sequencing of calls that may raise *)

#[global] Instance result_ret : MRet result := λ A a, Ok a.
#[global] Instance result_bind : MBind result := λ A B f m,
  match m with
  | Ok a => f a
  | Raise e => Raise e
  end.

(** A [for] loop whose body may raise. *)
Fixpoint for_each {A B : Type} (body : B → A → result B) (l : list A) (b : B)
  : result B :=
  match l with
  | [] => Ok b
  | x :: rest => b' ← body b x; for_each body rest b'
  end.

(** [d[k]] on a plain dict. *)
Definition od_item {K V : Type} `{EqDecision K} (k : K) (d : odict K V) : result V :=
  match od_get k d with
  | Some v => Ok v
  | None => Raise KeyError
  end.

(** [l[-i]] for [i >= 1]. *)
Definition from_end {A : Type} (i : nat) (l : list A) : result A :=
  match rev l !! pred i with
  | Some x => Ok x
  | None => Raise IndexError
  end.

(** ** Sorting

    Python's [sorted] is stable.  [sorted_by goes_after l] inserts the
    elements of [l] from the last to the first, each one behind the
    elements [y] with [goes_after x y] and in front of the first other
    element: with a strict [goes_after], equal elements keep the order
    they had in [l]. *)
Section sorting.
Context {A : Type} (goes_after : A → A → bool).

Fixpoint insert_by (x : A) (l : list A) : list A :=
  match l with
  | [] => [x]
  | y :: rest => if goes_after x y then y :: insert_by x rest else x :: l
  end.

Definition sorted_by (l : list A) : list A := foldr insert_by [] l.
End sorting.

(** [a < b] on pairs of ints. *)
Definition pair_lt (a b : Z * Z) : bool :=
  bool_decide (a.1 < b.1 ∨ (a.1 = b.1 ∧ a.2 < b.2)).

(** [sorted(values)] of (wins, map diff) pairs, ascending. *)
Definition sorted_pairs (l : list (Z * Z)) : list (Z * Z) :=
  sorted_by (λ x y, pair_lt y x) l.

(** ** Stage prediction: the deterministic part *)

(** An entry of the stage prediction: a sampled frequency (a float) or
    a definite answer (a bool). *)
Inductive pvalue : Type :=
| Freq (p : R)
| Definite (b : bool).

(** [sum(self.stage_title_losses.values())]. *)
Definition sum_values (m : gmap string Z) : Z :=
  foldr Z.add 0 (snd <$> map_to_list m).

(** [Predictor.stage_finished]. *)
Definition stage_finished (self : Predictor) : bool :=
  bool_decide (sum_values (stage_title_losses self) = 2).

(** The worst and best cases of one team for one remaining game. *)
Definition widen (team : string)
    (bounds : odict string (Z * Z) * odict string (Z * Z))
  : result (odict string (Z * Z) * odict string (Z * Z)) :=
  let '(min_wins, max_wins) := bounds in
  '(win, map_diff) ← od_item team min_wins;
  let min_wins := od_set team (win, map_diff - 4) min_wins in
  '(win, map_diff) ← od_item team max_wins;
  let max_wins := od_set team (win + 1, map_diff + 4) max_wins in
  Ok (min_wins, max_wins).

(** [min_wins], [max_wins], [min_3rd_wins] and [max_4th_wins] of
    [predict_stage], for the teams [teams] and the remaining [games]. *)
Definition stage_bounds (games : list Game) (teams : list string)
    (self : Predictor)
  : result (odict string (Z * Z) * odict string (Z * Z) * (Z * Z) * (Z * Z)) :=
  let wins :=
    foldl (λ d team,
             od_set team (getd (stage_wins self) team,
                          getd (stage_map_diffs self) team) d)
          [] teams in
  '(min_wins, max_wins) ←
    for_each (λ bounds game,
                bounds ← widen (Game.teams game).1 bounds;
                widen (Game.teams game).2 bounds)
             games (wins, wins);
  min_3rd_wins ← from_end 3 (sorted_pairs (od_values min_wins));
  max_4th_wins ← from_end 4 (sorted_pairs (od_values max_wins));
  Ok (min_wins, max_wins, min_3rd_wins, max_4th_wins).

(** The body of the last loop of [predict_stage]: the entry of [team],
    whose sampled entry is [(p_top3, p_top1)]. *)
Definition normalize (self : Predictor)
    (min_wins max_wins : odict string (Z * Z)) (min_3rd_wins max_4th_wins : Z * Z)
    (team : string) (p_top3 p_top1 : pvalue) : result (pvalue * pvalue) :=
  max_team ← od_item team max_wins;
  if pair_lt max_team min_3rd_wins then Ok (Definite false, Definite false)
  else
    min_team ← od_item team min_wins;
    if pair_lt max_4th_wins min_team then
      let p_top1 :=
        if bool_decide (getd (stage_title_losses self) team > 0) then Definite false
        else if stage_finished self then Definite true
        else p_top1 in
      Ok (Definite true, p_top1)
    else Ok (p_top3, p_top1).

(** The games [predict_stage] keeps: regular games of the tracked stage. *)
Definition stage_games (games : list Game) (self : Predictor) : list Game :=
  filter (λ game, Some (Game.stage game) = stage self
                  ∧ Game.match_format game = "regular") games.

(** The sampled table, each entry a pair of floats. *)
Definition sampled (frequencies : odict string (R * R))
  : odict string (pvalue * pvalue) :=
  map (λ '(team, (p_top3, p_top1)), (team, (Freq p_top3, Freq p_top1)))
      frequencies.

Section stage_prediction.
(** [Predictor._predict_stage]: the frequencies sampled by the Monte
    Carlo loop, taken as given. *)
Variable _predict_stage : list Game → Predictor → odict string (R * R).

(** [Predictor.predict_stage]. *)
Definition predict_stage (games : list Game) (self : Predictor)
  : result (odict string (pvalue * pvalue)) :=
  let games := stage_games games self in
  let prediction := sampled (_predict_stage games self) in
  let teams := od_keys prediction in
  (* Normalize 0% and 100% for predictions. *)
  '(min_wins, max_wins, min_3rd_wins, max_4th_wins) ←
    stage_bounds games teams self;
  for_each (λ prediction '(team, (p_top3, p_top1)),
              entry ← normalize self min_wins max_wins min_3rd_wins
                         max_4th_wins team p_top3 p_top1;
              Ok (od_set team entry prediction))
           prediction prediction.
End stage_prediction.

(** ** The player-based TrueSkill predictor *)

(** [Rating] of the trueskill package, as the specification's data
    model has it: a (mean, uncertainty) pair.  The package itself is
    not part of the repository. *)
Module Rating.
Record t : Type := mk { mu : R; sigma : R }.
End Rating.
Abbreviation Rating := Rating.t.

(** [Rating(mu=mu, sigma=sigma)]: the constructor of the package
    refuses an uncertainty of 0 with a [ValueError]. *)
Definition new_Rating (mu sigma : R) : result Rating :=
  if bool_decide (sigma = 0%R) then Raise ValueError
  else Ok (Rating.mk mu sigma).

(** The parameters of a [TrueSkill] environment and the prior rating
    it creates. *)
Module TrueSkill.
Record t : Type := mk {
  mu : R;
  sigma : R;
  beta : R;
  tau : R;
  draw_probability : R
}.

Definition create_rating (env : t) : Rating := Rating.mk (mu env) (sigma env).
End TrueSkill.

Module PlayerTrueSkillPredictor.
(** The fields of [Predictor], [TrueSkillPredictor] and
    [PlayerTrueSkillPredictor].  [ratings] holds players and teams
    alike; [ratings_history] is an [OrderedDict]. *)
Record t : Type := mk {
  base : Predictor;
  env_drawable : TrueSkill.t;
  env_undrawable : TrueSkill.t;
  ratings : gmap string Rating;
  best_rosters : gmap string Roster;
  ratings_history : odict (string * nat) (gmap string Rating)
}.

Definition set_ratings (f : gmap string Rating → gmap string Rating) (p : t) : t :=
  mk (base p) (env_drawable p) (env_undrawable p) (f (ratings p))
     (best_rosters p) (ratings_history p).

Definition set_best_rosters (f : gmap string Roster → gmap string Roster) (p : t) : t :=
  mk (base p) (env_drawable p) (env_undrawable p) (ratings p)
     (f (best_rosters p)) (ratings_history p).

Definition set_ratings_history
    (f : odict (string * nat) (gmap string Rating)
         → odict (string * nat) (gmap string Rating)) (p : t) : t :=
  mk (base p) (env_drawable p) (env_undrawable p) (ratings p)
     (best_rosters p) (f (ratings_history p)).

(** [self.ratings[name]]: the jar is a [defaultdict] that creates the
    prior rating of the drawable environment.  The package builds the
    prior with the constructor of [Rating] too, so the lookup of a
    name the jar does not hold returns only in an environment whose
    sigma is not 0 ([creates_prior] below), as every environment the
    repository builds is. *)
Definition rating_of (self : t) (name : string) : Rating :=
  default (TrueSkill.create_rating (env_drawable self)) (ratings self !! name).

(** [PlayerTrueSkillPredictor._roster_rating]: the summary rating is
    built by the constructor of the package, which raises when the
    uncertainty comes out as 0 (the empty roster, for one). *)
Definition _roster_rating (self : t) (roster : Roster) : result Rating :=
  let sum_mu := sum (map (λ name, Rating.mu (rating_of self name)) roster) in
  let sum_sigma :=
    sqrt (sum (map (λ name, (Rating.sigma (rating_of self name) ^ 2)%R) roster)) in
  let mu := (sum_mu / 6)%R in
  let sigma := (sum_sigma / 6)%R in
  new_Rating mu sigma.

(** [PlayerTrueSkillPredictor._min_roster_rating]. *)
Definition _min_roster_rating (self : t) (roster : Roster) : result R :=
  rating ← _roster_rating self roster;
  Ok (Rating.mu rating - 3 * Rating.sigma rating)%R.

(** [PlayerTrueSkillPredictor._min_rating]. *)
Definition _min_rating (self : t) (name : string) : R :=
  let rating := rating_of self name in
  (Rating.mu rating - 3 * Rating.sigma rating)%R.

(** [sorted(l, key=key, reverse=True)]. *)
Definition sorted_reverse {A : Type} (key : A → R) (l : list A) : list A :=
  sorted_by (λ x y, bool_decide (key x < key y)%R) l.

(** The keys of a sort are computed first, one call per element in
    the order of the list; a key that raises ends the sort. *)
Fixpoint keyed {A : Type} (key : A → result R) (l : list A)
  : result (list (R * A)) :=
  match l with
  | [] => Ok []
  | x :: rest =>
      k ← key x;
      pairs ← keyed key rest;
      Ok ((k, x) :: pairs)
  end.

(** [sorted(l, key=key, reverse=True)] with a key that may raise. *)
Definition sorted_reverse_by {A : Type} (key : A → result R) (l : list A)
  : result (list A) :=
  pairs ← keyed key l;
  Ok (map snd (sorted_by (λ x y, bool_decide (x.1 < y.1)%R) pairs)).

(** [all(name in members for name in roster)]. *)
Definition all_in (members : list string) (roster : Roster) : bool :=
  forallb (λ name, bool_decide (name ∈ members)) roster.

(** [PlayerTrueSkillPredictor._update_best_roster]; [members] is the
    set of eligible players, in its iteration order. *)
Definition _update_best_roster (team : string) (members : list string)
    (self : t) : result Roster * t :=
  match sorted_reverse_by (_min_roster_rating self)
          (default [] (roster_queues (base self) !! team)) with
  | Raise e => (Raise e, self)
  | Ok rosters =>
      let best_roster :=
        match List.find (all_in members) rosters with
        | Some roster => roster
        | None =>
            (* Just pick the best 6. *)
            let sorted_members := sorted_reverse (_min_rating self) members in
            take 6 sorted_members
        end in
      (Ok best_roster, set_best_rosters <[team := best_roster]> self)
  end.

(** [len(self.match_history[self.stage][team])]. *)
Definition match_number (team : string) (self : t) : nat :=
  length (default []
            (default ∅ (match_history (base self) !! stage (base self)) !! team)).

(** [PlayerTrueSkillPredictor._record_team_ratings].  The snapshot
    [ratings] is the dict held by the history: what is written to it
    before an exception stays in the history. *)
Definition _record_team_ratings (team : string) (self : t) : result Rating * t :=
  match stage (base self) with
  | None => (Raise KeyError, self)
  | Some stg =>
      let match_key := (stg, match_number team self) in
      match availabilities (base self) !! match_key with
      | None => (Raise KeyError, self)
      | Some per_team =>
          match per_team !! team with
          | None => (Raise KeyError, self)
          | Some members =>
              let ratings :=
                default ∅ (od_get match_key (ratings_history self)) in
              (* Record player ratings. *)
              let ratings :=
                foldl (λ ratings name, <[name := rating_of self name]> ratings)
                      ratings members in
              let self := set_ratings_history (od_set match_key ratings) self in
              (* Update the best roster. *)
              match _update_best_roster team members self with
              | (Raise e, self) => (Raise e, self)
              | (Ok best_roster, self) =>
                  (* Record the team rating. *)
                  match _roster_rating self best_roster with
                  | Raise e => (Raise e, self)
                  | Ok rating =>
                      let ratings := <[team := rating]> ratings in
                      (Ok rating,
                       set_ratings_history (od_set match_key ratings) self)
                  end
              end
          end
      end
  end.

(** [for name, rating in zip(roster, ratings): self.ratings[name] = rating]. *)
Definition store_player_ratings (roster : Roster) (new_ratings : list Rating)
    (self : t) : t :=
  set_ratings
    (λ jar, foldl (λ jar '(name, rating), <[name := rating]> jar) jar
                  (zip roster new_ratings))
    self.

(** The body of the loop of [_update_teams_ratings] for one team:
    store the new player ratings, then the team rating. *)
Definition update_team_ratings (team : string) (roster : Roster)
    (new_ratings : list Rating) (self : t) : result unit * t :=
  let self := store_player_ratings roster new_ratings self in
  match _record_team_ratings team self with
  | (Ok rating, self) => (Ok tt, set_ratings <[team := rating]> self)
  | (Raise e, self) => (Raise e, self)
  end.

(** [PlayerTrueSkillPredictor._update_teams_ratings]. *)
Fixpoint update_each (todo : list (string * (Roster * list Rating)))
    (self : t) : result unit * t :=
  match todo with
  | [] => (Ok tt, self)
  | (team, (roster, new_ratings)) :: rest =>
      match update_team_ratings team roster new_ratings self with
      | (Ok _, self) => update_each rest self
      | (Raise e, self) => (Raise e, self)
      end
  end.

Definition _update_teams_ratings (game : Game)
    (teams_ratings : list (list Rating)) (self : t) : result unit * t :=
  update_each
    (zip [(Game.teams game).1; (Game.teams game).2]
         (zip [(Game.rosters game).1; (Game.rosters game).2] teams_ratings))
    self.

(** [PlayerTrueSkillPredictor._teams_ratings]. *)
Definition _teams_ratings (self : t) (teams : string * string)
    (rosters : option (Roster * Roster)) : list Rating * list Rating :=
  let rosters :=
    match rosters with
    | Some rosters => rosters
    | None =>
        (* No rosters provided, use the best rosters if possible. *)
        (default (replicate 6 "") (best_rosters self !! teams.1),
         default (replicate 6 "") (best_rosters self !! teams.2))
    end in
  (map (rating_of self) rosters.1, map (rating_of self) rosters.2).

Section training.
(** [env.rate] of the trueskill package: the belief update, taken
    as given; it may raise. *)
Variable rate :
  TrueSkill.t → list (list Rating) → list Z → result (list (list Rating)).

(** [TrueSkillPredictor._train], as the player-based class runs it. *)
Definition _train (game : Game) (self : t) : result unit * t :=
  let '(score1, score2) := Game.score game in
  let ranks :=
    if bool_decide (score1 > score2) then [0; 1]      (* Team 1 wins. *)
    else if bool_decide (score1 = score2) then [0; 0] (* Draw. *)
    else [1; 0] in                                    (* Team 2 wins. *)
  let env :=
    if Game.drawable game then env_drawable self else env_undrawable self in
  let '(ratings1, ratings2) :=
    _teams_ratings self (Game.teams game) (Some (Game.rosters game)) in
  match rate env [ratings1; ratings2] ranks with
  | Raise e => (Raise e, self)
  | Ok teams_ratings => _update_teams_ratings game teams_ratings self
  end.
End training.
End PlayerTrueSkillPredictor.

(** The specification's reading of the roster score and of the team
    uncertainty, for comparison with the code. *)
Module Spec.
Import PlayerTrueSkillPredictor.

(** "average of (mean - 3·uncertainty) over the 6 members". *)
Definition lower_confidence_bound (self : t) (roster : Roster) : R :=
  (sum (map (λ name, Rating.mu (rating_of self name)
                     - 3 * Rating.sigma (rating_of self name)) roster) / 6)%R.

(** "quadratic mean, i.e. sqrt(average of squared uncertainties), over
    the roster". *)
Definition quadratic_mean (self : t) (roster : Roster) : R :=
  sqrt (sum (map (λ name, (Rating.sigma (rating_of self name) ^ 2)%R) roster)
        / INR (length roster)).

(** "order queued rosters by a lower-confidence-bound score,
    descending; return the first roster fully contained in
    eligible_players." *)
Definition select_best_roster (team : string) (members : list string)
    (self : t) : option Roster :=
  List.find (all_in members)
    (sorted_reverse (lower_confidence_bound self)
       (default [] (roster_queues (base self) !! team))).
End Spec.

(** The drawable environment can create its prior rating: its sigma
    is not 0 (the default is 2500 / 3). *)
Definition creates_prior (self : PlayerTrueSkillPredictor.t) : Prop :=
  TrueSkill.sigma (PlayerTrueSkillPredictor.env_drawable self) ≠ 0%R.

(** A roster none of whose members has an uncertainty other than 0,
    the empty roster for one: its summary rating cannot be built. *)
Definition zero_sigma (self : PlayerTrueSkillPredictor.t) (roster : Roster)
  : Prop :=
  Forall
    (λ name, Rating.sigma (PlayerTrueSkillPredictor.rating_of self name) = 0%R)
    roster.

(** The summary of a roster in the state [self]: (sum of the members'
    means) / 6 and sqrt(sum of the members' squared uncertainties) / 6. *)
Definition summary (self : PlayerTrueSkillPredictor.t) (roster : Roster)
  : Rating :=
  Rating.mk
    (sum (map (λ name, Rating.mu (PlayerTrueSkillPredictor.rating_of self name))
              roster) / 6)%R
    (sqrt (sum (map (λ name,
                      (Rating.sigma (PlayerTrueSkillPredictor.rating_of self name)
                       ^ 2)%R) roster)) / 6)%R.

(** ** Sample data

    Team T with two rosters in its queue: X (most recent), six
    players still at the prior rating (0, 1), and Y, one player rated
    (0, 5/2) and five rated (0, 1/10).  All twelve are eligible for
    T's first match of stage1. *)
Module Sample.
Definition X : Roster := ["a1"; "a2"; "a3"; "a4"; "a5"; "a6"].
Definition Y : Roster := ["b1"; "b2"; "b3"; "b4"; "b5"; "b6"].
Definition members : list string := (X ++ Y)%list.

Definition env : TrueSkill.t := TrueSkill.mk 0 1 1 0 0.

Definition tracker : Predictor :=
  mkPredictor {[ ("stage1", 0%nat) := {[ "T" := members ]} ]}
    {[ "T" := [X; Y] ]} ∅ ∅ (Some "stage1") (Some "stage1") ∅ ∅ ∅ ∅ ∅ ∅
    None None ∅ ∅ 0%R 0%R [] [].

Definition jar : gmap string Rating :=
  <["b1" := Rating.mk 0 2.5]>
    (<["b2" := Rating.mk 0 0.1]>
      (<["b3" := Rating.mk 0 0.1]>
        (<["b4" := Rating.mk 0 0.1]>
          (<["b5" := Rating.mk 0 0.1]>
            (<["b6" := Rating.mk 0 0.1]> ∅))))).

Definition player_model : PlayerTrueSkillPredictor.t :=
  PlayerTrueSkillPredictor.mk tracker env env jar ∅ [].

(** The ratings X's players get from a game that leaves them at
    (0, 1). *)
Definition unchanged : list Rating := replicate 6 (Rating.mk 0 1).

(** Two teams V and W with one eligible player each and no roster in
    their queues, a game between them, and a belief update that puts
    every player at (0, 1). *)
Definition league : PlayerTrueSkillPredictor.t :=
  PlayerTrueSkillPredictor.mk
    (mkPredictor
       {[ ("stage1", 0%nat) := <["W" := ["d1"]]> {[ "V" := ["c1"] ]} ]}
       ∅ ∅ ∅ (Some "stage1") (Some "stage1") ∅ ∅ ∅ ∅ ∅ ∅
       None None ∅ ∅ 0%R 0%R [] [])
    env env ∅ ∅ [].

Definition game : Game :=
  Game.mk ("V", "W") (1, 0) "stage1" 7 "regular" false (["c1"], ["d1"]).

Definition rate (env : TrueSkill.t) (groups : list (list Rating))
    (ranks : list Z) : result (list (list Rating)) :=
  Ok (map (map (λ _, Rating.mk 0 1)) groups).
End Sample.

(** The sample team after a game that left X's players at (0, 1). *)
Definition sample_trained : PlayerTrueSkillPredictor.t :=
  PlayerTrueSkillPredictor.store_player_ratings Sample.X Sample.unchanged
    Sample.player_model.

(** Projections of a state built by the field assignments. *)
Ltac fields :=
  cbn [availabilities roster_queues map_diffs head_to_head_map_diffs stage
       base_stage stage_wins stage_losses stage_map_diffs
       stage_head_to_head_map_diffs stage_title_wins stage_title_losses
       match_id score scores match_history expected_draws real_draws points
       corrects set_map_diffs set_head_to_head_map_diffs set_stage
       set_stage_wins set_stage_losses set_stage_map_diffs
       set_stage_head_to_head_map_diffs set_stage_title_wins
       set_stage_title_losses set_match set_score clear_stage_counters] in *.

(** ** Invariants of the standings *)

(** A head-to-head table that reads [-x] for (b, a) whenever it reads
    [x] for (a, b). *)
Definition antisymmetric (h : gmap (string * string) Z) : Prop :=
  ∀ a b, getd h (a, b) = - getd h (b, a).

(** [game.score[0] != game.score[1]]. *)
Definition decisive (game : Game) : bool :=
  bool_decide ((Game.score game).1 ≠ (Game.score game).2).

(** The number of games of [games] that [team] won; a drawn game
    counts for nobody. *)
Fixpoint maps_won (team : string) (games : list Game) : Z :=
  match games with
  | [] => 0
  | game :: rest =>
      (if decisive game && bool_decide ((winner_loser game).1 = team)
       then 1 else 0)
      + maps_won team rest
  end.

(** A regular-format game of match [mid], drawn or decisive, played in
    stage [st] between [A] and [B] (listed in either order). *)
Definition game_of_match (mid : Z) (st A B : string) (game : Game) : Prop :=
  Game.match_id game = mid ∧ Game.stage game = st ∧
  Game.match_format game = "regular" ∧
  (Game.teams game = (A, B) ∨ Game.teams game = (B, A)).

(** [self.match_history[self.stage][team]]. *)
Definition team_history (self : Predictor) (team : string) : list Z :=
  default [] (default ∅ (match_history self !! stage self) !! team).

(** ** Match prediction *)

(** The loop of [predict_match]: the probability of a win of team 1
    and the expected map differential. *)
Definition win_and_diff (p_scores : PScores) : R * R :=
  fold_left
    (λ (sums : R * R) (item : (Z * Z) * R),
       let '(p_win, e_diff) := sums in
       let '((score1, score2), p) := item in
       (if bool_decide (score1 > score2) then (p_win + p)%R else p_win,
        (e_diff + p * IZR (score1 - score2))%R))
    p_scores (0%R, 0%R).

(** [Predictor.predict_match]. *)
Definition predict_match {Self : Type}
    (predict : string * string → option (Roster * Roster) → bool → Self
               → (R * R) * Self)
    (teams : string * string) (rosters : option (Roster * Roster))
    (match_format : string) (self : Self) : result (R * R) * Self :=
  match predict_match_score predict teams rosters match_format self with
  | (Ok p_scores, self) => (Ok (win_and_diff p_scores), self)
  | (Raise e, self) => (Raise e, self)
  end.

(** A pair of probabilities of a win and of a draw. *)
Definition probabilities (p : R * R) : Prop :=
  (0 <= p.1)%R ∧ (0 <= p.2)%R ∧ (p.1 + p.2 <= 1)%R.

(** The heuristic model behind the abstract [predict]: it reads the
    standings and keeps the predictor as it is. *)
Definition simple_model (teams : string * string)
    (rosters : option (Roster * Roster)) (drawable : bool)
    (self : SimplePredictor.t) : (R * R) * SimplePredictor.t :=
  (SimplePredictor.predict self teams rosters drawable, self).

(** An entry reached after at most [n] maps; its probability is
    constrained when [tracked] holds. *)
Definition reached (tracked : Prop) (n : Z) (entry : (Z * Z) * R) : Prop :=
  (0 ≤ entry.1.1 ∧ 0 ≤ entry.1.2 ∧ entry.1.1 + entry.1.2 ≤ n)%Z ∧
  (tracked → 0 <= entry.2)%R.

(** An entry of a finished series of [n] maps. *)
Definition finished (tracked : Prop) (n : Z) (entry : (Z * Z) * R) : Prop :=
  (entry.1.1 ≠ entry.1.2 ∧ 0 ≤ entry.1.1 ∧ 0 ≤ entry.1.2 ∧
   entry.1.1 + entry.1.2 ≤ n + 1 ∧ Z.abs (entry.1.1 - entry.1.2) ≤ n)%Z ∧
  (tracked → 0 <= entry.2)%R.

(** ** Training *)

(** Assignments of the roster queues, the draw counts and the
    evaluation history. *)
Definition set_roster_queues
    (f : gmap string (list Roster) → gmap string (list Roster))
    (p : Predictor) : Predictor :=
  mkPredictor (availabilities p) (f (roster_queues p)) (map_diffs p)
    (head_to_head_map_diffs p) (stage p) (base_stage p) (stage_wins p)
    (stage_losses p) (stage_map_diffs p) (stage_head_to_head_map_diffs p)
    (stage_title_wins p) (stage_title_losses p) (match_id p) (score p)
    (scores p) (match_history p) (expected_draws p) (real_draws p)
    (points p) (corrects p).

Definition set_expected_draws (x : R) (p : Predictor) : Predictor :=
  mkPredictor (availabilities p) (roster_queues p) (map_diffs p)
    (head_to_head_map_diffs p) (stage p) (base_stage p) (stage_wins p)
    (stage_losses p) (stage_map_diffs p) (stage_head_to_head_map_diffs p)
    (stage_title_wins p) (stage_title_losses p) (match_id p) (score p)
    (scores p) (match_history p) x (real_draws p) (points p) (corrects p).

Definition set_real_draws (x : R) (p : Predictor) : Predictor :=
  mkPredictor (availabilities p) (roster_queues p) (map_diffs p)
    (head_to_head_map_diffs p) (stage p) (base_stage p) (stage_wins p)
    (stage_losses p) (stage_map_diffs p) (stage_head_to_head_map_diffs p)
    (stage_title_wins p) (stage_title_losses p) (match_id p) (score p)
    (scores p) (match_history p) (expected_draws p) x (points p) (corrects p).

Definition set_points (l : list R) (p : Predictor) : Predictor :=
  mkPredictor (availabilities p) (roster_queues p) (map_diffs p)
    (head_to_head_map_diffs p) (stage p) (base_stage p) (stage_wins p)
    (stage_losses p) (stage_map_diffs p) (stage_head_to_head_map_diffs p)
    (stage_title_wins p) (stage_title_losses p) (match_id p) (score p)
    (scores p) (match_history p) (expected_draws p) (real_draws p)
    l (corrects p).

Definition set_corrects (l : list bool) (p : Predictor) : Predictor :=
  mkPredictor (availabilities p) (roster_queues p) (map_diffs p)
    (head_to_head_map_diffs p) (stage p) (base_stage p) (stage_wins p)
    (stage_losses p) (stage_map_diffs p) (stage_head_to_head_map_diffs p)
    (stage_title_wins p) (stage_title_losses p) (match_id p) (score p)
    (scores p) (match_history p) (expected_draws p) (real_draws p)
    (points p) l.

(** [deque(maxlen=size).appendleft(roster)]: a full queue drops its
    last roster. *)
Definition appendleft (size : nat) (roster : Roster) (queue : list Roster)
  : list Roster :=
  take size (roster :: queue).

(** [Predictor._update_rosters]; [roster_queue_size] is the argument
    of [__init__] that the queues are created with. *)
Definition _update_rosters (roster_queue_size : nat) (game : Game)
    (self : Predictor) : Predictor :=
  foldl
    (λ self '(team, roster),
       set_roster_queues
         (λ queues,
            <[team := appendleft roster_queue_size roster
                        (default [] (queues !! team))]> queues)
         self)
    self
    (zip [(Game.teams game).1; (Game.teams game).2]
         [(Game.rosters game).1; (Game.rosters game).2]).

Section training.
(** The state of a predictor of a subclass, the [Predictor] fields it
    holds and the two methods the subclass defines. *)
Context {Self : Type}.
Variable base : Self → Predictor.
Variable on_base : (Predictor → Predictor) → Self → Self.
Variable predict :
  string * string → option (Roster * Roster) → bool → Self → (R * R) * Self.
Variable _train : Game → Self → result unit * Self.
Variable roster_queue_size : nat.

(** [Predictor._update_draws]. *)
Definition _update_draws (game : Game) (self : Self) : Self :=
  let self :=
    if Game.drawable game then
      let '((_, p_draw), self) :=
        predict (Game.teams game) (Some (Game.rosters game)) true self in
      on_base (λ b, set_expected_draws (expected_draws b + p_draw)%R b) self
    else self in
  if bool_decide ((Game.score game).1 = (Game.score game).2) then
    on_base (λ b, set_real_draws (real_draws b + 1)%R b) self
  else self.

(** [Predictor.train]. *)
Definition train (game : Game) (self : Self) : result R * Self :=
  match evaluate predict game self with
  | (Raise e, self) => (Raise e, self)
  | (Ok (point, correct), self) =>
      let self := on_base (λ b, set_points (points b ++ [point])%list b) self in
      let self :=
        on_base (λ b, set_corrects (corrects b ++ [correct])%list b) self in
      let self := on_base (_update_rosters roster_queue_size game) self in
      match _update_standings game (base self) with
      | (Raise e, b) => (Raise e, on_base (λ _, b) self)
      | (Ok _, b) =>
          let self := on_base (λ _, b) self in
          let self := _update_draws game self in
          match _train game self with
          | (Raise e, self) => (Raise e, self)
          | (Ok _, self) => (Ok point, self)
          end
      end
  end.

(** The loop of [train_games], from the running total. *)
Fixpoint train_each (games : list Game) (total_point : R) (self : Self)
  : result R * Self :=
  match games with
  | [] => (Ok total_point, self)
  | game :: rest =>
      match train game self with
      | (Raise e, self) => (Raise e, self)
      | (Ok point, self) => train_each rest (total_point + point)%R self
      end
  end.

(** [Predictor.train_games]. *)
Definition train_games (games : list Game) (self : Self) : result R * Self :=
  train_each games 0%R self.
End training.

(** The heuristic model as a subclass: its [Predictor] fields and its
    [_train], which does nothing. *)
Module SimpleTraining.
Definition on_base (f : Predictor → Predictor) (self : SimplePredictor.t)
  : SimplePredictor.t :=
  SimplePredictor.mk (f (SimplePredictor.base self))
    (SimplePredictor.alpha self) (SimplePredictor.beta self).

Definition _train (game : Game) (self : SimplePredictor.t)
  : result unit * SimplePredictor.t :=
  (Ok tt, self).

Definition train (roster_queue_size : nat) :=
  train SimplePredictor.base on_base simple_model _train roster_queue_size.

Definition train_games (roster_queue_size : nat) :=
  train_games SimplePredictor.base on_base simple_model _train
    roster_queue_size.
End SimpleTraining.

(** A predictor with the roster queues, draw counts and evaluation
    history of [log] and everything else of [p]. *)
Definition with_log (log p : Predictor) : Predictor :=
  mkPredictor (availabilities p) (roster_queues log) (map_diffs p)
    (head_to_head_map_diffs p) (stage p) (base_stage p) (stage_wins p)
    (stage_losses p) (stage_map_diffs p) (stage_head_to_head_map_diffs p)
    (stage_title_wins p) (stage_title_losses p) (match_id p) (score p)
    (scores p) (match_history p) (expected_draws log) (real_draws log)
    (points log) (corrects log).

(** The number of drawn games of a list. *)
Definition drawn_games (games : list Game) : nat :=
  length (filter (λ game, (Game.score game).1 = (Game.score game).2) games).

(** ** Stage prediction: what the result settles *)

(** Both teams of a game are among [teams]. *)
Definition teams_listed (teams : list string) (game : Game) : Prop :=
  (Game.teams game).1 ∈ teams ∧ (Game.teams game).2 ∈ teams.

(** The entry is the bool [b], not a sampled frequency. *)
Definition settled (b : bool) (v : pvalue) : bool :=
  match v with
  | Definite b' => bool_decide (b' = b)
  | Freq _ => false
  end.

(** A worst case and a best case of the same team. *)
Definition bracket (low high : string * (Z * Z)) : Prop :=
  low.1 = high.1 ∧ (low.2.1 ≤ high.2.1)%Z ∧ (low.2.2 ≤ high.2.2)%Z.

(** * Properties *)

(** ** Counter maps *)

Section counters.
Context `{Countable K}.
Implicit Types (m : gmap K Z) (k : K).

Lemma getd_empty k : getd (∅ : gmap K Z) k = 0.
Proof. unfold getd. by rewrite lookup_empty. Qed.

Lemma getd_incr_eq m k d : getd (incr k d m) k = getd m k + d.
Proof. unfold incr, getd at 1. by rewrite lookup_insert_eq. Qed.

Lemma getd_incr_ne m k k' d : k ≠ k' → getd (incr k d m) k' = getd m k'.
Proof. intros ne. unfold incr, getd at 1. by rewrite lookup_insert_ne. Qed.
End counters.

(** ** Stage transitions *)

Lemma prefix_app (c suffix : string) : String.prefix c (c ++ suffix) = true.
Proof.
  induction c as [|a c IH]; simpl.
  - by destruct suffix.
  - destruct (Ascii.ascii_dec a a); [exact IH | done].
Qed.

Lemma prefix_inv (c st : string) :
  String.prefix c st = true → ∃ suffix, st = c ++ suffix.
Proof.
  revert st. induction c as [|a c IH]; intros [|b st]; simpl;
    try done; try by eexists.
  - destruct (Ascii.ascii_dec a b) as [-> | ]; [| done].
    intros [suffix ->]%IH. by exists suffix.
Qed.

Lemma update_stage_same st self :
  stage self = Some st → _update_stage st self = self.
Proof. intros e. unfold _update_stage. by rewrite bool_decide_eq_true_2. Qed.

Lemma update_stage_stage st self : stage (_update_stage st self) = Some st.
Proof.
  unfold _update_stage. case_bool_decide as e; [done |].
  by destruct (extends_stage st (stage self)).
Qed.

(** [_update_stage] touches neither the global standings nor the
    match fields. *)
Lemma update_stage_frame st self :
  let self' := _update_stage st self in
  map_diffs self' = map_diffs self ∧
  head_to_head_map_diffs self' = head_to_head_map_diffs self ∧
  match_id self' = match_id self ∧ score self' = score self.
Proof.
  unfold _update_stage. case_bool_decide; [done |].
  by destruct (extends_stage st (stage self)).
Qed.

(** C5: [_update_stage] leaves the state as it is when the incoming
    stage id is the tracked one; when the id differs and is the tracked
    id followed by a suffix, it switches to the new id, keeps the old id
    as base stage and keeps every stage-scoped counter (wins, losses,
    map diffs, head-to-head diffs, title wins and losses); when the id
    differs and is no such extension (or no stage is tracked yet), it
    switches to the new id and empties all of those counters. *)
Theorem update_stage_cases (st : string) (self : Predictor) :
  (stage self = Some st → _update_stage st self = self) ∧
  (∀ cur suffix, stage self = Some cur → st = cur ++ suffix → st ≠ cur →
     stage (_update_stage st self) = Some st ∧
     base_stage (_update_stage st self) = Some cur ∧
     stage_counters (_update_stage st self) = stage_counters self) ∧
  (stage self ≠ Some st →
   (∀ cur suffix, stage self = Some cur → st ≠ cur ++ suffix) →
     stage (_update_stage st self) = Some st ∧
     base_stage (_update_stage st self) = Some st ∧
     stage_counters (_update_stage st self) = (∅, ∅, ∅, ∅, ∅, ∅)).
Proof.
  split; [apply update_stage_same | split].
  - intros cur suffix e -> ne. unfold _update_stage.
    rewrite bool_decide_eq_false_2 by (rewrite e; congruence).
    rewrite e. cbn [extends_stage]. by rewrite prefix_app.
  - intros ne ext. unfold _update_stage.
    rewrite bool_decide_eq_false_2 by congruence.
    destruct (extends_stage st (stage self)) eqn:x; [| done].
    destruct (stage self) as [cur|] eqn:e; [| done].
    apply prefix_inv in x as [suffix ->]. by destruct (ext cur suffix).
Qed.

(** The three cases from stage "s2": the same id, the title sub-stage
    "s2-title", and the new stage "s3", a stage win being on record. *)
Lemma update_stage_cases_witness :
  let self :=
    set_stage_wins (incr "A" 1) (set_stage (Some "s2") (Some "s2") (fresh ∅)) in
  _update_stage "s2" self = self ∧
  (stage (_update_stage "s2-title" self) = Some "s2-title" ∧
   base_stage (_update_stage "s2-title" self) = Some "s2" ∧
   stage_counters (_update_stage "s2-title" self) = stage_counters self) ∧
  (stage (_update_stage "s3" self) = Some "s3" ∧
   base_stage (_update_stage "s3" self) = Some "s3" ∧
   stage_counters (_update_stage "s3" self) = (∅, ∅, ∅, ∅, ∅, ∅)).
Proof.
  intros self. split; [| split].
  - by apply (update_stage_cases "s2" self).
  - destruct (update_stage_cases "s2-title" self) as (_ & title & _).
    by apply (title "s2" "-title").
  - destruct (update_stage_cases "s3" self) as (_ & _ & new).
    apply new; [discriminate |].
    intros cur suffix [= <-]. discriminate.
Defined.

(** ** Match transitions *)

Lemma update_match_ids_same mid teams self :
  match_id self = Some mid → _update_match_ids mid teams self = self.
Proof. intros e. unfold _update_match_ids. by rewrite bool_decide_eq_true_2. Qed.

Lemma update_match_ids_new mid teams self :
  match_id self ≠ Some mid →
  score (_update_match_ids mid teams self)
    = Some (<[teams.2 := 0]> (<[teams.1 := 0]> ∅)).
Proof.
  intros ne. unfold _update_match_ids.
  by rewrite bool_decide_eq_false_2 by congruence.
Qed.

Lemma update_match_ids_match_id mid teams self :
  match_id (_update_match_ids mid teams self) = Some mid.
Proof. unfold _update_match_ids. by case_bool_decide. Qed.

(** [_update_match_ids] touches the match fields only. *)
Lemma update_match_ids_frame mid teams self :
  let self' := _update_match_ids mid teams self in
  stage self' = stage self ∧ map_diffs self' = map_diffs self ∧
  stage_wins self' = stage_wins self ∧ stage_losses self' = stage_losses self.
Proof. unfold _update_match_ids. by case_bool_decide. Qed.

(** One decisive non-title game, the running scores being [sw], [sl]. *)
Lemma update_standings_decisive game self sc sw sl :
  let W := (winner_loser game).1 in
  let L := (winner_loser game).2 in
  (Game.score game).1 ≠ (Game.score game).2 →
  Game.match_format game ≠ "title" →
  score (entered game self) = Some sc →
  sc !! W = Some sw → sc !! L = Some sl →
  ∃ self',
    _update_standings game self = (Ok tt, self') ∧
    stage self' = Some (Game.stage game) ∧
    match_id self' = Some (Game.match_id game) ∧
    score self' = Some (<[W := sw + 1]> sc) ∧
    map_diffs self' = incr L (-1) (incr W 1 (map_diffs self)) ∧
    stage_wins self' =
      (if bool_decide (sw = sl) then incr W 1
       else if bool_decide (sw = sl - 1) then incr L (-1)
       else λ m, m) (stage_wins (_update_stage (Game.stage game) self)).
Proof.
  intros W L dec fmt esc eW eL.
  pose proof (update_match_ids_frame (Game.match_id game) (Game.teams game)
                (_update_stage (Game.stage game) self)) as (fs & fm & fw & _).
  pose proof (update_match_ids_match_id (Game.match_id game) (Game.teams game)
                (_update_stage (Game.stage game) self)) as fid.
  pose proof (update_stage_stage (Game.stage game) self) as fstg.
  fold (entered game self) in fs, fm, fw, fid.
  unfold _update_standings. fold (entered game self).
  subst W L. unfold winner_loser in *.
  destruct game as [[t1 t2] [s1 s2] st mid fmt' dr ro]; cbn [Game.teams Game.score Game.stage Game.match_id Game.match_format fst snd] in *.
  rewrite bool_decide_eq_true_2 by done.
  apply String.eqb_neq in fmt. rewrite fmt.
  set (s0 := entered _ self) in *. clearbody s0.
  pose proof (update_stage_frame st self) as (gm & _).
  cbn zeta in gm. rewrite gm in fm.
  destruct (bool_decide (s1 > s2)); cbn [fst snd] in *; fields;
    rewrite esc, eW, eL; (eexists; split; [reflexivity |]);
    unfold handle_match_result;
    repeat case_bool_decide; fields; rewrite ?fm, ?fw, ?fid, fs; done.
Qed.

Lemma entered_stage game self : stage (entered game self) = Some (Game.stage game).
Proof.
  unfold entered.
  destruct (update_match_ids_frame (Game.match_id game) (Game.teams game)
              (_update_stage (Game.stage game) self)) as (-> & _).
  apply update_stage_stage.
Qed.

Lemma entered_match_id game self :
  match_id (entered game self) = Some (Game.match_id game).
Proof. apply update_match_ids_match_id. Qed.

Lemma entered_fixed game self :
  stage self = Some (Game.stage game) →
  match_id self = Some (Game.match_id game) →
  entered game self = self.
Proof.
  intros es em. unfold entered.
  rewrite update_stage_same by done. by apply update_match_ids_same.
Qed.

Lemma entered_idem game self : entered game (entered game self) = entered game self.
Proof. apply entered_fixed; [apply entered_stage | apply entered_match_id]. Qed.

Lemma entered_stage_wins game self :
  stage_wins (entered game self) = stage_wins (_update_stage (Game.stage game) self).
Proof.
  unfold entered.
  by destruct (update_match_ids_frame (Game.match_id game) (Game.teams game)
                 (_update_stage (Game.stage game) self)) as (_ & _ & -> & _).
Qed.

(** [_update_standings] only sees the state through [entered]. *)
Lemma update_standings_entered game self :
  _update_standings game self = _update_standings game (entered game self).
Proof.
  unfold _update_standings. fold (entered game self).
  fold (entered game (entered game self)). by rewrite entered_idem.
Qed.

(** ** One decisive game *)

(** C2, as the code has it: a decisive regular-format game in which A
    beats B (4-0 or by any other margin), the running match score of
    the two being tied when the game is scored (a new match, or equal
    running scores in the current one), moves the global map-diff of A
    by +1 and of B by -1 (one map per game, whatever the margin) and
    adds 1 to A's stage win counter (counted from the stage counters
    once the game's stage is entered). *)
Theorem decisive_regular_game_tied
    (self : Predictor) (game : Game) (A B : string) (a b : Z) :
  Game.teams game = (A, B) → A ≠ B →
  Game.score game = (a, b) → a > b →
  Game.match_format game = "regular" →
  (match_id self ≠ Some (Game.match_id game) ∨
   ∃ sc x, score self = Some sc ∧ sc !! A = Some x ∧ sc !! B = Some x) →
  ∃ self',
    _update_standings game self = (Ok tt, self') ∧
    getd (map_diffs self') A = getd (map_diffs self) A + 1 ∧
    getd (map_diffs self') B = getd (map_diffs self) B - 1 ∧
    getd (stage_wins self') A
      = getd (stage_wins (_update_stage (Game.stage game) self)) A + 1.
Proof.
  intros et ne es gt fmt tied.
  assert (∃ sc x, score (entered game self) = Some sc ∧
                  sc !! A = Some x ∧ sc !! B = Some x) as (sc & x & esc & eA & eB).
  { destruct (decide (match_id self = Some (Game.match_id game))) as [e | n].
    - destruct tied as [? | (sc & x & ? & ? & ?)]; [done |].
      exists sc, x. unfold entered. rewrite update_match_ids_same.
      + by destruct (update_stage_frame (Game.stage game) self) as (_ & _ & _ & ->).
      + by destruct (update_stage_frame (Game.stage game) self) as (_ & _ & -> & _).
    - eexists _, 0. unfold entered. rewrite update_match_ids_new.
      + rewrite et; cbn [fst snd]. split; [done |].
        by rewrite lookup_insert_ne, !lookup_insert_eq by done.
      + by destruct (update_stage_frame (Game.stage game) self) as (_ & _ & -> & _). }
  assert (winner_loser game = (A, B)) as ewl.
  { unfold winner_loser. rewrite es, et. cbn [fst snd].
    by rewrite bool_decide_eq_true_2. }
  destruct (update_standings_decisive game self sc x x)
    as (self' & run & _ & _ & _ & emd & ew).
  - rewrite es; cbn [fst snd]; lia.
  - by rewrite fmt.
  - done.
  - by rewrite ewl.
  - by rewrite ewl.
  - exists self'. split; [done |]. rewrite ewl in emd, ew. cbn [fst snd] in *.
    rewrite emd, ew, bool_decide_eq_true_2 by done.
    rewrite getd_incr_ne, !getd_incr_eq, getd_incr_ne by done. lia.
Qed.

(** The scenario of C2 on a fresh tracker: A beats B 4-0 in the first
    game of match 7. *)
Lemma decisive_regular_game_tied_witness :
  let game := Game.mk ("A", "B") (4, 0) "stage1" 7 "regular" false ([], []) in
  let self := fresh ∅ in
  ∃ self',
    _update_standings game self = (Ok tt, self') ∧
    getd (map_diffs self') "A" = getd (map_diffs self) "A" + 1 ∧
    getd (map_diffs self') "B" = getd (map_diffs self) "B" - 1 ∧
    getd (stage_wins self') "A"
      = getd (stage_wins (_update_stage (Game.stage game) self)) "A" + 1.
Proof.
  intros game self.
  apply (decisive_regular_game_tied self game "A" "B" 4 0);
    [reflexivity | discriminate | reflexivity | lia | reflexivity |].
  left. discriminate.
Defined.

(** C2 as stated fails: after the 4-0 game the global map-diffs moved
    by +1 and -1, not by +4 and -4. *)
Lemma map_diff_ignores_margin :
  let game := Game.mk ("A", "B") (4, 0) "stage1" 7 "regular" false ([], []) in
  let self := fresh ∅ in
  let self' := (_update_standings game self).2 in
  (_update_standings game self).1 = Ok tt ∧
  score (entered game self) = Some (<["B" := 0]> (<["A" := 0]> ∅)) ∧
  getd (map_diffs self') "A" = getd (map_diffs self) "A" + 1 ∧
  getd (map_diffs self') "B" = getd (map_diffs self) "B" - 1 ∧
  ¬ (getd (map_diffs self') "A" = getd (map_diffs self) "A" + 4 ∧
     getd (map_diffs self') "B" = getd (map_diffs self) "B" - 4 ∧
     getd (stage_wins self') "A" = getd (stage_wins self) "A" + 1).
Proof.
  cbv zeta. repeat split; try reflexivity.
  intros (e & _). vm_compute in e. discriminate.
Qed.

(** ** A whole match *)

Section one_match.
Variables (mid : Z) (st A B : string).
Hypothesis distinct : A ≠ B.

(** Inside a match the stage win counters follow the lead: each
    counter minus the lead indicator of its team stays put. *)
Lemma replay_in_match games : ∀ self sc a b,
  Forall (map_of_match mid st A B) games →
  stage self = Some st → match_id self = Some mid →
  score self = Some sc → sc !! A = Some a → sc !! B = Some b →
  ∃ self' sc',
    replay_standings games self = (Ok tt, self') ∧
    score self' = Some sc' ∧
    sc' !! A = Some (a + map_wins A games) ∧
    sc' !! B = Some (b + map_wins B games) ∧
    getd (stage_wins self') A - lead (a + map_wins A games) (b + map_wins B games)
      = getd (stage_wins self) A - lead a b ∧
    getd (stage_wins self') B - lead (b + map_wins B games) (a + map_wins A games)
      = getd (stage_wins self) B - lead b a.
Proof.
  induction games as [|game rest IH]; intros self sc a b all es em esc eA eB.
  - exists self, sc. cbn [replay_standings map_wins].
    by rewrite !Z.add_0_r.
  - apply Forall_cons in all as [(gm & gs & gf & gt & gd) all].
    assert (entered game self = self) as fixed
      by (apply entered_fixed; congruence).
    cbn [replay_standings map_wins].
    assert (∃ sw sl, sc !! (winner_loser game).1 = Some sw ∧
                     sc !! (winner_loser game).2 = Some sl ∧
                     ((winner_loser game = (A, B) ∧ sw = a ∧ sl = b) ∨
                      (winner_loser game = (B, A) ∧ sw = b ∧ sl = a)))
      as (sw & sl & eW & eL & side).
    { unfold winner_loser.
      destruct gt as [-> | ->]; case_bool_decide; cbn [fst snd];
        eauto 10. }
    destruct (update_standings_decisive game self sc sw sl)
      as (self1 & -> & es1 & em1 & esc1 & _ & ew1);
      [done | by rewrite gf | by rewrite fixed | done | done |].
    rewrite update_stage_same in ew1 by congruence.
    destruct side as [(ewl & -> & ->) | (ewl & -> & ->)];
      rewrite ewl in *; cbn [fst snd] in *.
    + destruct (IH self1 (<[A := a + 1]> sc) (a + 1) b)
        as (self' & sc' & run & esc' & eA' & eB' & iA & iB);
        [done | congruence | congruence | done | apply lookup_insert_eq
        | by rewrite lookup_insert_ne |].
      exists self', sc'. rewrite (bool_decide_eq_true_2 (A = A)) by done.
      rewrite (bool_decide_eq_false_2 (A = B)) by done.
      replace (a + (1 + map_wins A rest)) with (a + 1 + map_wins A rest) by lia.
      rewrite Z.add_0_l. repeat (split; [done |]).
      rewrite iA, iB, ew1. unfold lead.
      repeat case_bool_decide;
        rewrite ?getd_incr_eq, ?getd_incr_ne by done; lia.
    + destruct (IH self1 (<[B := b + 1]> sc) a (b + 1))
        as (self' & sc' & run & esc' & eA' & eB' & iA & iB);
        [done | congruence | congruence | done | by rewrite lookup_insert_ne
        | apply lookup_insert_eq |].
      exists self', sc'. rewrite (bool_decide_eq_true_2 (B = B)) by done.
      rewrite (bool_decide_eq_false_2 (B = A)) by done.
      replace (b + (1 + map_wins B rest)) with (b + 1 + map_wins B rest) by lia.
      rewrite Z.add_0_l. repeat (split; [done |]).
      rewrite iA, iB, ew1. unfold lead.
      repeat case_bool_decide;
        rewrite ?getd_incr_eq, ?getd_incr_ne by done; lia.
Qed.
End one_match.

Lemma map_wins_total mid st A B games :
  A ≠ B → Forall (map_of_match mid st A B) games →
  map_wins A games + map_wins B games = Z.of_nat (length games).
Proof.
  intros ne. induction 1 as [|game rest (_ & _ & _ & gt & _) _ IH];
    [done |].
  cbn [map_wins length]. unfold winner_loser.
  destruct gt as [-> | ->]; repeat case_bool_decide; cbn [fst snd] in *;
    try congruence; lia.
Qed.

Lemma replay_standings_entered game rest self :
  replay_standings (game :: rest) self
    = replay_standings (game :: rest) (entered game self).
Proof. cbn [replay_standings]. by rewrite <- update_standings_entered. Qed.

(** C1: seven decisive regular-format map games of one new match
    between two distinct teams, replayed in any order of map wins and
    losses, leave the stage win counter of the team with more map wins
    exactly 1 above, and that of the other team equal to, the stage
    counters in force when the match starts (those of the tracker once
    the stage of the match is entered). *)
Theorem best_of_seven_counts_once
    (self : Predictor) (games : list Game) (mid : Z) (st A B : string) :
  A ≠ B → match_id self ≠ Some mid → length games = 7%nat →
  Forall (map_of_match mid st A B) games →
  let W := if bool_decide (map_wins B games < map_wins A games) then A else B in
  let L := if bool_decide (map_wins B games < map_wins A games) then B else A in
  ∃ self',
    replay_standings games self = (Ok tt, self') ∧
    map_wins L games < map_wins W games ∧
    getd (stage_wins self') W = getd (stage_wins (_update_stage st self)) W + 1 ∧
    getd (stage_wins self') L = getd (stage_wins (_update_stage st self)) L.
Proof.
  intros ne new len all W L.
  pose proof (map_wins_total mid st A B games ne all) as total.
  rewrite len in total.
  destruct games as [|game rest]; [done |].
  pose proof all as [(gm & gs & _ & gt & _) _]%Forall_cons.
  rewrite replay_standings_entered.
  assert (match_id (_update_stage (Game.stage game) self) ≠ Some (Game.match_id game))
    as new'.
  { destruct (update_stage_frame (Game.stage game) self) as (_ & _ & -> & _).
    congruence. }
  destruct (replay_in_match mid st A B ne (game :: rest) (entered game self)
              (<[(Game.teams game).2 := 0]> (<[(Game.teams game).1 := 0]> ∅)) 0 0)
    as (self' & sc' & run & _ & _ & _ & iA & iB).
  - done.
  - rewrite entered_stage. congruence.
  - rewrite entered_match_id. congruence.
  - by apply update_match_ids_new.
  - destruct gt as [-> | ->]; cbn [fst snd].
    + by rewrite lookup_insert_ne, lookup_insert_eq by congruence.
    + by rewrite lookup_insert_eq.
  - destruct gt as [-> | ->]; cbn [fst snd].
    + by rewrite lookup_insert_eq.
    + by rewrite lookup_insert_ne, lookup_insert_eq by congruence.
  - exists self'. split; [done |].
    rewrite entered_stage_wins, gs in iA, iB.
    unfold lead in iA, iB. subst W L.
    repeat case_bool_decide; try lia; (split; [lia |]); split; lia.
Qed.

(** A best-of-7 with lead changes, the teams listed in either order:
    A, B, B, A, A, B, A take the maps; A wins 4-3. *)
Lemma best_of_seven_counts_once_witness :
  let games :=
    [ Game.mk ("A", "B") (2, 0) "stage1" 7 "regular" true ([], []);
      Game.mk ("A", "B") (1, 3) "stage1" 7 "regular" false ([], []);
      Game.mk ("B", "A") (2, 1) "stage1" 7 "regular" true ([], []);
      Game.mk ("B", "A") (0, 1) "stage1" 7 "regular" false ([], []);
      Game.mk ("A", "B") (1, 0) "stage1" 7 "regular" true ([], []);
      Game.mk ("A", "B") (0, 2) "stage1" 7 "regular" false ([], []);
      Game.mk ("B", "A") (3, 4) "stage1" 7 "regular" false ([], []) ] in
  ∃ self',
    replay_standings games (fresh ∅) = (Ok tt, self') ∧
    getd (stage_wins self') "A" = 1 ∧ getd (stage_wins self') "B" = 0.
Proof.
  intros games.
  destruct (best_of_seven_counts_once (fresh ∅) games 7 "stage1" "A" "B")
    as (self' & run & _ & eW & eL).
  - discriminate.
  - discriminate.
  - reflexivity.
  - subst games.
    repeat (apply List.Forall_cons;
              [repeat split; try done; (by left) || (by right) |]).
    apply List.Forall_nil.
  - exists self'. split; [exact run |]. split; [exact eW | exact eL].
Defined.

(** ** The heuristic model *)

(** C4: with alpha = 0.2 the heuristic predictor returns p_win = 0.7
    whenever team1's global map-diff is strictly greater than team2's,
    whatever the size of the gap; it returns p_win = 0.5 when the
    map-diffs are equal and the head-to-head diff of the pair is 0; and
    its p_draw is 0 in every case. *)
Theorem heuristic_predict (self : SimplePredictor.t) (team1 team2 : string)
    (rosters : option (Roster * Roster)) (drawable : bool) :
  SimplePredictor.alpha self = 0.2%R →
  let diff1 := getd (map_diffs (SimplePredictor.base self)) team1 in
  let diff2 := getd (map_diffs (SimplePredictor.base self)) team2 in
  let record :=
    getd (head_to_head_map_diffs (SimplePredictor.base self)) (team1, team2) in
  let p := SimplePredictor.predict self (team1, team2) rosters drawable in
  (diff1 > diff2 → p.1 = 0.7%R) ∧
  (diff1 = diff2 → record = 0 → p.1 = 0.5%R) ∧
  p.2 = 0%R.
Proof.
  intros ea diff1 diff2 record p. subst p. unfold SimplePredictor.predict.
  fold diff1 diff2 record. cbn [fst snd]. repeat split.
  - intros gt. rewrite bool_decide_eq_true_2 by done. rewrite ea. lra.
  - intros e r0. rewrite bool_decide_eq_false_2 by lia.
    rewrite bool_decide_eq_true_2 by done.
    rewrite bool_decide_eq_false_2 by lia.
    by rewrite bool_decide_eq_true_2.
Qed.

(** The end-to-end scenario of the specification: map-diffs 3 and -3,
    alpha = 0.2. *)
Lemma heuristic_predict_witness :
  let self :=
    SimplePredictor.mk
      (set_map_diffs (λ _, <["B" := -3]> (<["A" := 3]> ∅)) (fresh ∅))
      0.2%R 0%R in
  SimplePredictor.predict self ("A", "B") None false = (0.7%R, 0%R).
Proof.
  intros self.
  destruct (heuristic_predict self "A" "B" None false eq_refl) as (gt & _ & dr).
  apply injective_projections; [apply gt; reflexivity | exact dr].
Defined.

(** ** Series outcome calculator *)

Section mass.
Local Open Scope R_scope.
Implicit Types (d acc : PScores) (k : Z * Z).

Lemma total_od_set k x d :
  total (od_set k x d) = total d - default 0 (od_get k d) + x.
Proof.
  induction d as [|[k' v] d IH]; cbn.
  - lra.
  - destruct (decide (k' = k)); cbn; [lra | rewrite IH; lra].
Qed.

Lemma total_od_add k v d : total (od_add k v d) = total d + v.
Proof. unfold od_add. rewrite total_od_set. lra. Qed.

(** A map moves every mass [p] to [p * p_win], [p * p_loss] and, when
    drawable, [p * p_draw]. *)
Lemma total_play_map (drawable : bool) p_win p_draw p_loss p_scores :
  total (play_map drawable p_win p_draw p_loss p_scores)
  = total p_scores * (p_win + p_loss + (if drawable then p_draw else 0)).
Proof.
  unfold play_map.
  enough (∀ acc, total (fold_left
    (λ new_p_scores '((score1, score2), p),
       let new_p_scores := od_add (score1 + 1, score2)%Z (p * p_win) new_p_scores in
       let new_p_scores := od_add (score1, score2 + 1)%Z (p * p_loss) new_p_scores in
       if drawable then od_add (score1, score2) (p * p_draw) new_p_scores
       else new_p_scores) p_scores acc)
    = total acc
      + total p_scores * (p_win + p_loss + (if drawable then p_draw else 0)))
    as gen by (rewrite gen; cbn; lra).
  induction p_scores as [|[[score1 score2] p] rest IH]; intros acc; cbn.
  - lra.
  - rewrite IH. destruct drawable; rewrite ?total_od_add; lra.
Qed.

(** The loop keeps the mass when undrawable maps carry no draw
    probability. *)
Lemma total_play_maps p_undrawable p_drawable drawables :
  p_undrawable.2 = 0 →
  ∀ p_scores p_loss,
    total (play_maps p_undrawable p_drawable drawables p_scores p_loss).1
    = total p_scores.
Proof.
  intros nodraw.
  induction drawables as [|drawable rest IH]; intros p_scores p_loss;
    cbn [play_maps]; [done |].
  destruct p_undrawable as [wu du], p_drawable as [wd dd]; cbn in nodraw.
  destruct drawable; rewrite IH, total_play_map; subst; lra.
Qed.

(** What the loop leaves in [p_loss]. *)
Lemma play_maps_p_loss p_undrawable p_drawable drawables :
  ∀ p_scores p_loss,
    (play_maps p_undrawable p_drawable drawables p_scores p_loss).2
    = match last drawables with
      | Some drawable =>
          let p := if drawable then p_drawable else p_undrawable in
          Some (1 - p.1 - p.2)
      | None => p_loss
      end.
Proof.
  induction drawables as [|drawable rest IH]; intros p_scores p_loss;
    cbn [play_maps]; [done |].
  destruct (if drawable then p_drawable else p_undrawable) as [w d] eqn:e.
  rewrite IH. destruct rest as [|drawable' rest]; cbn [last].
  - by rewrite e.
  - destruct (last (drawable' :: rest)) eqn:la; [done |].
    by apply last_None in la.
Qed.

(** With a bound [p_loss] the tie-breaker returns; it keeps the mass
    when [p_win + p_loss = 1]. *)
Lemma tie_breaker_bound p_win p_loss p_scores :
  ∃ d, tie_breaker p_win (Some p_loss) p_scores = Ok d ∧
       (p_win + p_loss = 1 → total d = total p_scores).
Proof.
  unfold tie_breaker.
  enough (∀ acc, ∃ d, fold_left
    (λ res '((score1, score2), p),
       match res with
       | Raise e => Raise e
       | Ok new_p_scores =>
           if bool_decide (score1 = score2) then
             let new_p_scores :=
               od_add (score1 + 1, score2)%Z (p * p_win) new_p_scores in
             match Some p_loss with
             | Some p_loss =>
                 Ok (od_add (score1, score2 + 1)%Z (p * p_loss) new_p_scores)
             | None => Raise UnboundLocalError
             end
           else Ok (od_add (score1, score2) p new_p_scores)
       end) p_scores (Ok acc) = Ok d ∧
       (p_win + p_loss = 1 → total d = total acc + total p_scores)) as gen.
  { destruct (gen []) as (d & e & sum). exists d. split; [exact e |].
    intros one. rewrite sum by done. cbn. lra. }
  induction p_scores as [|[[score1 score2] p] rest IH]; intros acc; cbn.
  - exists acc. split; [done | intros; lra].
  - case_bool_decide.
    + destruct (IH (od_add (score1, score2 + 1)%Z (p * p_loss)
                     (od_add (score1 + 1, score2)%Z (p * p_win) acc)))
        as (d & e & sum).
      exists d. split; [exact e |]. intros one. rewrite sum by done.
      rewrite !total_od_add.
      replace (p * p_loss) with (p * (1 - p_win)) by (rewrite <- one; ring).
      lra.
    + destruct (IH (od_add (score1, score2) p acc)) as (d & e & sum).
      exists d. split; [exact e |]. intros one. rewrite sum by done.
      rewrite total_od_add. lra.
Qed.

(** A series of at least one map returns a table. *)
Lemma bo_match_score_returns p_undrawable p_drawable drawables :
  drawables ≠ [] → ∃ d, bo_match_score p_undrawable p_drawable drawables = Ok d.
Proof.
  intros some. unfold bo_match_score.
  destruct (play_maps _ _ _ _ _) as [p_scores p_loss] eqn:e.
  pose proof (play_maps_p_loss p_undrawable p_drawable drawables
                [((0, 0)%Z, 1)] None) as pl.
  rewrite e in pl. cbn [snd] in pl.
  destruct (last drawables) as [drawable|] eqn:la.
  - rewrite pl. destruct (tie_breaker_bound p_undrawable.1
      (let p := if drawable then p_drawable else p_undrawable in 1 - p.1 - p.2)
      p_scores) as (d & ed & _). exists d. exact ed.
  - by apply last_None in la.
Qed.

Lemma bo_match_score_total p_undrawable p_drawable drawables :
  p_undrawable.2 = 0 → last drawables = Some false →
  ∃ d, bo_match_score p_undrawable p_drawable drawables = Ok d ∧ total d = 1.
Proof.
  intros nodraw la. unfold bo_match_score.
  destruct (play_maps _ _ _ _ _) as [p_scores p_loss] eqn:e.
  pose proof (play_maps_p_loss p_undrawable p_drawable drawables
                [((0, 0)%Z, 1)] None) as pl.
  pose proof (total_play_maps p_undrawable p_drawable drawables nodraw
                [((0, 0)%Z, 1)] None) as tot.
  rewrite e in pl, tot. cbn [fst snd] in pl, tot. rewrite la in pl.
  rewrite pl.
  destruct (tie_breaker_bound p_undrawable.1
              (1 - p_undrawable.1 - p_undrawable.2) p_scores) as (d & -> & sum).
  exists d. split; [done |]. rewrite sum by lra. rewrite tot. cbn. lra.
Qed.
End mass.

(** C3, as the code has it: for every sequence of per-map drawable
    flags that ends with an undrawable map (both supported formats do)
    and every pair of predictions in which the undrawable draw
    probability is 0, the series-score distribution is returned and its
    probabilities sum to exactly 1 in exact arithmetic. *)
Theorem series_scores_sum_to_one {Self : Type}
    (predict : string * string → option (Roster * Roster) → bool → Self
               → (R * R) * Self)
    (teams : string * string) (rosters : option (Roster * Roster))
    (drawables : list bool) (self : Self) :
  ((predict teams rosters false self).1).2 = 0%R →
  last drawables = Some false →
  ∃ d, (_predict_bo_match_score predict teams rosters drawables self).1 = Ok d
       ∧ total d = 1%R.
Proof.
  intros nodraw la. unfold _predict_bo_match_score.
  destruct (predict teams rosters false self) as [p_undrawable self1].
  destruct (predict teams rosters true self1) as [p_drawable self2].
  cbn [fst snd] in *. by apply bo_match_score_total.
Qed.

(** The regular format with a drawable prediction (1/4, 1/2) and an
    undrawable prediction (1/2, 0). *)
Lemma series_scores_sum_to_one_witness :
  ∃ d, (_predict_bo_match_score (constant_model (0.5, 0)%R (0.25, 0.5)%R)
          ("A", "B") None [true; false; true; false] tt).1 = Ok d
       ∧ total d = 1%R.
Proof.
  apply (series_scores_sum_to_one (constant_model (0.5, 0)%R (0.25, 0.5)%R)
           ("A", "B") None [true; false; true; false] tt); reflexivity.
Defined.

(** A series of one drawable map, then the tie-breaker: the mass of
    the tie is split with the loss probability of the drawable map. *)
Lemma series_one_drawable_map (wu du wd dd : R) :
  ∃ d, (_predict_bo_match_score (constant_model (wu, du) (wd, dd))
          ("A", "B") None [true] tt).1 = Ok d
       ∧ total d = (wd + (1 - wd - dd) + dd * (wu + (1 - wd - dd)))%R.
Proof.
  eexists. split; [vm_compute; reflexivity | vm_compute; lra].
Qed.

(** A series of one undrawable map: the draw probability is dropped. *)
Lemma series_one_undrawable_map (wu du wd dd : R) :
  ∃ d, (_predict_bo_match_score (constant_model (wu, du) (wd, dd))
          ("A", "B") None [false] tt).1 = Ok d
       ∧ total d = (wu + (1 - wu - du))%R.
Proof.
  eexists. split; [vm_compute; reflexivity | vm_compute; lra].
Qed.

(** C3 as stated fails, all probabilities being nonnegative with
    p_win + p_draw <= 1: (1) flags [drawable], undrawable prediction
    (1/2, 0), drawable prediction (1/4, 1/2): the tie-breaker reuses
    the loss probability of the drawable map and the table sums to 7/8;
    (2) flags [undrawable] with an undrawable prediction (1/4, 1/2):
    the table sums to 1/2; (3) no flag at all: the tie-breaker reads a
    [p_loss] that was never bound. *)
Lemma series_scores_lose_mass :
  (∃ d, (_predict_bo_match_score (constant_model (0.5, 0)%R (0.25, 0.5)%R)
           ("A", "B") None [true] tt).1 = Ok d
        ∧ total d = 0.875%R ∧ total d ≠ 1%R) ∧
  (∃ d, (_predict_bo_match_score (constant_model (0.25, 0.5)%R (0.25, 0.5)%R)
           ("A", "B") None [false] tt).1 = Ok d
        ∧ total d = 0.5%R ∧ total d ≠ 1%R) ∧
  (_predict_bo_match_score (constant_model (0.5, 0)%R (0.25, 0.5)%R)
     ("A", "B") None [] tt).1 = Raise UnboundLocalError.
Proof.
  split; [| split].
  - destruct (series_one_drawable_map 0.5 0 0.25 0.5) as (d & e & t).
    exists d. split; [exact e |]. rewrite t. split; lra.
  - destruct (series_one_undrawable_map 0.25 0.5 0.25 0.5) as (d & e & t).
    exists d. split; [exact e |]. rewrite t. split; lra.
  - reflexivity.
Qed.

(** ** Evaluation *)

Lemma clamp_bounds (p : R) : (0 <= clamp p <= 1)%R.
Proof.
  unfold clamp, Rmax, Rmin.
  destruct (Rle_dec p 1); destruct (Rle_dec 0 _); lra.
Qed.

Lemma clamp_inside (p : R) : (0 <= p <= 1)%R → clamp p = p.
Proof.
  intros b. unfold clamp, Rmax, Rmin.
  destruct (Rle_dec p 1); destruct (Rle_dec 0 _); lra.
Qed.

Section evaluation.
Context {Self : Type}.
Variable predict :
  string * string → option (Roster * Roster) → bool → Self → (R * R) * Self.
Local Open Scope R_scope.

(** C8, as the code has it: [evaluate] returns (0, false) for a game
    with equal scores, without consulting the model.  For a decisive
    game the predicted p_win and p_draw are each clamped to [0,1] and
    the loss probability is 1 - p_win - p_draw of the clamped values,
    not clamped itself: the scored probability p lies in [0,1] when
    team 1 won and in [-1,1] when team 2 won.  When p > 0 the result
    is (ln(2 p), correct); when p <= 0 the logarithm is undefined and
    [evaluate] raises [ValueError]. *)
Theorem evaluate_cases (game : Game) (self : Self) :
  ((Game.score game).1 = (Game.score game).2 →
     evaluate predict game self = (Ok (0, false), self)) ∧
  ((Game.score game).1 ≠ (Game.score game).2 →
     let out := predict (Game.teams game) (Some (Game.rosters game)) false self in
     let p_win := clamp out.1.1 in
     let p_draw := clamp out.1.2 in
     let p_loss := 1 - p_win - p_draw in
     let team1_won := bool_decide ((Game.score game).1 > (Game.score game).2)%Z in
     let p := if team1_won then p_win else p_loss in
     let correct :=
       if team1_won then bool_decide (p_win > p_loss)
       else bool_decide (p_win < p_loss) in
     0 <= p_win <= 1 ∧ 0 <= p_draw <= 1 ∧ -1 <= p <= 1 ∧
     (team1_won = true → 0 <= p) ∧
     (0 < p → evaluate predict game self = (Ok (ln (2 * p), correct), out.2)) ∧
     (p <= 0 → evaluate predict game self = (Raise ValueError, out.2))).
Proof.
  split.
  - intros e. unfold evaluate. by rewrite bool_decide_eq_true_2.
  - intros ne out p_win p_draw p_loss team1_won p correct.
    pose proof (clamp_bounds out.1.1) as bw.
    pose proof (clamp_bounds out.1.2) as bd.
    fold p_win in bw. fold p_draw in bd.
    assert (evaluate predict game self =
            match log (2 * p) with
            | Ok point => (Ok (point, correct), out.2)
            | Raise e => (Raise e, out.2)
            end) as run.
    { unfold evaluate. rewrite bool_decide_eq_false_2 by done.
      fold out. destruct out as [[w d] self1]. cbn [fst snd] in *.
      unfold scored_probability. fold p_win p_draw p_loss team1_won.
      subst p correct. by destruct team1_won. }
    repeat split; try lra.
    + subst p p_loss. destruct team1_won; lra.
    + subst p p_loss. destruct team1_won; lra.
    + intros won. subst p. rewrite won. lra.
    + intros pos. rewrite run. unfold log.
      by rewrite bool_decide_eq_true_2 by lra.
    + intros neg. rewrite run. unfold log.
      by rewrite bool_decide_eq_false_2 by lra.
Qed.
End evaluation.

(** A certain and a hopeless prediction for the game that team 1 won:
    points ln 2 and a domain error. *)
Lemma evaluate_cases_witness :
  let game := Game.mk ("A", "B") (1, 0) "stage1" 7 "regular" false ([], []) in
  evaluate (constant_model (1, 0)%R (1, 0)%R) game tt
    = (Ok (ln (2 * clamp 1), bool_decide (clamp 1 > 1 - clamp 1 - clamp 0)%R), tt) ∧
  evaluate (constant_model (0, 0)%R (0, 0)%R) game tt = (Raise ValueError, tt).
Proof.
  intros game. split.
  - destruct (evaluate_cases (constant_model (1, 0)%R (1, 0)%R) game tt)
      as (_ & decisive).
    destruct (decisive ltac:(discriminate)) as (_ & _ & _ & _ & pos & _).
    apply pos. cbn. rewrite bool_decide_eq_true_2 by done.
    rewrite clamp_inside; lra.
  - destruct (evaluate_cases (constant_model (0, 0)%R (0, 0)%R) game tt)
      as (_ & decisive).
    destruct (decisive ltac:(discriminate)) as (_ & _ & _ & _ & _ & neg).
    apply neg. cbn. rewrite bool_decide_eq_true_2 by done.
    rewrite clamp_inside; lra.
Defined.

(** C8 as stated fails.  (1) The model predicts (p_win, p_draw) =
    (0, 0) and team 1 wins: the scored probability is 0, the argument
    of the logarithm is not positive and [evaluate] raises.  (2) The
    model returns (1, 1) and team 2 wins: both values pass the clamp,
    the scored probability is 1 - 1 - 1 = -1, outside [0,1], and
    [evaluate] raises. *)
Lemma evaluate_log_domain :
  let game1 := Game.mk ("A", "B") (1, 0) "stage1" 7 "regular" false ([], []) in
  let game2 := Game.mk ("A", "B") (0, 1) "stage1" 7 "regular" false ([], []) in
  ((scored_probability game1 0 0).1 = 0%R ∧
   evaluate (constant_model (0, 0)%R (0, 0)%R) game1 tt = (Raise ValueError, tt)) ∧
  ((scored_probability game2 1 1).1 = (-1)%R ∧
   ¬ (0 <= (scored_probability game2 1 1).1 <= 1)%R ∧
   evaluate (constant_model (1, 1)%R (1, 1)%R) game2 tt = (Raise ValueError, tt)).
Proof.
  intros game1 game2.
  assert ((scored_probability game1 0 0).1 = 0%R) as p1.
  { unfold scored_probability. cbn [game1 Game.score fst snd].
    rewrite bool_decide_eq_true_2 by done. cbn [fst].
    rewrite clamp_inside; lra. }
  assert ((scored_probability game2 1 1).1 = (-1)%R) as p2.
  { unfold scored_probability. cbn [game2 Game.score fst snd].
    rewrite bool_decide_eq_false_2 by done. cbn [fst].
    rewrite clamp_inside; lra. }
  repeat split; try done.
  - unfold evaluate, constant_model. cbn [Game.score game1 fst snd].
    rewrite bool_decide_eq_false_2 by done.
    destruct (scored_probability game1 0 0) as [p correct]. cbn [fst] in p1.
    subst p. unfold log. by rewrite bool_decide_eq_false_2 by lra.
  - rewrite p2. lra.
  - unfold evaluate, constant_model. cbn [Game.score game2 fst snd].
    rewrite bool_decide_eq_false_2 by done.
    destruct (scored_probability game2 1 1) as [p correct]. cbn [fst] in p2.
    subst p. unfold log. by rewrite bool_decide_eq_false_2 by lra.
Qed.

(** ** Stage prediction *)

Section odict_facts.
Context {K V : Type} `{EqDecision K}.
Implicit Types (d : odict K V) (k : K) (v : V).

Lemma od_get_set k k' v d :
  od_get k (od_set k' v d) = if decide (k' = k) then Some v else od_get k d.
Proof.
  induction d as [|[k0 v0] d IH]; cbn.
  - by destruct (decide (k' = k)).
  - destruct (decide (k0 = k')) as [-> |]; cbn;
      destruct (decide (k' = k)) as [-> |]; try done;
      destruct (decide (k0 = k)); try done; try congruence.
    all: rewrite IH; by rewrite ?decide_True, ?decide_False by done.
Qed.

Lemma od_get_Some k v d : od_get k d = Some v → (k, v) ∈ d.
Proof.
  induction d as [|[k0 v0] d IH]; cbn; [done |].
  destruct (decide (k0 = k)) as [-> |].
  - intros [= ->]. apply list_elem_of_here.
  - intros e. apply list_elem_of_further. by apply IH.
Qed.
End odict_facts.

Section champion.
Variable _predict_stage : list Game → Predictor → odict string (R * R).
Variables (self : Predictor) (min_wins max_wins : odict string (Z * Z))
          (min_3rd_wins max_4th_wins : Z * Z).

(** What the last loop does to a sampled entry. *)
Lemma normalize_sampled team a b top3 top1 :
  normalize self min_wins max_wins min_3rd_wins max_4th_wins team
    (Freq a) (Freq b) = Ok (top3, top1) →
  (top1 = Definite true →
     stage_finished self = true ∧ top3 = Definite true ∧
     (getd (stage_title_losses self) team ≤ 0)%Z ∧
     ∃ min_team, od_get team min_wins = Some min_team ∧
                 pair_lt max_4th_wins min_team = true) ∧
  (∀ min_team, od_get team min_wins = Some min_team →
     pair_lt max_4th_wins min_team = true →
     getd (stage_title_losses self) team > 0 → top1 = Definite false).
Proof.
  unfold normalize, od_item.
  destruct (od_get team max_wins) as [max_team|]; cbn; [| done].
  destruct (pair_lt max_team min_3rd_wins).
  { intros [= <- <-]. split; [done | by intros]. }
  destruct (od_get team min_wins) as [min_team|]; cbn; [| done].
  destruct (pair_lt max_4th_wins min_team) eqn:clinched.
  - case_bool_decide as lost.
    + intros [= <- <-]. split; [done | by intros].
    + destruct (stage_finished self).
      * intros [= <- <-]. split; [| intros; lia].
        intros _. repeat split; [lia |]. by exists min_team.
      * intros [= <- <-]. split; [done | intros; lia].
  - intros [= <- <-]. split; [done |]. intros ? [= <-]. congruence.
Qed.

(** Every entry of the loop's result was left alone (its team not
    being listed) or is the normalized form of a listed entry. *)
Lemma normalize_loop items : ∀ prediction out,
  for_each (λ prediction '(team, (p_top3, p_top1)),
              entry ← normalize self min_wins max_wins min_3rd_wins
                         max_4th_wins team p_top3 p_top1;
              Ok (od_set team entry prediction))
           items prediction = Ok out →
  ∀ team entry, od_get team out = Some entry →
    (od_get team prediction = Some entry ∧ team ∉ od_keys items) ∨
    ∃ p_top3 p_top1,
      (team, (p_top3, p_top1)) ∈ items ∧
      normalize self min_wins max_wins min_3rd_wins max_4th_wins team
        p_top3 p_top1 = Ok entry.
Proof.
  induction items as [|[t [p3 p1]] rest IH]; intros prediction out; cbn.
  - intros [= <-] team entry e. left. split; [done |]. apply not_elem_of_nil.
  - destruct (normalize self min_wins max_wins min_3rd_wins max_4th_wins
                t p3 p1) as [e0|] eqn:n; cbn; [| done].
    intros run team entry e.
    destruct (IH _ _ run team entry e) as [[e' out'] | (q3 & q1 & i & n')].
    + rewrite od_get_set in e'. destruct (decide (t = team)) as [-> |].
      * injection e' as <-. right. exists p3, p1.
        split; [apply list_elem_of_here | done].
      * left. split; [done |]. by intros [? | ?]%elem_of_cons.
    + right. exists q3, q1. split; [by apply list_elem_of_further | done].
Qed.
End champion.

(** C10: the title matches of a stage count as complete exactly when
    the recorded stage title-loss counters sum to 2; and in the result
    of [predict_stage] a team is a definite champion (top-1 [True])
    only if the title matches are complete, the team is clinched into
    the top 3 (its worst case exceeds the 4th-largest best case, top-3
    [True]) and it has no recorded stage title loss; a clinched team
    with a recorded stage title loss is definitely not champion (top-1
    [False]). *)
Theorem predict_stage_champion
    (_predict_stage : list Game → Predictor → odict string (R * R))
    (games : list Game) (self : Predictor)
    (out : odict string (pvalue * pvalue)) :
  predict_stage _predict_stage games self = Ok out →
  (stage_finished self = true ↔ sum_values (stage_title_losses self) = 2) ∧
  ∃ min_wins max_wins min_3rd_wins max_4th_wins,
    stage_bounds (stage_games games self)
      (od_keys (sampled (_predict_stage (stage_games games self) self))) self
      = Ok (min_wins, max_wins, min_3rd_wins, max_4th_wins) ∧
    ∀ team top3 top1, od_get team out = Some (top3, top1) →
      (top1 = Definite true →
         stage_finished self = true ∧ top3 = Definite true ∧
         (getd (stage_title_losses self) team ≤ 0)%Z ∧
         ∃ min_team, od_get team min_wins = Some min_team ∧
                     pair_lt max_4th_wins min_team = true) ∧
      (∀ min_team, od_get team min_wins = Some min_team →
         pair_lt max_4th_wins min_team = true →
         getd (stage_title_losses self) team > 0 → top1 = Definite false).
Proof.
  intros run. split; [apply bool_decide_eq_true |].
  unfold predict_stage in run.
  destruct (stage_bounds _ _ self)
    as [[[[min_wins max_wins] min_3rd_wins] max_4th_wins]|]; cbn in run; [| done].
  exists min_wins, max_wins, min_3rd_wins, max_4th_wins. split; [done |].
  intros team top3 top1 e.
  destruct (normalize_loop self min_wins max_wins min_3rd_wins max_4th_wins
              _ _ _ run team _ e) as [[e' out'] | (p3 & p1 & i & n)].
  - destruct out'. apply od_get_Some in e'.
    apply (list_elem_of_fmap_2 fst) in e'. exact e'.
  - unfold sampled in i. apply list_elem_of_fmap in i as ([t [a b]] & [= -> -> ->] & _).
    by apply (normalize_sampled self min_wins max_wins min_3rd_wins max_4th_wins
                t a b).
Qed.

(** Four teams, no game left, title losses recorded for B and C: A is
    the definite champion, B is clinched but cannot be champion. *)
Lemma predict_stage_champion_witness :
  let self :=
    set_stage_title_losses (λ _, <["C" := 1]> (<["B" := 1]> ∅))
      (set_stage_wins (λ _, <["C" := 6]> (<["B" := 8]> (<["A" := 10]> ∅)))
         (set_stage (Some "stage1") (Some "stage1") (fresh ∅))) in
  let sampling (games : list Game) (self : Predictor) : odict string (R * R) :=
    [("A", (1, 0.5)%R); ("B", (1, 0.25)%R); ("C", (1, 0.25)%R); ("D", (0, 0)%R)] in
  ∃ out,
    predict_stage sampling [] self = Ok out ∧
    od_get "A" out = Some (Definite true, Definite true) ∧
    od_get "B" out = Some (Definite true, Definite false) ∧
    od_get "D" out = Some (Definite false, Definite false) ∧
    stage_finished self = true.
Proof.
  intros self sampling.
  assert (∃ out, predict_stage sampling [] self = Ok out ∧
                 od_get "A" out = Some (Definite true, Definite true) ∧
                 od_get "B" out = Some (Definite true, Definite false) ∧
                 od_get "D" out = Some (Definite false, Definite false))
    as (out & run & eA & eB & eD).
  { eexists. split; [vm_compute; reflexivity |]. by vm_compute. }
  exists out. repeat (split; [assumption |]).
  destruct (predict_stage_champion sampling [] self out run)
    as (_ & min_wins & max_wins & min_3rd_wins & max_4th_wins & _ & entries).
  by destruct (entries "A" _ _ eA) as ((finished & _) & _).
Defined.

(** ** Sorting *)

Section sorting_facts.
Context {A : Type} (goes_after : A → A → bool).

Lemma insert_by_perm x l : insert_by goes_after x l ≡ₚ x :: l.
Proof.
  induction l as [|y l IH]; cbn; [done |].
  destruct (goes_after x y); [| done].
  rewrite IH. apply Permutation_swap.
Qed.

Lemma sorted_by_perm l : sorted_by goes_after l ≡ₚ l.
Proof.
  induction l as [|x l IH]; cbn; [done |].
  by rewrite insert_by_perm, IH.
Qed.

(** An order [before] that holds whenever an element may not go
    after another, and is transitive, is kept by the insertion. *)
Variable before : A → A → Prop.
Hypothesis before_trans : ∀ x y z, before x y → before y z → before x z.
Hypothesis here : ∀ x y, goes_after x y = false → before x y.
Hypothesis there : ∀ x y, goes_after x y = true → before y x.

Lemma insert_by_sorted x l :
  StronglySorted before l → StronglySorted before (insert_by goes_after x l).
Proof.
  induction 1 as [|y l sorted IH first]; cbn.
  - repeat constructor.
  - destruct (goes_after x y) eqn:cmp.
    + constructor; [done |].
      rewrite insert_by_perm. constructor; [by apply there | done].
    + constructor; [by constructor |].
      constructor; [by apply here |].
      eapply Forall_impl; [exact first |].
      intros z yz. eapply before_trans; [by apply here | done].
Qed.

Lemma sorted_by_sorted l : StronglySorted before (sorted_by goes_after l).
Proof.
  induction l as [|x l IH]; cbn; [constructor | by apply insert_by_sorted].
Qed.
End sorting_facts.

(** [sorted(..., reverse=True)] is a descending rearrangement. *)
Lemma sorted_reverse_spec {A : Type} (key : A → R) (l : list A) :
  PlayerTrueSkillPredictor.sorted_reverse key l ≡ₚ l ∧
  StronglySorted (λ a b, (key b <= key a)%R)
    (PlayerTrueSkillPredictor.sorted_reverse key l).
Proof.
  split; [apply sorted_by_perm |].
  apply sorted_by_sorted.
  - intros x y z xy yz. lra.
  - intros x y cmp. apply bool_decide_eq_false in cmp. lra.
  - intros x y cmp. apply bool_decide_eq_true in cmp. lra.
Qed.

Lemma sorted_reverse_two {A : Type} (key : A → R) (x y : A) :
  PlayerTrueSkillPredictor.sorted_reverse key [x; y]
  = if bool_decide (key x < key y)%R then [y; x] else [x; y].
Proof. reflexivity. Qed.

(** [List.find] returns the first element that passes the test. *)
Lemma find_first {A : Type} (test : A → bool) (l : list A) :
  match List.find test l with
  | Some x =>
      ∃ skipped rest, l = (skipped ++ x :: rest)%list ∧
                      Forall (λ y, test y = false) skipped ∧ test x = true
  | None => Forall (λ y, test y = false) l
  end.
Proof.
  induction l as [|y l IH]; cbn; [constructor |].
  destruct (test y) eqn:t.
  - exists [], l. by repeat split.
  - destruct (List.find test l) as [x|].
    + destruct IH as (skipped & rest & -> & no & yes).
      exists (y :: skipped), rest. repeat split; [| done]. by constructor.
    + by constructor.
Qed.

(** ** Best roster *)

Section sort_keys.
Import PlayerTrueSkillPredictor.
Context {A : Type}.
Local Open Scope R_scope.

(** What the computation of the keys returns. *)
Lemma keyed_spec (key : A → result R) (l : list A) :
  match keyed key l with
  | Ok pairs => map snd pairs = l ∧ Forall (λ p, key p.2 = Ok p.1) pairs
  | Raise e => Exists (λ x, key x = Raise e) l
  end.
Proof.
  induction l as [|x l IH]; cbn [keyed]; [by split |].
  destruct (key x) as [k|e] eqn:kx; cbn; [| by apply Exists_cons_hd].
  destruct (keyed key l) as [pairs|e]; cbn; [| by apply Exists_cons_tl].
  destruct IH as [<- all]. split; [done |]. by constructor.
Qed.

Lemma keyed_values (key : A → result R) (f : A → R) (l : list A) :
  Forall (λ x, key x = Ok (f x)) l →
  keyed key l = Ok (map (λ x, (f x, x)) l).
Proof.
  induction 1 as [|x l e _ IH]; cbn [keyed map]; [done |].
  rewrite e. cbn. by rewrite IH.
Qed.

Lemma keyed_raises (key : A → result R) (l : list A) (e : exn) :
  (∀ x e', key x = Raise e' → e' = e) →
  Exists (λ x, ∃ e', key x = Raise e') l →
  keyed key l = Raise e.
Proof.
  intros only. induction 1 as [x l [e' kx] | x l _ IH]; cbn [keyed].
  - rewrite kx. cbn. by rewrite (only x e' kx).
  - destruct (key x) as [k|e'] eqn:kx; cbn; [by rewrite IH |].
    by rewrite (only x e' kx).
Qed.

Lemma insert_keyed (f : A → R) (x : A) (pairs : list (R * A)) :
  Forall (λ p, p.1 = f p.2) pairs →
  map snd (insert_by (λ x y : R * A, bool_decide (x.1 < y.1)) (f x, x) pairs)
  = insert_by (λ x y, bool_decide (f x < f y)) x (map snd pairs).
Proof.
  induction 1 as [|[k y] pairs e _ IH]; cbn; [done |].
  cbn in e. subst k. case_bool_decide; cbn; [by rewrite IH | done].
Qed.

(** A sort by keys that all return is the sort by their values. *)
Lemma sorted_keyed (f : A → R) (l : list A) :
  map snd (sorted_by (λ x y : R * A, bool_decide (x.1 < y.1))
             (map (λ x, (f x, x)) l))
  = sorted_reverse f l.
Proof.
  unfold sorted_reverse, sorted_by.
  induction l as [|x l IH]; cbn [map foldr]; [done |].
  rewrite <- IH. apply insert_keyed.
  change (foldr (insert_by ?c) [] ?l) with (sorted_by c l).
  rewrite sorted_by_perm.
  apply Forall_forall. by intros p (x' & -> & _)%list_elem_of_fmap.
Qed.

Lemma sorted_reverse_by_values (key : A → result R) (f : A → R) (l : list A) :
  Forall (λ x, key x = Ok (f x)) l →
  sorted_reverse_by key l
  = Ok (sorted_reverse f l).
Proof.
  intros all. unfold sorted_reverse_by.
  rewrite (keyed_values key f l all). cbn. by rewrite sorted_keyed.
Qed.

Lemma sorted_reverse_by_raises (key : A → result R) (l : list A) (e : exn) :
  (∀ x e', key x = Raise e' → e' = e) →
  Exists (λ x, ∃ e', key x = Raise e') l →
  sorted_reverse_by key l = Raise e.
Proof.
  intros only some. unfold sorted_reverse_by.
  by rewrite (keyed_raises key l e only some).
Qed.

(** A sort that returns rearranges the list; a sort that raises
    raises the exception of a key. *)
Lemma sorted_reverse_by_spec (key : A → result R) (l : list A) :
  match sorted_reverse_by key l with
  | Ok sorted => sorted ≡ₚ l ∧ Forall (λ x, ∃ k, key x = Ok k) l
  | Raise e => Exists (λ x, key x = Raise e) l
  end.
Proof.
  unfold sorted_reverse_by.
  pose proof (keyed_spec key l) as keys.
  destruct (keyed key l) as [pairs|e]; cbn; [| done].
  destruct keys as [<- all]. split; [by rewrite sorted_by_perm |].
  apply Forall_forall. intros x i.
  apply (list_elem_of_fmap snd) in i as ([k x'] & -> & i).
  rewrite Forall_forall in all. exists k. exact (all _ i).
Qed.
End sort_keys.

Section best_roster.
Import PlayerTrueSkillPredictor.
Local Open Scope R_scope.

Lemma all_in_spec members roster :
  all_in members roster = true ↔ Forall (λ name, name ∈ members) roster.
Proof.
  unfold all_in. rewrite forallb_forall, List.Forall_forall.
  split; intros all name i.
  - by eapply bool_decide_eq_true_1, all.
  - by apply bool_decide_eq_true_2, all.
Qed.

Lemma all_in_false members roster :
  all_in members roster = false ↔ ¬ Forall (λ name, name ∈ members) roster.
Proof. rewrite <- all_in_spec. by destruct (all_in members roster). Qed.

Lemma sum_from (l : list R) (a : R) : fold_left Rplus l a = a + sum l.
Proof.
  unfold sum. revert a. induction l as [|x l IH]; intros a; cbn [fold_left].
  - lra.
  - rewrite (IH (a + x)), (IH (0 + x)). lra.
Qed.

Lemma sum_cons (x : R) (l : list R) : sum (x :: l) = x + sum l.
Proof. unfold sum at 1. cbn [fold_left]. rewrite sum_from. lra. Qed.

(** A sum of squares is 0 only when every term is. *)
Lemma sum_squares_zero (l : list R) :
  0 <= sum (map (λ x, x ^ 2) l) ∧
  (sum (map (λ x, x ^ 2) l) = 0 ↔ Forall (λ x, x = 0) l).
Proof.
  induction l as [|x l [pos zero]]; cbn [map].
  - split; [cbn; lra |]. split; [constructor | reflexivity].
  - rewrite sum_cons. pose proof (pow2_ge_0 x) as square.
    split; [lra |]. rewrite Forall_cons, <- zero. split.
    + intros e. split; [| lra].
      destruct (Req_dec x 0) as [| ne]; [done |].
      apply (pow_nonzero x 2) in ne. lra.
    + intros [-> e]. rewrite e. lra.
Qed.

(** The uncertainty of the summary is 0 exactly for a roster without
    an uncertain member. *)
Lemma summary_sigma_zero self roster :
  Rating.sigma (summary self roster) = 0 ↔ zero_sigma self roster.
Proof.
  unfold summary, zero_sigma. cbn [Rating.sigma].
  set (sigmas := map (λ name, Rating.sigma (rating_of self name)) roster).
  assert (map (λ name, Rating.sigma (rating_of self name) ^ 2) roster
          = map (λ x, x ^ 2) sigmas) as ->
    by (subst sigmas; by rewrite map_map).
  destruct (sum_squares_zero sigmas) as [pos zero].
  assert (Forall (λ x, x = 0) sigmas
          ↔ Forall (λ name, Rating.sigma (rating_of self name) = 0) roster)
    as <-.
  { subst sigmas. rewrite !Forall_forall. split.
    - intros all name i. apply all.
      apply (list_elem_of_fmap_2 (λ name, Rating.sigma (rating_of self name)))
        in i. exact i.
    - intros all x i.
      apply (list_elem_of_fmap
               (λ name, Rating.sigma (rating_of self name))) in i
        as (name & -> & i).
      by apply all. }
  rewrite <- zero. split.
  - intros e. apply sqrt_eq_0; [done | lra].
  - intros ->. rewrite sqrt_0. lra.
Qed.

(** [_roster_rating] builds the summary, or raises when the summary
    has no uncertainty. *)
Lemma roster_rating_cases self roster :
  (zero_sigma self roster → _roster_rating self roster = Raise ValueError) ∧
  (¬ zero_sigma self roster →
   _roster_rating self roster = Ok (summary self roster)).
Proof.
  rewrite <- summary_sigma_zero. unfold _roster_rating, new_Rating, summary.
  cbn [Rating.sigma]. split; intros e.
  - by rewrite bool_decide_eq_true_2.
  - by rewrite bool_decide_eq_false_2.
Qed.

Lemma roster_rating_returns self roster rating :
  _roster_rating self roster = Ok rating →
  rating = summary self roster ∧ ¬ zero_sigma self roster.
Proof.
  destruct (roster_rating_cases self roster) as [raises returns].
  destruct (decide (zero_sigma self roster)) as [zero | some].
  - by rewrite (raises zero).
  - rewrite (returns some). by intros [= <-].
Qed.

Lemma roster_rating_raises self roster e :
  _roster_rating self roster = Raise e →
  e = ValueError ∧ zero_sigma self roster.
Proof.
  destruct (roster_rating_cases self roster) as [raises returns].
  destruct (decide (zero_sigma self roster)) as [zero | some].
  - rewrite (raises zero). by intros [= <-].
  - by rewrite (returns some).
Qed.

(** The sort key of the queued rosters. *)
Lemma min_roster_rating_cases self roster :
  (zero_sigma self roster → _min_roster_rating self roster = Raise ValueError) ∧
  (¬ zero_sigma self roster →
   _min_roster_rating self roster
   = Ok (Rating.mu (summary self roster)
         - 3 * Rating.sigma (summary self roster))).
Proof.
  destruct (roster_rating_cases self roster) as [raises returns].
  unfold _min_roster_rating. split; intros e.
  - by rewrite (raises e).
  - by rewrite (returns e).
Qed.

Lemma min_roster_rating_raises self roster e :
  _min_roster_rating self roster = Raise e →
  e = ValueError ∧ zero_sigma self roster.
Proof.
  unfold _min_roster_rating.
  destruct (_roster_rating self roster) as [rating|e'] eqn:run; cbn; [done |].
  intros [= <-]. by apply roster_rating_raises.
Qed.

(** The selection neither reads nor writes the ratings history. *)
Lemma update_best_roster_history f team members self :
  _update_best_roster team members (set_ratings_history f self)
  = ((_update_best_roster team members self).1,
     set_ratings_history f (_update_best_roster team members self).2).
Proof.
  unfold _update_best_roster.
  change (base (set_ratings_history f self)) with (base self).
  change (_min_roster_rating (set_ratings_history f self))
    with (_min_roster_rating self).
  by destruct (sorted_reverse_by _ _).
Qed.

(** A selection that raises: the sort key of a queued roster raised,
    and nothing was stored. *)
Lemma update_best_roster_raises team members self e self' :
  _update_best_roster team members self = (Raise e, self') →
  e = ValueError ∧ self' = self ∧
  Exists (zero_sigma self) (default [] (roster_queues (base self) !! team)).
Proof.
  unfold _update_best_roster.
  pose proof (sorted_reverse_by_spec (_min_roster_rating self)
                (default [] (roster_queues (base self) !! team))) as sorted.
  destruct (sorted_reverse_by _ _) as [rosters|e']; [done |].
  intros [= <- <-].
  assert (e' = ValueError) as ->.
  { apply Exists_exists in sorted as (roster & _ & raised).
    by apply min_roster_rating_raises in raised as [-> _]. }
  repeat split. eapply Exists_impl; [exact sorted |].
  intros roster raised. by apply min_roster_rating_raises in raised as [_ zero].
Qed.

(** What the selection does when the sort returns [rosters]. *)
Lemma update_best_roster_sorted team members self rosters :
  sorted_reverse_by (_min_roster_rating self)
    (default [] (roster_queues (base self) !! team)) = Ok rosters →
  ∃ best,
    _update_best_roster team members self
      = (Ok best, set_best_rosters <[team := best]> self) ∧
    ((∃ skipped rest,
        rosters = (skipped ++ best :: rest)%list ∧
        Forall (λ roster, ¬ Forall (λ name, name ∈ members) roster) skipped ∧
        Forall (λ name, name ∈ members) best) ∨
     (Forall (λ roster, ¬ Forall (λ name, name ∈ members) roster) rosters ∧
      best = take 6 (sorted_reverse (_min_rating self) members))).
Proof.
  intros sorted. unfold _update_best_roster. rewrite sorted.
  pose proof (find_first (all_in members) rosters) as first.
  destruct (List.find _ _) as [roster|]; eexists; (split; [reflexivity |]).
  - left. destruct first as (skipped & rest & e & no & yes).
    exists skipped, rest. split; [done |]. split.
    + eapply Forall_impl; [exact no |]. intros r. apply all_in_false.
    + by apply all_in_spec.
  - right. split; [| done].
    eapply Forall_impl; [exact first |]. intros r. apply all_in_false.
Qed.

(** C6, as the code has it: best-roster selection orders the queued
    rosters of a team descending by the score
    (sum of the members' means) / 6 - 3 * sqrt(sum of the members'
    squared uncertainties) / 6, the lower confidence bound of the
    roster's summary rating; it returns the first roster in that order
    all of whose members are eligible; and if no queued roster
    qualifies it returns the first 6 of the eligible players ranked
    descending by their individual mean - 3 * uncertainty.  The
    result is stored as the team's best roster.  The score of a roster
    without an uncertain member (the empty roster, for one) cannot be
    computed: the constructor of its summary rating raises ValueError,
    and a queue that holds such a roster makes the selection raise
    ValueError with nothing stored.  The predictor is one whose
    environment can create the prior rating (sigma other than 0), so
    that every rating can be read. *)
Theorem update_best_roster_selects
    (self : t) (team : string) (members : list string)
    (prior : creates_prior self) :
  let queue := default [] (roster_queues (base self) !! team) in
  let score (roster : Roster) :=
    sum (map (λ name, Rating.mu (rating_of self name)) roster) / 6
    - 3 * (sqrt (sum (map (λ name, Rating.sigma (rating_of self name) ^ 2)
                          roster)) / 6) in
  let individual (name : string) :=
    Rating.mu (rating_of self name) - 3 * Rating.sigma (rating_of self name) in
  let eligible (roster : Roster) := Forall (λ name, name ∈ members) roster in
  (∀ roster, ¬ zero_sigma self roster →
     _min_roster_rating self roster = Ok (score roster)) ∧
  (∀ roster, zero_sigma self roster →
     _min_roster_rating self roster = Raise ValueError) ∧
  (Exists (zero_sigma self) queue →
     _update_best_roster team members self = (Raise ValueError, self)) ∧
  (Forall (λ roster, ¬ zero_sigma self roster) queue →
     ∃ best rosters,
       _update_best_roster team members self
         = (Ok best, set_best_rosters <[team := best]> self) ∧
       rosters ≡ₚ queue ∧
       StronglySorted (λ a b, score b <= score a) rosters ∧
       ((∃ skipped rest,
           rosters = (skipped ++ best :: rest)%list ∧
           Forall (λ roster, ¬ eligible roster) skipped ∧ eligible best) ∨
        (Forall (λ roster, ¬ eligible roster) queue ∧
         ∃ ranked,
           ranked ≡ₚ members ∧
           StronglySorted (λ a b, individual b <= individual a) ranked ∧
           best = take 6 ranked))).
Proof.
  intros queue score individual eligible.
  split; [intros roster; apply min_roster_rating_cases |].
  split; [intros roster; apply min_roster_rating_cases |].
  split.
  - intros zero. unfold _update_best_roster. fold queue.
    rewrite (sorted_reverse_by_raises (_min_roster_rating self) queue
               ValueError); [done | |].
    + intros roster e raised.
      by apply min_roster_rating_raises in raised as [-> _].
    + eapply Exists_impl; [exact zero |]. intros roster z.
      exists ValueError. by apply min_roster_rating_cases.
  - intros some.
    assert (sorted_reverse_by (_min_roster_rating self) queue
            = Ok (sorted_reverse score queue)) as sorted.
    { apply sorted_reverse_by_values. eapply Forall_impl; [exact some |].
      intros roster s. by apply min_roster_rating_cases. }
    destruct (update_best_roster_sorted team members self _ sorted)
      as (best & run & chosen).
    destruct (sorted_reverse_spec score queue) as [perm ordered].
    exists best, (sorted_reverse score queue).
    split; [done |]. split; [done |]. split; [done |].
    destruct chosen as [first | [none ->]]; [by left | right].
    split; [by rewrite <- perm |].
    destruct (sorted_reverse_spec (_min_rating self) members) as [perm' ordered'].
    by exists (sorted_reverse (_min_rating self) members).
Qed.
End best_roster.

(** ** Team rating *)

Section team_rating.
Import PlayerTrueSkillPredictor.
Local Open Scope R_scope.

(** The summary and its uncertainty, from the list of the members'
    ratings. *)
Lemma summary_of_ratings self roster :
  let rs := map (rating_of self) roster in
  summary self roster
  = Rating.mk (sum (map Rating.mu rs) / 6)
              (sqrt (sum (map (λ r, Rating.sigma r ^ 2) rs)) / 6).
Proof. cbn zeta. unfold summary. by rewrite !map_map. Qed.

Lemma zero_sigma_of_ratings self roster :
  zero_sigma self roster
  ↔ Forall (λ r, Rating.sigma r = 0) (map (rating_of self) roster).
Proof.
  unfold zero_sigma. rewrite !Forall_forall. split.
  - intros all r i.
    apply (list_elem_of_fmap (rating_of self)) in i as (name & -> & i).
    by apply all.
  - intros all name i. apply all.
    apply (list_elem_of_fmap_2 (rating_of self)) in i. exact i.
Qed.

(** The loop that stores the new player ratings. *)
Lemma store_pairs_lookup (pairs : list (string * Rating))
    (jar : gmap string Rating) (name : string) :
  (name ∉ pairs.*1 →
   foldl (λ jar '(name, rating), <[name := rating]> jar) jar pairs !! name
   = jar !! name) ∧
  (NoDup pairs.*1 → ∀ rating, (name, rating) ∈ pairs →
   foldl (λ jar '(name, rating), <[name := rating]> jar) jar pairs !! name
   = Some rating).
Proof.
  revert jar. induction pairs as [|[first r] pairs IH]; intros jar;
    cbn [foldl fmap list_fmap fst].
  - split; [done |]. intros _ rating i. by apply elem_of_nil in i.
  - destruct (IH (<[first := r]> jar)) as [out inside]. split.
    + intros ni. apply not_elem_of_cons in ni as [ne ni].
      rewrite out by done. by rewrite lookup_insert_ne.
    + intros [fresh nodup]%NoDup_cons rating [[= -> ->] | i]%elem_of_cons.
      * rewrite out by done. apply lookup_insert_eq.
      * by apply inside.
Qed.

Lemma zip_names (roster : Roster) (new_ratings : list Rating) :
  (zip roster new_ratings).*1 = take (length new_ratings) roster.
Proof.
  revert new_ratings. induction roster as [|name roster IH];
    intros [|rating new_ratings]; cbn; try done.
  by rewrite <- IH.
Qed.

(** The state the selection leaves. *)
Lemma update_best_roster_state team members self :
  match _update_best_roster team members self with
  | (Ok best, self') => self' = set_best_rosters <[team := best]> self
  | (Raise e, self') => self' = self
  end.
Proof. unfold _update_best_roster. by destruct (sorted_reverse_by _ _). Qed.

(** A team without a queued roster and with one eligible player. *)
Lemma update_best_roster_no_queue team name self :
  roster_queues (base self) !! team = None →
  _update_best_roster team [name] self
  = (Ok [name], set_best_rosters <[team := [name]]> self).
Proof. intros none. unfold _update_best_roster. by rewrite none. Qed.

(** What a call of [_record_team_ratings] that returns has done. *)
Lemma record_team_ratings_returns self team rating self' :
  _record_team_ratings team self = (Ok rating, self') →
  ∃ stg best snapshot,
    stage (base self) = Some stg ∧
    rating = summary self best ∧ ¬ zero_sigma self best ∧
    base self' = base self ∧ ratings self' = ratings self ∧
    best_rosters self' = <[team := best]> (best_rosters self) ∧
    od_get (stg, match_number team self) (ratings_history self') = Some snapshot ∧
    snapshot !! team = Some rating.
Proof.
  unfold _record_team_ratings.
  destruct (stage (base self)) as [stg|] eqn:es; [| done].
  destruct (availabilities _ !! _) as [per_team|]; [| done].
  destruct (per_team !! team) as [members|]; [| done].
  rewrite update_best_roster_history.
  pose proof (update_best_roster_state team members self) as state.
  destruct (_update_best_roster team members self) as [[best|e] self1];
    cbn [fst snd]; [| done].
  subst self1.
  change (_roster_rating (set_ratings_history ?f (set_best_rosters ?g self)) best)
    with (_roster_rating self best).
  destruct (_roster_rating self best) as [rating'|e] eqn:rate; [| done].
  intros [= <- <-].
  destruct (roster_rating_returns self best rating' rate) as [-> some].
  eexists stg, best, _. split; [done |]. split; [done |]. split; [done |].
  cbn. split; [done |]. split; [done |]. split; [done |].
  split; [rewrite od_get_set; by rewrite decide_True | apply lookup_insert_eq].
Qed.

(** What a run of the loop body of [_update_teams_ratings] that
    returns has done for its team. *)
Lemma update_team_ratings_returns self team roster new_ratings self' :
  update_team_ratings team roster new_ratings self = (Ok tt, self') →
  let self1 := store_player_ratings roster new_ratings self in
  ∃ stg best snapshot,
    stage (base self) = Some stg ∧
    ¬ zero_sigma self1 best ∧
    base self' = base self ∧
    ratings self' = <[team := summary self1 best]> (ratings self1) ∧
    best_rosters self' = <[team := best]> (best_rosters self) ∧
    od_get (stg, match_number team self) (ratings_history self') = Some snapshot ∧
    snapshot !! team = Some (summary self1 best).
Proof.
  intros run self1. unfold update_team_ratings in run. fold self1 in run.
  destruct (_record_team_ratings team self1) as [[rating|e] self2] eqn:rec;
    [| done].
  injection run as <-.
  destruct (record_team_ratings_returns _ _ _ _ rec)
    as (stg & best & snapshot & es & -> & some & eb & er & ebr & eh & et).
  exists stg, best, snapshot. cbn. rewrite er.
  repeat (split; [done |]). done.
Qed.

(** The loop body returns when the availabilities list the team, the
    selection returns and the selected roster has an uncertain
    member. *)
Lemma update_team_ratings_ok self team roster new_ratings stg per_team
    members best :
  stage (base self) = Some stg →
  availabilities (base self) !! (stg, match_number team self) = Some per_team →
  per_team !! team = Some members →
  let self1 := store_player_ratings roster new_ratings self in
  _update_best_roster team members self1
    = (Ok best, set_best_rosters <[team := best]> self1) →
  ¬ zero_sigma self1 best →
  ∃ self',
    update_team_ratings team roster new_ratings self = (Ok tt, self') ∧
    base self' = base self ∧
    ratings self' = <[team := summary self1 best]> (ratings self1) ∧
    best_rosters self' = <[team := best]> (best_rosters self).
Proof.
  intros es ea em self1 sel some.
  unfold update_team_ratings, _record_team_ratings. fold self1.
  change (base self1) with (base self).
  change (match_number team self1) with (match_number team self).
  rewrite es, ea, em, update_best_roster_history, sel. cbn [fst snd].
  change (_roster_rating (set_ratings_history ?f (set_best_rosters ?g self1)) best)
    with (_roster_rating self1 best).
  destruct (roster_rating_cases self1 best) as [_ returns].
  rewrite (returns some). by eexists.
Qed.
End team_rating.

Section team_rating_formula.
Import PlayerTrueSkillPredictor.
Local Open Scope R_scope.

Variable rate :
  TrueSkill.t → list (list Rating) → list Z → result (list (list Rating)).

Lemma sqrt_6_square : sqrt 6 * sqrt 6 = 6.
Proof. apply sqrt_sqrt. lra. Qed.

Lemma sqrt_6_pos : 0 < sqrt 6.
Proof. apply sqrt_lt_R0. lra. Qed.

(** The summary of a roster of 6. *)
Lemma summary_of_six self roster :
  length roster = 6%nat →
  Rating.mu (summary self roster)
  = sum (map (λ name, Rating.mu (rating_of self name)) roster)
    / INR (length roster) ∧
  Rating.sigma (summary self roster) * sqrt 6 = Spec.quadratic_mean self roster.
Proof.
  intros six. unfold Spec.quadratic_mean, summary. rewrite six.
  cbn [Rating.mu Rating.sigma].
  replace (INR 6) with 6 by (simpl; lra). split; [done |].
  rewrite sqrt_div_alt by lra.
  pose proof sqrt_6_pos.
  set (root := sqrt (sum _)).
  replace (root / sqrt 6) with (root * sqrt 6 / (sqrt 6 * sqrt 6))
    by (field; lra).
  rewrite sqrt_6_square. field.
Qed.

Lemma train_unfold (game : Game) (self : t) :
  _train rate game self
  = match
      rate (if Game.drawable game then env_drawable self
            else env_undrawable self)
        [map (rating_of self) (Game.rosters game).1;
         map (rating_of self) (Game.rosters game).2]
        (if bool_decide ((Game.score game).1 > (Game.score game).2)%Z
         then [0; 1]%Z
         else if bool_decide ((Game.score game).1 = (Game.score game).2)
              then [0; 0]%Z
              else [1; 0]%Z)
    with
    | Raise e => (Raise e, self)
    | Ok teams_ratings => _update_teams_ratings game teams_ratings self
    end.
Proof. unfold _train. by destruct (Game.score game). Qed.

(** A training step that returns has run the loop body for team 1
    and then for team 2, on the two lists of [env.rate]. *)
Lemma train_returns (game : Game) (self self' : t) :
  (∀ env groups ranks out,
     rate env groups ranks = Ok out → length out = length groups) →
  _train rate game self = (Ok tt, self') →
  let env :=
    if Game.drawable game then env_drawable self else env_undrawable self in
  let ranks :=
    if bool_decide ((Game.score game).1 > (Game.score game).2)%Z then [0; 1]%Z
    else if bool_decide ((Game.score game).1 = (Game.score game).2) then [0; 0]%Z
    else [1; 0]%Z in
  ∃ new1 new2 mid,
    rate env [map (rating_of self) (Game.rosters game).1;
              map (rating_of self) (Game.rosters game).2] ranks
      = Ok [new1; new2] ∧
    update_team_ratings (Game.teams game).1 (Game.rosters game).1 new1 self
      = (Ok tt, mid) ∧
    update_team_ratings (Game.teams game).2 (Game.rosters game).2 new2 mid
      = (Ok tt, self').
Proof.
  intros lengths run env ranks. rewrite train_unfold in run.
  fold env ranks in run.
  destruct (rate env _ ranks) as [out|e] eqn:rated; [| done].
  unfold _update_teams_ratings in run.
  pose proof (lengths _ _ _ _ rated) as two.
  destruct out as [|new1 [|new2 [|more out]]]; try done.
  cbn [zip zip_with update_each] in run.
  destruct (update_team_ratings (Game.teams game).1 _ new1 self)
    as [[[]|e] mid] eqn:one; [| done].
  destruct (update_team_ratings (Game.teams game).2 _ new2 mid)
    as [[[]|e] last] eqn:two'; [| done].
  injection run as <-. by exists new1, new2, mid.
Qed.

(** C7, as the code has it: when the player-based model has trained
    on a game ([_train] returned, [env.rate] having given one list of
    ratings per team), the team-level summary rating stored for each
    of the two teams (in the rating jar and in the history snapshot of
    the team's match) has mean equal to the sum of the selected
    roster's player means divided by 6 and uncertainty equal to the
    square root of the sum of the roster's squared player
    uncertainties divided by 6, both taken when the team's new player
    ratings have just been stored: for a roster of 6, the arithmetic
    average of the means and the quadratic mean of the uncertainties
    divided by sqrt(6).  The summary of team 1 is still in the jar
    at the end unless team 2 or one of its rated players bears the
    name of team 1. *)
Theorem team_rating_recorded (game : Game) (self self' : t) :
  (∀ env groups ranks out,
     rate env groups ranks = Ok out → length out = length groups) →
  _train rate game self = (Ok tt, self') →
  let team1 := (Game.teams game).1 in
  let team2 := (Game.teams game).2 in
  let roster1 := (Game.rosters game).1 in
  let roster2 := (Game.rosters game).2 in
  let env :=
    if Game.drawable game then env_drawable self else env_undrawable self in
  let ranks :=
    if bool_decide ((Game.score game).1 > (Game.score game).2)%Z then [0; 1]%Z
    else if bool_decide ((Game.score game).1 = (Game.score game).2) then [0; 0]%Z
    else [1; 0]%Z in
  ∃ new1 new2 mid best1 best2,
    rate env [map (rating_of self) roster1; map (rating_of self) roster2] ranks
      = Ok [new1; new2] ∧
    update_team_ratings team1 roster1 new1 self = (Ok tt, mid) ∧
    update_team_ratings team2 roster2 new2 mid = (Ok tt, self') ∧
    let self1 := store_player_ratings roster1 new1 self in
    let self2 := store_player_ratings roster2 new2 mid in
    let mean (s : t) (best : Roster) :=
      sum (map (λ name, Rating.mu (rating_of s name)) best) / 6 in
    let uncertainty (s : t) (best : Roster) :=
      sqrt (sum (map (λ name, Rating.sigma (rating_of s name) ^ 2) best)) / 6 in
    let rating1 := Rating.mk (mean self1 best1) (uncertainty self1 best1) in
    let rating2 := Rating.mk (mean self2 best2) (uncertainty self2 best2) in
    best_rosters mid !! team1 = Some best1 ∧
    ratings mid !! team1 = Some rating1 ∧
    (∃ stg snapshot,
       stage (base self) = Some stg ∧
       od_get (stg, match_number team1 self) (ratings_history mid)
         = Some snapshot ∧
       snapshot !! team1 = Some rating1) ∧
    best_rosters self' !! team2 = Some best2 ∧
    ratings self' !! team2 = Some rating2 ∧
    (∃ stg snapshot,
       stage (base self) = Some stg ∧
       od_get (stg, match_number team2 self) (ratings_history self')
         = Some snapshot ∧
       snapshot !! team2 = Some rating2) ∧
    (team1 ≠ team2 → best_rosters self' !! team1 = Some best1) ∧
    (team1 ≠ team2 → team1 ∉ take (length new2) roster2 →
     ratings self' !! team1 = Some rating1) ∧
    (length best1 = 6%nat →
       mean self1 best1
       = sum (map (λ name, Rating.mu (rating_of self1 name)) best1)
         / INR (length best1) ∧
       uncertainty self1 best1 * sqrt 6 = Spec.quadratic_mean self1 best1) ∧
    (length best2 = 6%nat →
       mean self2 best2
       = sum (map (λ name, Rating.mu (rating_of self2 name)) best2)
         / INR (length best2) ∧
       uncertainty self2 best2 * sqrt 6 = Spec.quadratic_mean self2 best2).
Proof.
  intros lengths run team1 team2 roster1 roster2 env ranks.
  subst team1 team2 roster1 roster2.
  destruct (train_returns game self self' lengths run)
    as (new1 & new2 & mid & rated & one & two).
  destruct (update_team_ratings_returns _ _ _ _ _ one)
    as (stg & best1 & snap1 & es & _ & eb1 & er1 & ebr1 & eh1 & et1).
  destruct (update_team_ratings_returns _ _ _ _ _ two)
    as (stg' & best2 & snap2 & es' & _ & eb2 & er2 & ebr2 & eh2 & et2).
  exists new1, new2, mid, best1, best2.
  split; [exact rated |]. split; [exact one |]. split; [exact two |].
  intros self1 self2 mean uncertainty rating1 rating2.
  change rating1 with (summary self1 best1).
  change rating2 with (summary self2 best2).
  split; [rewrite ebr1; apply lookup_insert_eq |].
  split; [rewrite er1; apply lookup_insert_eq |].
  split; [by exists stg, snap1 |].
  split; [rewrite ebr2; apply lookup_insert_eq |].
  split; [rewrite er2; apply lookup_insert_eq |].
  split.
  { exists stg', snap2. rewrite eb1 in es'. split; [done |]. split; [| done].
    unfold match_number in *. by rewrite eb1 in eh2. }
  split.
  { intros ne. rewrite ebr2, lookup_insert_ne by done.
    rewrite ebr1. apply lookup_insert_eq. }
  split.
  { intros ne outside. rewrite er2, lookup_insert_ne by done.
    unfold store_player_ratings. cbn [ratings set_ratings].
    destruct (store_pairs_lookup (zip (Game.rosters game).2 new2)
                (ratings mid) (Game.teams game).1) as [out _].
    rewrite out by (by rewrite zip_names).
    rewrite er1. apply lookup_insert_eq. }
  split; intros six; by apply summary_of_six.
Qed.
End team_rating_formula.

(** ** The sample team *)

Section sample.
Import PlayerTrueSkillPredictor.
Local Open Scope R_scope.

Variable self : t.
Hypothesis ratings_X :
  map (rating_of self) Sample.X = replicate 6 (Rating.mk 0 1).
Hypothesis ratings_Y :
  map (rating_of self) Sample.Y
  = Rating.mk 0 2.5 :: replicate 5 (Rating.mk 0 0.1).
Hypothesis queue : roster_queues (base self) !! "T" = Some [Sample.X; Sample.Y].

Lemma sample_summary_X : summary self Sample.X = Rating.mk 0 (sqrt 6 / 6).
Proof.
  rewrite summary_of_ratings. cbn zeta. rewrite ratings_X.
  f_equal; [cbn; lra |]. f_equal. f_equal. cbn. lra.
Qed.

Lemma sample_summary_Y : summary self Sample.Y = Rating.mk 0 (sqrt 6.3 / 6).
Proof.
  rewrite summary_of_ratings. cbn zeta. rewrite ratings_Y.
  f_equal; [cbn; lra |]. f_equal. f_equal. cbn. lra.
Qed.

Lemma sample_uncertain_X : ¬ zero_sigma self Sample.X.
Proof.
  rewrite zero_sigma_of_ratings, ratings_X.
  intros [e _]%Forall_cons. cbn in e. lra.
Qed.

Lemma sample_uncertain_Y : ¬ zero_sigma self Sample.Y.
Proof.
  rewrite zero_sigma_of_ratings, ratings_Y.
  intros [e _]%Forall_cons. cbn in e. lra.
Qed.

Lemma sample_rating_X :
  _roster_rating self Sample.X = Ok (Rating.mk 0 (sqrt 6 / 6)).
Proof.
  destruct (roster_rating_cases self Sample.X) as [_ returns].
  rewrite (returns sample_uncertain_X). by rewrite sample_summary_X.
Qed.

(** The code ranks X above Y. *)
Lemma sample_best :
  _update_best_roster "T" Sample.members self
  = (Ok Sample.X, set_best_rosters <["T" := Sample.X]> self).
Proof.
  unfold _update_best_roster. rewrite queue.
  change (default [] (Some ?l)) with l.
  rewrite (sorted_reverse_by_values (_min_roster_rating self)
             (λ roster, Rating.mu (summary self roster)
                        - 3 * Rating.sigma (summary self roster))).
  2: { repeat constructor; apply min_roster_rating_cases;
         [apply sample_uncertain_X | apply sample_uncertain_Y]. }
  rewrite sorted_reverse_two, sample_summary_X, sample_summary_Y.
  cbn [Rating.mu Rating.sigma].
  rewrite bool_decide_eq_false_2; [reflexivity |].
  assert (sqrt 6 <= sqrt 6.3) by (apply sqrt_le_1_alt; lra). lra.
Qed.

Lemma sample_map_ratings (f : Rating → R) (roster : Roster) :
  map (λ name, f (rating_of self name)) roster
  = map f (map (rating_of self) roster).
Proof. by rewrite map_map. Qed.

(** The specification's score ranks Y above X. *)
Lemma sample_spec_best :
  Spec.lower_confidence_bound self Sample.X = -3 ∧
  Spec.lower_confidence_bound self Sample.Y = -1.5 ∧
  Spec.select_best_roster "T" Sample.members self = Some Sample.Y.
Proof.
  assert (Spec.lower_confidence_bound self Sample.X = -3) as sX.
  { unfold Spec.lower_confidence_bound.
    rewrite (sample_map_ratings (λ r, Rating.mu r - 3 * Rating.sigma r)).
    rewrite ratings_X. cbn. lra. }
  assert (Spec.lower_confidence_bound self Sample.Y = -1.5) as sY.
  { unfold Spec.lower_confidence_bound.
    rewrite (sample_map_ratings (λ r, Rating.mu r - 3 * Rating.sigma r)).
    rewrite ratings_Y. cbn. lra. }
  repeat split; try done.
  unfold Spec.select_best_roster. rewrite queue.
  change (default [] (Some ?l)) with l. rewrite sorted_reverse_two.
  rewrite sX, sY. rewrite bool_decide_eq_true_2 by lra. reflexivity.
Qed.

(** The quadratic mean of X's uncertainties is 1. *)
Lemma sample_quadratic_mean : Spec.quadratic_mean self Sample.X = 1.
Proof.
  unfold Spec.quadratic_mean.
  rewrite (sample_map_ratings (λ r, Rating.sigma r ^ 2)), ratings_X.
  replace (_ / _) with 1 by (cbn; lra). apply sqrt_1.
Qed.
End sample.

Section sample_model.
Import PlayerTrueSkillPredictor.
Local Open Scope R_scope.

Lemma sample_trained_X :
  map (rating_of sample_trained) Sample.X = replicate 6 (Rating.mk 0 1).
Proof. reflexivity. Qed.

Lemma sample_trained_Y :
  map (rating_of sample_trained) Sample.Y
  = Rating.mk 0 2.5 :: replicate 5 (Rating.mk 0 0.1).
Proof. reflexivity. Qed.

Lemma sample_trained_queue :
  roster_queues (base sample_trained) !! "T" = Some [Sample.X; Sample.Y].
Proof. reflexivity. Qed.

Lemma sample_model_X :
  map (rating_of Sample.player_model) Sample.X = replicate 6 (Rating.mk 0 1).
Proof. reflexivity. Qed.

Lemma sample_model_Y :
  map (rating_of Sample.player_model) Sample.Y
  = Rating.mk 0 2.5 :: replicate 5 (Rating.mk 0 0.1).
Proof. reflexivity. Qed.

Lemma sample_model_queue :
  roster_queues (base Sample.player_model) !! "T"
  = Some [Sample.X; Sample.Y].
Proof. reflexivity. Qed.

(** The loop body on the sample team: X is selected and T is rated
    (0, sqrt(6)/6). *)
Lemma sample_update :
  ∃ self',
    update_team_ratings "T" Sample.X Sample.unchanged Sample.player_model
      = (Ok tt, self') ∧
    best_rosters self' !! "T" = Some Sample.X ∧
    ratings self' !! "T" = Some (Rating.mk 0 (sqrt 6 / 6)).
Proof.
  destruct (update_team_ratings_ok Sample.player_model "T" Sample.X
              Sample.unchanged "stage1" {[ "T" := Sample.members ]}
              Sample.members Sample.X eq_refl eq_refl eq_refl)
    as (self' & run & _ & er & eb).
  - exact (sample_best sample_trained sample_trained_X sample_trained_Y
             sample_trained_queue).
  - exact (sample_uncertain_X sample_trained sample_trained_X).
  - exists self'. split; [exact run |]. split.
    + rewrite eb. apply lookup_insert_eq.
    + rewrite er, lookup_insert_eq. f_equal.
      exact (sample_summary_X sample_trained sample_trained_X).
Qed.

(** The belief update of the sample gives one list per team. *)
Lemma sample_rate_lengths env groups ranks out :
  Sample.rate env groups ranks = Ok out → length out = length groups.
Proof. intros [= <-]. apply length_map. Qed.

(** The game of the sample league trains. *)
Lemma sample_league_trains :
  ∃ self', _train Sample.rate Sample.game Sample.league = (Ok tt, self').
Proof.
  unfold _train, _update_teams_ratings.
  cbn [Sample.game Game.score Game.teams Game.rosters Game.drawable fst snd
       _teams_ratings Sample.rate map zip zip_with update_each].
  destruct (update_team_ratings_ok Sample.league "V" ["c1"]
              [Rating.mk 0 1] "stage1" (<["W" := ["d1"]]> {[ "V" := ["c1"] ]})
              ["c1"] ["c1"] eq_refl eq_refl eq_refl)
    as (mid & one & eb & er & ebr).
  { by apply update_best_roster_no_queue. }
  { intros [e _]%Forall_cons. vm_compute in e. lra. }
  rewrite one.
  destruct (update_team_ratings_ok mid "W" ["d1"]
              [Rating.mk 0 1] "stage1" (<["W" := ["d1"]]> {[ "V" := ["c1"] ]})
              ["d1"] ["d1"])
    as (last & two & _).
  { by rewrite eb. }
  { unfold match_number. by rewrite eb. }
  { reflexivity. }
  { apply update_best_roster_no_queue.
    change (base (store_player_ratings ?r ?n mid)) with (base mid).
    by rewrite eb. }
  { intros [e _]%Forall_cons. unfold rating_of, store_player_ratings in e.
    cbn [ratings set_ratings zip zip_with foldl] in e.
    rewrite lookup_insert_eq in e. cbn in e. lra. }
  rewrite two. by exists last.
Qed.
End sample_model.

(** The sample team: X, the most recent roster, scores above Y and
    is selected. *)
Lemma update_best_roster_selects_witness :
  PlayerTrueSkillPredictor._update_best_roster "T" Sample.members
    Sample.player_model
  = (Ok Sample.X,
     PlayerTrueSkillPredictor.set_best_rosters <["T" := Sample.X]>
       Sample.player_model).
Proof.
  assert (creates_prior Sample.player_model) as prior.
  { unfold creates_prior. cbn. lra. }
  destruct (update_best_roster_selects Sample.player_model "T" Sample.members
              prior)
    as (_ & _ & _ & returns).
  destruct returns as (best & rosters & run & _).
  { repeat constructor.
    - exact (sample_uncertain_X Sample.player_model sample_model_X).
    - exact (sample_uncertain_Y Sample.player_model sample_model_Y). }
  rewrite run.
  rewrite (sample_best Sample.player_model sample_model_X sample_model_Y
             sample_model_queue) in run.
  by injection run as <-.
Defined.

(** The sample league: V and W are both rated after their game. *)
Lemma team_rating_recorded_witness :
  ∃ self' rating1 rating2,
    PlayerTrueSkillPredictor._train Sample.rate Sample.game Sample.league
      = (Ok tt, self') ∧
    PlayerTrueSkillPredictor.ratings self' !! "V" = Some rating1 ∧
    PlayerTrueSkillPredictor.ratings self' !! "W" = Some rating2.
Proof.
  destruct sample_league_trains as [self' run].
  destruct (team_rating_recorded Sample.rate Sample.game Sample.league self'
              sample_rate_lengths run)
    as (new1 & new2 & mid & best1 & best2 & rated & _ & _ & facts).
  cbn zeta in facts.
  destruct facts as (_ & _ & _ & _ & two & _ & _ & one & _).
  eexists self', _, _. split; [exact run |]. split.
  - apply one; [discriminate |].
    cbn [Sample.game Game.rosters snd].
    intros i. apply elem_of_take in i as (n & i & _).
    apply list_elem_of_lookup_2 in i.
    apply elem_of_cons in i as [[=] | i]. by apply elem_of_nil in i.
  - exact two.
Defined.

(** C7 as stated fails on the sample team: the selected roster is X,
    six players of uncertainty 1, whose quadratic mean is 1; the
    uncertainty stored for the team is sqrt(6)/6. *)
Lemma team_uncertainty_not_quadratic_mean :
  ∃ self' rating,
    PlayerTrueSkillPredictor.update_team_ratings "T" Sample.X Sample.unchanged
      Sample.player_model = (Ok tt, self') ∧
    PlayerTrueSkillPredictor.best_rosters self' !! "T" = Some Sample.X ∧
    PlayerTrueSkillPredictor.ratings self' !! "T" = Some rating ∧
    Rating.sigma rating = (sqrt 6 / 6)%R ∧
    Spec.quadratic_mean sample_trained Sample.X = 1%R ∧
    Rating.sigma rating ≠ Spec.quadratic_mean sample_trained Sample.X.
Proof.
  destruct sample_update as (self' & run & eb & er).
  exists self', (Rating.mk 0 (sqrt 6 / 6)).
  pose proof (sample_quadratic_mean sample_trained sample_trained_X) as qm.
  repeat (split; [done |]). rewrite qm. cbn [Rating.sigma].
  pose proof sqrt_6_square. nra.
Qed.

(** C6 as stated fails on the sample team: the average of
    (mean - 3 uncertainty) is -3 for X and -3/2 for Y, so the order of
    the claim puts Y first; the code scores X above Y and returns X. *)
Lemma best_roster_not_by_average :
  let self := Sample.player_model in
  Forall (λ name, name ∈ Sample.members) Sample.X ∧
  Forall (λ name, name ∈ Sample.members) Sample.Y ∧
  Spec.lower_confidence_bound self Sample.X = (-3)%R ∧
  Spec.lower_confidence_bound self Sample.Y = (-1.5)%R ∧
  Spec.select_best_roster "T" Sample.members self = Some Sample.Y ∧
  (PlayerTrueSkillPredictor._update_best_roster "T" Sample.members self).1
    = Ok Sample.X ∧
  Sample.X ≠ Sample.Y.
Proof.
  intros self.
  destruct (sample_spec_best self sample_model_X sample_model_Y
              sample_model_queue) as (sX & sY & spec).
  pose proof (sample_best self sample_model_X sample_model_Y
                sample_model_queue) as code.
  split; [by apply all_in_spec |]. split; [by apply all_in_spec |].
  repeat (split; [done |]). split; [by rewrite code | discriminate].
Qed.

(** * Further properties of the standings tracker *)

(** [entered] changes the stage fields and the match fields only as
    [_update_stage] and [_update_match_ids] do. *)
Lemma entered_counters game self :
  let s1 := _update_stage (Game.stage game) self in
  map_diffs (entered game self) = map_diffs self ∧
  head_to_head_map_diffs (entered game self) = head_to_head_map_diffs self ∧
  stage_counters (entered game self) = stage_counters s1.
Proof.
  cbn zeta. unfold entered, _update_match_ids.
  destruct (update_stage_frame (Game.stage game) self) as (em & eh & _).
  by case_bool_decide.
Qed.

(** The map-diff tables after [_update_standings], whether it returns
    or raises. *)
Lemma update_standings_diffs game self :
  let self' := (_update_standings game self).2 in
  let s1 := _update_stage (Game.stage game) self in
  let W := (winner_loser game).1 in
  let L := (winner_loser game).2 in
  let regular := negb (String.eqb (Game.match_format game) "title") in
  map_diffs self'
    = (if decisive game then incr L (-1) (incr W 1 (map_diffs self))
       else map_diffs self) ∧
  head_to_head_map_diffs self'
    = (if decisive game
       then incr (L, W) (-1) (incr (W, L) 1 (head_to_head_map_diffs self))
       else head_to_head_map_diffs self) ∧
  stage_map_diffs self'
    = (if decisive game && regular
       then incr L (-1) (incr W 1 (stage_map_diffs s1))
       else stage_map_diffs s1) ∧
  stage_head_to_head_map_diffs self'
    = (if decisive game && regular
       then incr (L, W) (-1) (incr (W, L) 1 (stage_head_to_head_map_diffs s1))
       else stage_head_to_head_map_diffs s1).
Proof.
  cbn zeta.
  destruct (entered_counters game self) as (em & eh & ec).
  unfold stage_counters in ec. injection ec as _ _ esm esh _ _.
  unfold _update_standings, decisive, winner_loser. fold (entered game self).
  destruct game as [[t1 t2] [s1 s2] st mid fmt dr ro];
    cbn [Game.teams Game.score Game.stage Game.match_id Game.match_format
         fst snd] in *.
  set (s0 := entered _ self) in *. clearbody s0.
  case_bool_decide; [| cbn [snd]; by rewrite em, eh, esm, esh].
  destruct (bool_decide (s1 > s2)), (fmt =? "title"); cbn [fst snd negb andb];
    fields;
    (destruct (score s0) as [sc|];
     [destruct (sc !! _) as [sw|]; [destruct (sc !! _) as [sl|] |] |]);
    unfold handle_match_result; repeat case_bool_decide; cbn [snd]; fields;
    by rewrite ?em, ?eh, ?esm, ?esh.
Qed.

Lemma getd_incr `{Countable K} (m : gmap K Z) (k k' : K) (d : Z) :
  getd (incr k d m) k' = getd m k' + (if decide (k = k') then d else 0).
Proof.
  destruct (decide (k = k')) as [<- |].
  - apply getd_incr_eq.
  - rewrite getd_incr_ne by done. lia.
Qed.

Lemma antisymmetric_empty : antisymmetric ∅.
Proof. intros a b. by rewrite !getd_empty. Qed.

Lemma antisymmetric_incr h w l :
  antisymmetric h → antisymmetric (incr (l, w) (-1) (incr (w, l) 1 h)).
Proof.
  intros anti a b. rewrite !getd_incr, (anti a b).
  repeat case_decide; simplify_eq; lia.
Qed.

Lemma update_stage_stage_diffs st self :
  (stage_map_diffs (_update_stage st self) = stage_map_diffs self ∧
   stage_head_to_head_map_diffs (_update_stage st self)
     = stage_head_to_head_map_diffs self) ∨
  (stage_map_diffs (_update_stage st self) = ∅ ∧
   stage_head_to_head_map_diffs (_update_stage st self) = ∅).
Proof.
  unfold _update_stage. case_bool_decide; [by left |].
  destruct (extends_stage st (stage self)); [by left | by right].
Qed.

(** X1: the head-to-head tables stay antisymmetric: if the global and
    the stage table read opposite values for the two orders of every
    pair of teams, they still do after any sequence of games has been
    replayed, whether the replay finishes or raises. *)
Theorem replay_keeps_antisymmetry (games : list Game) (self : Predictor) :
  antisymmetric (head_to_head_map_diffs self) →
  antisymmetric (stage_head_to_head_map_diffs self) →
  antisymmetric (head_to_head_map_diffs (replay_standings games self).2) ∧
  antisymmetric (stage_head_to_head_map_diffs (replay_standings games self).2).
Proof.
  revert self. induction games as [|game rest IH]; intros self ag asg;
    cbn [replay_standings]; [done |].
  destruct (update_standings_diffs game self) as (_ & eh & _ & esh).
  assert (antisymmetric (stage_head_to_head_map_diffs
                           (_update_stage (Game.stage game) self))) as as1.
  { destruct (update_stage_stage_diffs (Game.stage game) self)
      as [[_ ->] | [_ ->]]; [done | apply antisymmetric_empty]. }
  assert (antisymmetric (head_to_head_map_diffs (_update_standings game self).2)
          ∧ antisymmetric (stage_head_to_head_map_diffs
                             (_update_standings game self).2)) as [ag' asg'].
  { rewrite eh, esh. split.
    - destruct (decisive game); [by apply antisymmetric_incr | done].
    - destruct (decisive game && _); [by apply antisymmetric_incr | done]. }
  destruct (_update_standings game self) as [[[]|e] self']; cbn [snd] in *;
    [by apply IH | done].
Qed.

(** From a fresh tracker: B beats A, then a drawn map. *)
Lemma replay_keeps_antisymmetry_witness :
  let games :=
    [ Game.mk ("A", "B") (1, 2) "stage1" 7 "regular" false ([], []);
      Game.mk ("A", "B") (1, 1) "stage1" 7 "regular" true ([], []) ] in
  antisymmetric (head_to_head_map_diffs (replay_standings games (fresh ∅)).2) ∧
  antisymmetric
    (stage_head_to_head_map_diffs (replay_standings games (fresh ∅)).2).
Proof.
  intros games.
  apply (replay_keeps_antisymmetry games (fresh ∅)); apply antisymmetric_empty.
Defined.

(** ** Zero-sum map differentials *)

Lemma sum_list_perm (l1 l2 : list Z) :
  l1 ≡ₚ l2 → foldr Z.add 0 l1 = foldr Z.add 0 l2.
Proof. induction 1; cbn; lia. Qed.

Lemma sum_values_insert_fresh (m : gmap string Z) k v :
  m !! k = None → sum_values (<[k := v]> m) = v + sum_values m.
Proof.
  intros fresh_k. unfold sum_values.
  rewrite (sum_list_perm _ (snd <$> ((k, v) :: map_to_list m))); [done |].
  by rewrite map_to_list_insert.
Qed.

Lemma sum_values_incr (m : gmap string Z) k d :
  sum_values (incr k d m) = sum_values m + d.
Proof.
  unfold incr, getd. destruct (m !! k) as [v|] eqn:e; cbn [default].
  - rewrite <- (insert_delete_eq m k (v + d)).
    rewrite sum_values_insert_fresh by apply lookup_delete_eq.
    replace (sum_values m) with (sum_values (<[k := v]> (delete k m)))
      by (by rewrite insert_delete_id).
    rewrite sum_values_insert_fresh by apply lookup_delete_eq. lia.
  - rewrite sum_values_insert_fresh by done. lia.
Qed.

Lemma sum_values_empty : sum_values ∅ = 0.
Proof. unfold sum_values. by rewrite map_to_list_empty. Qed.

(** X2: map differentials are zero-sum: replaying any sequence of
    games leaves the sum of all global map-diffs as it was, and leaves
    the sum of the stage map-diffs at 0 when it was 0 (a stage change
    empties the stage table), whether the replay finishes or raises. *)
Theorem replay_zero_sum (games : list Game) (self : Predictor) :
  sum_values (map_diffs (replay_standings games self).2)
    = sum_values (map_diffs self) ∧
  (sum_values (stage_map_diffs self) = 0 →
   sum_values (stage_map_diffs (replay_standings games self).2) = 0).
Proof.
  revert self. induction games as [|game rest IH]; intros self;
    cbn [replay_standings]; [done |].
  destruct (update_standings_diffs game self) as (em & _ & esm & _).
  assert (sum_values (map_diffs (_update_standings game self).2)
          = sum_values (map_diffs self)) as eg.
  { rewrite em. destruct (decisive game); [| done].
    rewrite !sum_values_incr. lia. }
  assert (sum_values (stage_map_diffs self) = 0 →
          sum_values (stage_map_diffs (_update_standings game self).2) = 0)
    as es.
  { intros zero. rewrite esm.
    assert (sum_values (stage_map_diffs (_update_stage (Game.stage game) self))
            = 0) as zero1.
    { destruct (update_stage_stage_diffs (Game.stage game) self)
        as [[-> _] | [-> _]]; [done | apply sum_values_empty]. }
    destruct (decisive game && _); [| done].
    rewrite !sum_values_incr. lia. }
  destruct (_update_standings game self) as [[[]|e] self']; cbn [snd] in *.
  - destruct (IH self') as [eg' es']. split; [congruence | auto].
  - done.
Qed.

(** ** A whole match, draws included *)

(** One decisive regular game inside the tracked match: every field
    the match result touches. *)
Lemma update_standings_in_match game self sc sw sl :
  let W := (winner_loser game).1 in
  let L := (winner_loser game).2 in
  decisive game = true →
  Game.match_format game = "regular" →
  stage self = Some (Game.stage game) →
  match_id self = Some (Game.match_id game) →
  score self = Some sc →
  sc !! W = Some sw → sc !! L = Some sl →
  ∃ self',
    _update_standings game self = (Ok tt, self') ∧
    stage self' = stage self ∧ match_id self' = match_id self ∧
    score self' = Some (<[W := sw + 1]> sc) ∧
    scores self' !! Game.match_id game = Some (<[W := sw + 1]> sc) ∧
    stage_wins self'
      = (if bool_decide (sw = sl) then incr W 1 (stage_wins self)
         else if bool_decide (sw = sl - 1) then incr L (-1) (stage_wins self)
         else stage_wins self) ∧
    stage_losses self'
      = (if bool_decide (sw = sl) then incr L 1 (stage_losses self)
         else if bool_decide (sw = sl - 1) then incr W (-1) (stage_losses self)
         else stage_losses self).
Proof.
  intros W L dec fmt es em esc eW eL. subst W L.
  assert (entered game self = self) as fixed by by apply entered_fixed.
  unfold _update_standings. fold (entered game self). rewrite fixed.
  unfold decisive, winner_loser in *.
  destruct game as [[t1 t2] [s1 s2] st mid fmt' dr ro];
    cbn [Game.teams Game.score Game.stage Game.match_id Game.match_format
         fst snd] in *.
  subst fmt'. rewrite dec. cbn [String.eqb Ascii.eqb Bool.eqb].
  destruct (bool_decide (s1 > s2)); cbn [fst snd] in *; fields;
    rewrite esc, eW, eL; (eexists; split; [reflexivity |]);
    unfold handle_match_result; repeat case_bool_decide; fields;
    rewrite ?em; cbn; by rewrite ?lookup_insert_eq.
Qed.

(** A drawn game inside the tracked match changes nothing. *)
Lemma update_standings_drawn game self :
  decisive game = false →
  stage self = Some (Game.stage game) →
  match_id self = Some (Game.match_id game) →
  _update_standings game self = (Ok tt, self).
Proof.
  intros dec es em.
  assert (entered game self = self) as fixed by by apply entered_fixed.
  unfold _update_standings. fold (entered game self). rewrite fixed.
  unfold decisive in dec.
  destruct (Game.teams game), (Game.score game). cbn [fst snd] in dec.
  by rewrite dec.
Qed.

Section whole_match.
Variables (mid : Z) (st A B : string).
Hypothesis distinct : A ≠ B.

(** Inside a match, draws included: the running scores count the maps
    won, and the stage win and loss counters follow the lead. *)
Lemma replay_match_running games : ∀ self sc a b,
  Forall (game_of_match mid st A B) games →
  stage self = Some st → match_id self = Some mid →
  score self = Some sc → scores self !! mid = Some sc →
  sc !! A = Some a → sc !! B = Some b →
  ∃ self' sc',
    replay_standings games self = (Ok tt, self') ∧
    score self' = Some sc' ∧ scores self' !! mid = Some sc' ∧
    sc' !! A = Some (a + maps_won A games) ∧
    sc' !! B = Some (b + maps_won B games) ∧
    getd (stage_wins self') A - lead (a + maps_won A games) (b + maps_won B games)
      = getd (stage_wins self) A - lead a b ∧
    getd (stage_wins self') B - lead (b + maps_won B games) (a + maps_won A games)
      = getd (stage_wins self) B - lead b a ∧
    getd (stage_losses self') A - lead (b + maps_won B games) (a + maps_won A games)
      = getd (stage_losses self) A - lead b a ∧
    getd (stage_losses self') B - lead (a + maps_won A games) (b + maps_won B games)
      = getd (stage_losses self) B - lead a b.
Proof.
  induction games as [|game rest IH]; intros self sc a b all es em esc ess eA eB.
  - exists self, sc. cbn [replay_standings maps_won].
    by rewrite !Z.add_0_r.
  - apply Forall_cons in all as [(gm & gs & gf & gt) all].
    cbn [replay_standings maps_won].
    destruct (decisive game) eqn:dec; cbn [andb].
    2: { rewrite update_standings_drawn by congruence.
         rewrite !Z.add_0_l. by apply (IH self sc a b). }
    assert (∃ sw sl, sc !! (winner_loser game).1 = Some sw ∧
                     sc !! (winner_loser game).2 = Some sl ∧
                     ((winner_loser game = (A, B) ∧ sw = a ∧ sl = b) ∨
                      (winner_loser game = (B, A) ∧ sw = b ∧ sl = a)))
      as (sw & sl & eW & eL & side).
    { unfold winner_loser.
      destruct gt as [-> | ->]; case_bool_decide; cbn [fst snd];
        eauto 10. }
    destruct (update_standings_in_match game self sc sw sl)
      as (self1 & -> & es1 & em1 & esc1 & ess1 & ew1 & el1);
      [done | done | congruence | congruence | done | done | done |].
    rewrite gm in ess1.
    destruct side as [(ewl & -> & ->) | (ewl & -> & ->)];
      rewrite ewl in *; cbn [fst snd] in *.
    + destruct (IH self1 (<[A := a + 1]> sc) (a + 1) b)
        as (self' & sc' & run & esc' & ess' & eA' & eB' & iA & iB & jA & jB);
        [done | congruence | congruence | done | done | apply lookup_insert_eq
        | by rewrite lookup_insert_ne |].
      exists self', sc'. rewrite (bool_decide_eq_true_2 (A = A)) by done.
      rewrite (bool_decide_eq_false_2 (A = B)) by done.
      replace (a + (1 + maps_won A rest)) with (a + 1 + maps_won A rest) by lia.
      rewrite Z.add_0_l. repeat (split; [done |]).
      rewrite iA, iB, jA, jB, ew1, el1. unfold lead.
      repeat case_bool_decide;
        rewrite ?getd_incr_eq, ?getd_incr_ne by done; lia.
    + destruct (IH self1 (<[B := b + 1]> sc) a (b + 1))
        as (self' & sc' & run & esc' & ess' & eA' & eB' & iA & iB & jA & jB);
        [done | congruence | congruence | done | done
        | by rewrite lookup_insert_ne | apply lookup_insert_eq |].
      exists self', sc'. rewrite (bool_decide_eq_true_2 (B = B)) by done.
      rewrite (bool_decide_eq_false_2 (B = A)) by done.
      replace (b + (1 + maps_won B rest)) with (b + 1 + maps_won B rest) by lia.
      rewrite Z.add_0_l. repeat (split; [done |]).
      rewrite iA, iB, jA, jB, ew1, el1. unfold lead.
      repeat case_bool_decide;
        rewrite ?getd_incr_eq, ?getd_incr_ne by done; lia.
Qed.
End whole_match.

Lemma update_match_ids_new_scores mid teams self :
  match_id self ≠ Some mid →
  scores (_update_match_ids mid teams self) !! mid
    = Some (<[teams.2 := 0]> (<[teams.1 := 0]> ∅)).
Proof.
  intros ne. unfold _update_match_ids.
  rewrite bool_decide_eq_false_2 by congruence. cbn. apply lookup_insert_eq.
Qed.

(** X3: a match replayed from its first game, drawn maps included,
    between two distinct teams under a match id not yet tracked: the
    replay returns; the running score, also kept in the per-match score
    table, counts the maps each team won; and the stage counters follow
    the lead: the team ahead holds one more stage win and the team
    behind one more stage loss than when the match started, and a level
    match has changed neither. *)
Theorem match_result_follows_lead
    (self : Predictor) (games : list Game) (mid : Z) (st A B : string) :
  A ≠ B → match_id self ≠ Some mid → games ≠ [] →
  Forall (game_of_match mid st A B) games →
  let base := _update_stage st self in
  let a := maps_won A games in
  let b := maps_won B games in
  ∃ self' sc',
    replay_standings games self = (Ok tt, self') ∧
    score self' = Some sc' ∧ scores self' !! mid = Some sc' ∧
    sc' !! A = Some a ∧ sc' !! B = Some b ∧
    getd (stage_wins self') A = getd (stage_wins base) A + lead a b ∧
    getd (stage_wins self') B = getd (stage_wins base) B + lead b a ∧
    getd (stage_losses self') A = getd (stage_losses base) A + lead b a ∧
    getd (stage_losses self') B = getd (stage_losses base) B + lead a b.
Proof.
  intros ne new some all base a b.
  destruct games as [|game rest]; [done |].
  pose proof all as [(gm & gs & _ & gt) _]%Forall_cons.
  rewrite replay_standings_entered.
  assert (match_id (_update_stage (Game.stage game) self) ≠ Some (Game.match_id game))
    as new'.
  { destruct (update_stage_frame (Game.stage game) self) as (_ & _ & -> & _).
    congruence. }
  destruct (entered_counters game self) as (_ & _ & ec).
  unfold stage_counters in ec. injection ec as ew el _ _ _ _.
  destruct (replay_match_running mid st A B ne (game :: rest) (entered game self)
              (<[(Game.teams game).2 := 0]> (<[(Game.teams game).1 := 0]> ∅)) 0 0)
    as (self' & sc' & run & esc & ess & eA & eB & iA & iB & jA & jB).
  - done.
  - rewrite entered_stage. congruence.
  - rewrite entered_match_id. congruence.
  - by apply update_match_ids_new.
  - rewrite <- gm. by apply update_match_ids_new_scores.
  - destruct gt as [-> | ->]; cbn [fst snd].
    + by rewrite lookup_insert_ne, lookup_insert_eq by congruence.
    + by rewrite lookup_insert_eq.
  - destruct gt as [-> | ->]; cbn [fst snd].
    + by rewrite lookup_insert_eq.
    + by rewrite lookup_insert_ne, lookup_insert_eq by congruence.
  - exists self', sc'. rewrite !Z.add_0_l in *.
    rewrite ew, el, gs in *. fold base a b in iA, iB, jA, jB, eA, eB.
    repeat (split; [done |]). unfold lead in *.
    repeat case_bool_decide; lia.
Qed.

(** A match with a drawn map: A, draw, B, A. *)
Lemma match_result_follows_lead_witness :
  let games :=
    [ Game.mk ("A", "B") (2, 0) "stage1" 7 "regular" true ([], []);
      Game.mk ("A", "B") (1, 1) "stage1" 7 "regular" true ([], []);
      Game.mk ("B", "A") (2, 1) "stage1" 7 "regular" false ([], []);
      Game.mk ("A", "B") (3, 2) "stage1" 7 "regular" false ([], []) ] in
  ∃ self' sc',
    replay_standings games (fresh ∅) = (Ok tt, self') ∧
    score self' = Some sc' ∧ scores self' !! 7 = Some sc' ∧
    sc' !! "A" = Some 2 ∧ sc' !! "B" = Some 1 ∧
    getd (stage_wins self') "A" = 1 ∧ getd (stage_wins self') "B" = 0 ∧
    getd (stage_losses self') "A" = 0 ∧ getd (stage_losses self') "B" = 1.
Proof.
  intros games.
  destruct (match_result_follows_lead (fresh ∅) games 7 "stage1" "A" "B")
    as (self' & sc' & run & esc & ess & eA & eB & wA & wB & lA & lB).
  - discriminate.
  - discriminate.
  - discriminate.
  - subst games.
    repeat (apply List.Forall_cons;
              [repeat split; try done; (by left) || (by right) |]).
    apply List.Forall_nil.
  - exists self', sc'. by repeat (split; [assumption |]).
Defined.

(** ** Errors and the title path *)

Lemma entered_tracked game self :
  match_id self = Some (Game.match_id game) →
  entered game self = _update_stage (Game.stage game) self.
Proof.
  intros em. unfold entered. apply update_match_ids_same.
  by destruct (update_stage_frame (Game.stage game) self) as (_ & _ & -> & _).
Qed.

(** X4: a decisive game that carries the tracked match id although one
    of its teams is not in the running score of that match makes
    [_update_standings] raise [KeyError]; by then the global map-diffs
    have already been moved by +1 and -1 and they are not rolled back,
    while the stage win and loss counters and the running score are as
    the stage transition left them. *)
Theorem update_standings_unknown_team
    (game : Game) (self : Predictor) (sc : gmap string Z) :
  let W := (winner_loser game).1 in
  let L := (winner_loser game).2 in
  decisive game = true →
  match_id self = Some (Game.match_id game) →
  score self = Some sc →
  sc !! W = None ∨ sc !! L = None →
  ∃ self',
    _update_standings game self = (Raise KeyError, self') ∧
    map_diffs self' = incr L (-1) (incr W 1 (map_diffs self)) ∧
    stage_wins self' = stage_wins (_update_stage (Game.stage game) self) ∧
    stage_losses self' = stage_losses (_update_stage (Game.stage game) self) ∧
    score self' = Some sc.
Proof.
  intros W L dec em esc missing. subst W L.
  pose proof (entered_tracked game self em) as fixed.
  destruct (update_stage_frame (Game.stage game) self) as (gm & _ & _ & gs).
  rewrite esc in gs.
  unfold _update_standings. fold (entered game self). rewrite fixed.
  set (s1 := _update_stage (Game.stage game) self) in *. clearbody s1.
  unfold decisive, winner_loser in *.
  destruct game as [[t1 t2] [s1' s2'] st mid fmt dr ro];
    cbn [Game.teams Game.score Game.stage Game.match_id Game.match_format
         fst snd] in *.
  rewrite dec.
  destruct (bool_decide (s1' > s2')), (fmt =? "title"); cbn [fst snd] in *;
    fields; rewrite gs;
    destruct (sc !! t1) eqn:e1, (sc !! t2) eqn:e2;
    try (by destruct missing);
    (eexists; split; [reflexivity |]); fields; by rewrite gm.
Qed.

(** A and B played map 1 of match 7; a game of C against D arrives
    under the same match id. *)
Lemma update_standings_unknown_team_witness :
  let first := Game.mk ("A", "B") (2, 1) "stage1" 7 "regular" false ([], []) in
  let stray := Game.mk ("C", "D") (2, 1) "stage1" 7 "regular" false ([], []) in
  let self := (_update_standings first (fresh ∅)).2 in
  ∃ self',
    _update_standings stray self = (Raise KeyError, self') ∧
    getd (map_diffs self') "C" = 1 ∧ getd (map_diffs self') "D" = -1.
Proof.
  intros first stray self.
  destruct (update_standings_unknown_team stray self
              (<["A" := 1]> (<["B" := 0]> (<["A" := 0]> ∅))))
    as (self' & run & em & _).
  - reflexivity.
  - reflexivity.
  - reflexivity.
  - left. reflexivity.
  - exists self'. split; [exact run |]. rewrite em. split; reflexivity.
Defined.

(** The running score read by [_update_standings] is tied for a new
    match and for a tracked match whose running score is tied. *)
Lemma entered_tied game self A B :
  Game.teams game = (A, B) → A ≠ B →
  (match_id self ≠ Some (Game.match_id game) ∨
   ∃ sc x, score self = Some sc ∧ sc !! A = Some x ∧ sc !! B = Some x) →
  ∃ sc x, score (entered game self) = Some sc ∧
          sc !! A = Some x ∧ sc !! B = Some x.
Proof.
  intros et ne tied.
  destruct (decide (match_id self = Some (Game.match_id game))) as [e | n].
  - destruct tied as [? | (sc & x & ? & ? & ?)]; [done |].
    exists sc, x. rewrite entered_tracked by done.
    by destruct (update_stage_frame (Game.stage game) self) as (_ & _ & _ & ->).
  - eexists _, 0. unfold entered. rewrite update_match_ids_new.
    + rewrite et; cbn [fst snd]. split; [done |].
      by rewrite lookup_insert_ne, !lookup_insert_eq by done.
    + by destruct (update_stage_frame (Game.stage game) self) as (_ & _ & -> & _).
Qed.

(** X5: a decisive title-format game in which A beats B from a tied
    running match score adds 1 to A's stage title wins and to B's stage
    title losses and moves the global map-diffs by +1 and -1, and it
    leaves the regular stage tables (stage wins, losses, map-diffs and
    head-to-head diffs) as the stage transition left them. *)
Theorem title_game_tied
    (self : Predictor) (game : Game) (A B : string) (a b : Z) :
  Game.teams game = (A, B) → A ≠ B →
  Game.score game = (a, b) → a > b →
  Game.match_format game = "title" →
  (match_id self ≠ Some (Game.match_id game) ∨
   ∃ sc x, score self = Some sc ∧ sc !! A = Some x ∧ sc !! B = Some x) →
  let s1 := _update_stage (Game.stage game) self in
  ∃ self',
    _update_standings game self = (Ok tt, self') ∧
    getd (stage_title_wins self') A = getd (stage_title_wins s1) A + 1 ∧
    getd (stage_title_losses self') B = getd (stage_title_losses s1) B + 1 ∧
    getd (map_diffs self') A = getd (map_diffs self) A + 1 ∧
    getd (map_diffs self') B = getd (map_diffs self) B - 1 ∧
    stage_wins self' = stage_wins s1 ∧ stage_losses self' = stage_losses s1 ∧
    stage_map_diffs self' = stage_map_diffs s1 ∧
    stage_head_to_head_map_diffs self' = stage_head_to_head_map_diffs s1.
Proof.
  intros et ne es gt fmt tied s1.
  destruct (entered_tied game self A B et ne tied) as (sc & x & esc & eA & eB).
  destruct (entered_counters game self) as (em & _ & ec).
  unfold stage_counters in ec. fold s1 in ec.
  injection ec as ew el esm esh etw etl.
  unfold _update_standings. fold (entered game self).
  set (s0 := entered game self) in *. clearbody s0.
  rewrite et, es, fmt. cbn [String.eqb Ascii.eqb Bool.eqb].
  rewrite bool_decide_eq_true_2 by lia.
  rewrite bool_decide_eq_true_2 by done.
  fields. rewrite esc, eA, eB.
  eexists. split; [reflexivity |].
  unfold handle_match_result. rewrite bool_decide_eq_true_2 by done. fields.
  rewrite em, etw, etl, ew, el, esm, esh.
  rewrite !getd_incr.
  repeat case_decide; try congruence; repeat split; lia.
Qed.

(** The first map of a title match on a fresh tracker. *)
Lemma title_game_tied_witness :
  let game := Game.mk ("A", "B") (3, 2) "stage1-title" 9 "title" false ([], []) in
  ∃ self',
    _update_standings game (fresh ∅) = (Ok tt, self') ∧
    getd (stage_title_wins self') "A" = 1 ∧
    getd (stage_title_losses self') "B" = 1 ∧
    stage_wins self' = ∅.
Proof.
  intros game.
  destruct (title_game_tied (fresh ∅) game "A" "B" 3 2)
    as (self' & run & tw & tl & _ & _ & ew & _).
  - reflexivity.
  - discriminate.
  - reflexivity.
  - lia.
  - reflexivity.
  - left. discriminate.
  - exists self'. repeat split; [exact run | exact tw | exact tl | exact ew].
Defined.

(** ** Match history *)

Lemma team_history_append stg team mid h team' :
  default [] (default ∅ (history_append stg team mid h !! stg) !! team')
  = (default [] (default ∅ (h !! stg) !! team')
     ++ if decide (team = team') then [mid] else [])%list.
Proof.
  unfold history_append. rewrite lookup_insert_eq.
  change (default ∅ (Some ?m)) with m.
  destruct (decide (team = team')) as [<- |].
  - by rewrite lookup_insert_eq.
  - rewrite lookup_insert_ne by done. by rewrite app_nil_r.
Qed.

(** X6: a game under a match id that is not the tracked one appends
    that id once to the history of each of its two (distinct) teams in
    the current stage and to no other team's; a following game under
    the same id leaves the tracker as it is, so a match counts once in
    the history however many maps it has. *)
Theorem match_history_once (mid : Z) (teams : string * string) (self : Predictor) :
  teams.1 ≠ teams.2 → match_id self ≠ Some mid →
  let self' := _update_match_ids mid teams self in
  team_history self' teams.1 = (team_history self teams.1 ++ [mid])%list ∧
  team_history self' teams.2 = (team_history self teams.2 ++ [mid])%list ∧
  (∀ team, team ≠ teams.1 → team ≠ teams.2 →
     team_history self' team = team_history self team) ∧
  _update_match_ids mid teams self' = self'.
Proof.
  intros ne new self'.
  assert (∀ team,
    team_history self' team
    = ((team_history self team ++ if decide (teams.1 = team) then [mid] else [])
       ++ if decide (teams.2 = team) then [mid] else [])%list) as history.
  { intros team. subst self'. unfold team_history, _update_match_ids.
    rewrite bool_decide_eq_false_2 by congruence. cbn.
    by rewrite !team_history_append. }
  repeat split.
  - rewrite history, decide_True, decide_False by done. by rewrite app_nil_r.
  - rewrite history, decide_False, decide_True by done. by rewrite app_nil_r.
  - intros team n1 n2. rewrite history, !decide_False by done.
    by rewrite !app_nil_r.
  - apply update_match_ids_same, update_match_ids_match_id.
Qed.

(** The second match of A in stage1. *)
Lemma match_history_once_witness :
  let self :=
    _update_match_ids 7 ("A", "C")
      (set_stage (Some "stage1") (Some "stage1") (fresh ∅)) in
  let self' := _update_match_ids 8 ("A", "B") self in
  team_history self' "A" = [7; 8] ∧ team_history self' "B" = [8] ∧
  team_history self' "C" = [7] ∧
  _update_match_ids 8 ("A", "B") self' = self'.
Proof.
  intros self self'.
  destruct (match_history_once 8 ("A", "B") self) as (hA & hB & other & idem).
  - discriminate.
  - discriminate.
  - split; [exact hA |]. split; [exact hB |]. split; [| exact idem].
    etrans; [apply (other "C"); discriminate | reflexivity].
Defined.

(** ** Leaving a title sub-stage *)

Lemma append_assoc_string (a b c : string) : (a ++ b) ++ c = a ++ (b ++ c).
Proof.
  induction a as [|x a IH]; [done |].
  change (String x ((a ++ b) ++ c) = String x (a ++ (b ++ c))). by f_equal.
Qed.

Lemma append_cancel_empty (a b : string) : a = a ++ b → b = "".
Proof.
  induction a as [|x a IH].
  - change ("" = b → b = ""). by intros <-.
  - change (String x a = String x (a ++ b) → b = "").
    intros [= e]. by apply IH.
Qed.

Lemma append_empty_inv (a b : string) : a ++ b = "" → a = "".
Proof. by destruct a. Qed.

(** X7: stage ids only grow into title sub-stages: a game that carries
    the base id again while a proper extension of it is tracked (for
    instance a regular game replayed after the title matches started)
    counts as a new stage, and every stage-scoped counter is emptied. *)
Theorem update_stage_back_to_base (base suffix : string) (self : Predictor) :
  stage self = Some (base ++ suffix) → suffix ≠ "" →
  stage (_update_stage base self) = Some base ∧
  base_stage (_update_stage base self) = Some base ∧
  stage_counters (_update_stage base self) = (∅, ∅, ∅, ∅, ∅, ∅).
Proof.
  intros es proper. unfold _update_stage.
  rewrite bool_decide_eq_false_2.
  2: { rewrite es. intros [= e]. by apply append_cancel_empty in e. }
  rewrite es. cbn [extends_stage].
  destruct (String.prefix (base ++ suffix) base) eqn:p; [| done].
  apply prefix_inv in p as [more e]. rewrite append_assoc_string in e.
  apply append_cancel_empty, append_empty_inv in e. done.
Qed.

(** From "s1-title" back to "s1", a stage win being on record. *)
Lemma update_stage_back_to_base_witness :
  let self :=
    set_stage_wins (incr "A" 1)
      (set_stage (Some "s1-title") (Some "s1") (fresh ∅)) in
  stage (_update_stage "s1" self) = Some "s1" ∧
  stage_wins (_update_stage "s1" self) = ∅.
Proof.
  intros self.
  destruct (update_stage_back_to_base "s1" "-title" self eq_refl)
    as (es & _ & ec); [discriminate |].
  split; [exact es | exact (f_equal (λ c, c.1.1.1.1.1) ec)].
Defined.

(** * Further properties of the series calculator *)

Section score_tables.
Local Open Scope R_scope.
Implicit Types (d : PScores) (k : Z * Z) (P : (Z * Z) * R → Prop).

Lemma od_set_entries {K V : Type} `{EqDecision K} (Q : K * V → Prop)
    (k : K) (v : V) (d : odict K V) :
  Forall Q d → Q (k, v) → Forall Q (od_set k v d).
Proof.
  intros all new. induction d as [|[k' v'] d IH]; cbn.
  - by constructor.
  - apply Forall_cons in all as [first all].
    destruct (decide (k' = k)) as [-> |]; constructor; auto.
Qed.

Lemma od_set_keys {K V : Type} `{EqDecision K} (k : K) (v : V) (d : odict K V) :
  NoDup (od_keys d) → NoDup (od_keys (od_set k v d)).
Proof.
  assert (∀ d : odict K V, ∀ x, x ∈ od_keys (od_set k v d) → x = k ∨ x ∈ od_keys d)
    as inside.
  { clear d. induction d as [|[k' v'] d IH]; cbn; intros x.
    - intros [-> | i]%elem_of_cons; [by left | by apply elem_of_nil in i].
    - destruct (decide (k' = k)) as [-> |]; cbn.
      + by right.
      + intros [-> | i]%elem_of_cons.
        * right. apply list_elem_of_here.
        * destruct (IH x i); [by left |]. right. by apply list_elem_of_further. }
  induction d as [|[k' v'] d IH]; cbn.
  - intros _. apply NoDup_singleton.
  - intros [fresh_k nodup]%NoDup_cons.
    destruct (decide (k' = k)) as [-> |]; cbn.
    + by apply NoDup_cons.
    + apply NoDup_cons. split; [| by apply IH].
      intros i. destruct (inside d k' i); done.
Qed.

(** [d[k] += v] keeps a property of the entries that holds of the new
    entry whatever value the key held. *)
Lemma od_add_entries P k v d :
  Forall P d →
  (∀ old, (k, old) ∈ d ∨ old = 0 → P (k, old + v)) →
  Forall P (od_add k v d).
Proof.
  intros all new. unfold od_add. apply od_set_entries; [done |].
  apply new. destruct (od_get k d) as [old|] eqn:e; cbn [default].
  - left. by apply od_get_Some.
  - by right.
Qed.

Lemma od_add_keys k v d : NoDup (od_keys d) → NoDup (od_keys (od_add k v d)).
Proof. apply od_set_keys. Qed.
End score_tables.

Section series_shape.
Local Open Scope R_scope.

(** Whether the probabilities are also tracked. *)
Variable tracked : Prop.

Lemma reached_add n k v d :
  Forall (reached tracked n) d →
  (0 ≤ k.1 ∧ 0 ≤ k.2 ∧ k.1 + k.2 ≤ n)%Z → (tracked → 0 <= v) →
  Forall (reached tracked n) (od_add k v d).
Proof.
  intros all key val. apply od_add_entries; [done |].
  intros old from. split; [done |]. cbn [snd]. intros t.
  assert (0 <= old).
  { destruct from as [i | ->]; [| lra].
    rewrite List.Forall_forall in all.
    apply list_elem_of_In, all in i. by apply i. }
  specialize (val t). lra.
Qed.

Lemma finished_add n k v d :
  Forall (finished tracked n) d →
  (k.1 ≠ k.2 ∧ 0 ≤ k.1 ∧ 0 ≤ k.2 ∧ k.1 + k.2 ≤ n + 1 ∧ Z.abs (k.1 - k.2) ≤ n)%Z →
  (tracked → 0 <= v) →
  Forall (finished tracked n) (od_add k v d).
Proof.
  intros all key val. apply od_add_entries; [done |].
  intros old from. split; [done |]. cbn [snd]. intros t.
  assert (0 <= old).
  { destruct from as [i | ->]; [| lra].
    rewrite List.Forall_forall in all.
    apply list_elem_of_In, all in i. by apply i. }
  specialize (val t). lra.
Qed.

Lemma reached_play_map n (drawable : bool) p_win p_draw p_loss p_scores :
  (tracked → 0 <= p_win ∧ 0 <= p_draw ∧ 0 <= p_loss) →
  Forall (reached tracked n) p_scores →
  Forall (reached tracked (n + 1)) (play_map drawable p_win p_draw p_loss p_scores) ∧
  NoDup (od_keys (play_map drawable p_win p_draw p_loss p_scores)).
Proof.
  intros ps. unfold play_map.
  enough (∀ acc, Forall (reached tracked (n + 1)) acc → NoDup (od_keys acc) →
            Forall (reached tracked n) p_scores →
            Forall (reached tracked (n + 1)) (fold_left
              (λ new_p_scores '((score1, score2), p),
                 let new_p_scores :=
                   od_add (score1 + 1, score2)%Z (p * p_win) new_p_scores in
                 let new_p_scores :=
                   od_add (score1, score2 + 1)%Z (p * p_loss) new_p_scores in
                 if drawable then od_add (score1, score2) (p * p_draw) new_p_scores
                 else new_p_scores) p_scores acc) ∧
            NoDup (od_keys (fold_left
              (λ new_p_scores '((score1, score2), p),
                 let new_p_scores :=
                   od_add (score1 + 1, score2)%Z (p * p_win) new_p_scores in
                 let new_p_scores :=
                   od_add (score1, score2 + 1)%Z (p * p_loss) new_p_scores in
                 if drawable then od_add (score1, score2) (p * p_draw) new_p_scores
                 else new_p_scores) p_scores acc))) as gen.
  { intros all. apply gen; [constructor | constructor | done]. }
  induction p_scores as [|[[score1 score2] p] rest IH]; intros acc ok nodup all;
    cbn [fold_left]; [done |].
  apply Forall_cons in all as [[key val] all]. cbn [fst snd] in key, val.
  assert (tracked → 0 <= p * p_win ∧ 0 <= p * p_loss ∧ 0 <= p * p_draw) as vs.
  { intros t. destruct (ps t) as (? & ? & ?). specialize (val t).
    repeat split; by apply Rmult_le_pos. }
  apply IH; [| | done].
  - destruct drawable; repeat apply reached_add; try done;
      cbn [fst snd]; try lia; intros t; by destruct (vs t) as (? & ? & ?).
  - destruct drawable; by repeat apply od_add_keys.
Qed.

Lemma reached_play_maps p_undrawable p_drawable drawables :
  (tracked → probabilities p_undrawable ∧ probabilities p_drawable) →
  ∀ n p_scores p_loss,
    Forall (reached tracked n) p_scores → NoDup (od_keys p_scores) →
    let out := play_maps p_undrawable p_drawable drawables p_scores p_loss in
    Forall (reached tracked (n + Z.of_nat (length drawables))) out.1 ∧
    NoDup (od_keys out.1).
Proof.
  intros ps. induction drawables as [|drawable rest IH];
    intros n p_scores p_loss all nodup; cbn [play_maps length].
  - by rewrite Z.add_0_r.
  - destruct (if drawable then p_drawable else p_undrawable) as [w d] eqn:e.
    destruct (reached_play_map n drawable w d (1 - w - d) p_scores)
      as [all' nodup']; [| done |].
    { intros t. destruct (ps t) as [pu pd].
      assert (probabilities (w, d)) as (? & ? & ?)
        by (rewrite <- e; by destruct drawable).
      cbn [fst snd] in *. repeat split; lra. }
    replace (n + Z.of_nat (S (length rest)))%Z
      with (n + 1 + Z.of_nat (length rest))%Z by lia.
    by apply IH.
Qed.

Lemma finished_tie_breaker n p_win p_loss p_scores :
  (1 ≤ n)%Z →
  (tracked → 0 <= p_win ∧ 0 <= p_loss) →
  Forall (reached tracked n) p_scores →
  ∃ d, tie_breaker p_win (Some p_loss) p_scores = Ok d ∧
       Forall (finished tracked n) d ∧ NoDup (od_keys d).
Proof.
  intros some ps. unfold tie_breaker.
  enough (∀ acc, Forall (finished tracked n) acc → NoDup (od_keys acc) →
            Forall (reached tracked n) p_scores →
            ∃ d, fold_left
              (λ res '((score1, score2), p),
                 match res with
                 | Raise e => Raise e
                 | Ok new_p_scores =>
                     if bool_decide (score1 = score2) then
                       let new_p_scores :=
                         od_add (score1 + 1, score2)%Z (p * p_win) new_p_scores in
                       match Some p_loss with
                       | Some p_loss =>
                           Ok (od_add (score1, score2 + 1)%Z (p * p_loss)
                                 new_p_scores)
                       | None => Raise UnboundLocalError
                       end
                     else Ok (od_add (score1, score2) p new_p_scores)
                 end) p_scores (Ok acc) = Ok d ∧
            Forall (finished tracked n) d ∧ NoDup (od_keys d)) as gen.
  { intros all. destruct (gen []) as (d & e & ok); [constructor..| done |].
    exists d. split; [exact e | done]. }
  induction p_scores as [|[[score1 score2] p] rest IH]; intros acc ok nodup all;
    cbn [fold_left].
  - by exists acc.
  - apply Forall_cons in all as [[key val] all]. cbn [fst snd] in key, val.
    case_bool_decide as tie.
    + destruct (IH (od_add (score1, score2 + 1)%Z (p * p_loss)
                     (od_add (score1 + 1, score2)%Z (p * p_win) acc)))
        as (d & e & ok'); [| | done |].
      * repeat apply finished_add; try done; cbn [fst snd]; try lia;
          intros t; destruct (ps t); specialize (val t); by apply Rmult_le_pos.
      * by repeat apply od_add_keys.
      * exists d. split; [exact e | done].
    + destruct (IH (od_add (score1, score2) p acc)) as (d & e & ok');
        [| | done |].
      * apply finished_add; try done; cbn [fst snd]; lia.
      * by apply od_add_keys.
      * exists d. split; [exact e | done].
Qed.

(** The table of a series of at least one map. *)
Lemma finished_bo_match_score p_undrawable p_drawable drawables :
  drawables ≠ [] →
  (tracked → probabilities p_undrawable ∧ probabilities p_drawable) →
  ∃ d, bo_match_score p_undrawable p_drawable drawables = Ok d ∧
       Forall (finished tracked (Z.of_nat (length drawables))) d ∧ NoDup (od_keys d).
Proof.
  intros some ps. unfold bo_match_score.
  destruct (play_maps _ _ _ _ _) as [p_scores p_loss] eqn:e.
  pose proof (play_maps_p_loss p_undrawable p_drawable drawables
                [((0, 0)%Z, 1)] None) as pl.
  destruct (reached_play_maps p_undrawable p_drawable drawables ps 0
              [((0, 0)%Z, 1)] None) as [all nodup].
  { constructor; [| constructor]. split; [cbn; lia | cbn; lra]. }
  { cbn. apply NoDup_singleton. }
  rewrite e in pl, all, nodup. cbn [fst snd] in pl, all, nodup.
  rewrite Z.add_0_l in all.
  destruct (last drawables) as [drawable|] eqn:la;
    [| by apply last_None in la].
  rewrite pl. cbn zeta.
  apply finished_tie_breaker; [destruct drawables; [done | cbn; lia] | | done].
  intros t. destruct (ps t) as [(? & ? & ?) (? & ? & ?)].
  split; [done |]. destruct drawable; lra.
Qed.
End series_shape.

Section series_tables.
Context {Self : Type}.
Variable predict :
  string * string → option (Roster * Roster) → bool → Self → (R * R) * Self.
Local Open Scope R_scope.

(** X8: a series of n >= 1 maps never ends level: the score table
    returned by the series calculator lists each score once, and every
    listed score (a, b) has a ≠ b, a, b >= 0, a + b <= n + 1 and
    |a - b| <= n, whatever the model predicts. *)
Theorem series_scores_shape (teams : string * string)
    (rosters : option (Roster * Roster)) (drawables : list bool) (self : Self) :
  drawables ≠ [] →
  ∃ d,
    (_predict_bo_match_score predict teams rosters drawables self).1 = Ok d ∧
    NoDup (od_keys d) ∧
    ∀ score1 score2 p, ((score1, score2), p) ∈ d →
      (score1 ≠ score2 ∧ 0 ≤ score1 ∧ 0 ≤ score2 ∧
       score1 + score2 ≤ Z.of_nat (length drawables) + 1 ∧
       Z.abs (score1 - score2) ≤ Z.of_nat (length drawables))%Z.
Proof.
  intros some. unfold _predict_bo_match_score.
  destruct (predict teams rosters false self) as [p_undrawable self1].
  destruct (predict teams rosters true self1) as [p_drawable self2].
  cbn [fst].
  destruct (finished_bo_match_score False p_undrawable p_drawable drawables
              some) as (d & run & all & nodup); [done |].
  exists d. repeat (split; [done |]).
  intros score1 score2 p i. rewrite List.Forall_forall in all.
  apply list_elem_of_In, all in i. by destruct i as [shape _].
Qed.

Lemma entry_below_total (d : PScores) :
  Forall (λ entry, 0 <= entry.2) d →
  0 <= total d ∧ ∀ k p, (k, p) ∈ d → p <= total d.
Proof.
  induction 1 as [|[k' p'] d first _ [pos below]]; cbn [total].
  - split; [lra |]. intros k p i. by apply elem_of_nil in i.
  - cbn [snd] in first. split; [lra |].
    intros k p [[= -> ->] | i]%elem_of_cons; [lra |].
    specialize (below k p i). lra.
Qed.

(** X9: when the model's two predictions are probabilities (win and
    draw nonnegative, summing to at most 1), every entry of the score
    table of a series of at least one map is nonnegative; if moreover
    the undrawable draw probability is 0 and the last map is
    undrawable, every entry is at most 1. *)
Theorem series_scores_probabilities (teams : string * string)
    (rosters : option (Roster * Roster)) (drawables : list bool) (self : Self) :
  let undrawable := predict teams rosters false self in
  let drawable := predict teams rosters true undrawable.2 in
  drawables ≠ [] →
  probabilities undrawable.1 → probabilities drawable.1 →
  ∃ d,
    (_predict_bo_match_score predict teams rosters drawables self).1 = Ok d ∧
    (∀ k p, (k, p) ∈ d → 0 <= p) ∧
    (undrawable.1.2 = 0 → last drawables = Some false →
     ∀ k p, (k, p) ∈ d → p <= 1).
Proof.
  intros undrawable drawable some pu pd. unfold _predict_bo_match_score.
  subst drawable undrawable.
  destruct (predict teams rosters false self) as [p_undrawable self1].
  cbn [fst snd] in *.
  destruct (predict teams rosters true self1) as [p_drawable self2].
  cbn [fst snd] in *.
  destruct (finished_bo_match_score True p_undrawable p_drawable drawables
              some) as (d & run & all & nodup); [done |].
  exists d. split; [done |].
  assert (Forall (λ entry, 0 <= entry.2) d) as pos.
  { eapply Forall_impl; [exact all |]. intros entry [_ val]. by apply val. }
  destruct (entry_below_total d pos) as [_ below].
  split.
  - intros k p i. rewrite List.Forall_forall in pos.
    by apply list_elem_of_In, pos in i.
  - intros nodraw la k p i.
    destruct (bo_match_score_total p_undrawable p_drawable drawables nodraw la)
      as (d' & run' & one).
    rewrite run in run'. injection run' as <-.
    rewrite <- one. by apply (below k).
Qed.

End series_tables.

(** The title format: five maps, scores up to 5-0 and 3-3 broken. *)
Lemma series_scores_shape_witness :
  ∃ d,
    (_predict_bo_match_score (constant_model (0.5, 0)%R (0.25, 0.5)%R)
       ("A", "B") None [false; false; true; true; false] tt).1 = Ok d ∧
    NoDup (od_keys d) ∧
    ∀ score1 score2 p, ((score1, score2), p) ∈ d →
      (score1 ≠ score2 ∧ Z.abs (score1 - score2) ≤ 5)%Z.
Proof.
  destruct (series_scores_shape (constant_model (0.5, 0)%R (0.25, 0.5)%R)
              ("A", "B") None [false; false; true; true; false] tt)
    as (d & run & nodup & shape); [discriminate |].
  exists d. split; [exact run |]. split; [exact nodup |].
  intros score1 score2 p i.
  destruct (shape score1 score2 p i) as (untied & _ & _ & _ & bound).
  split; [exact untied | exact bound].
Defined.

(** Valid predictions, a regular series. *)
Lemma series_scores_probabilities_witness :
  ∃ d,
    (_predict_bo_match_score (constant_model (0.5, 0)%R (0.25, 0.5)%R)
       ("A", "B") None [true; false; true; false] tt).1 = Ok d ∧
    (∀ k p, (k, p) ∈ d → (0 <= p)%R) ∧ (∀ k p, (k, p) ∈ d → (p <= 1)%R).
Proof.
  destruct (series_scores_probabilities
              (constant_model (0.5, 0)%R (0.25, 0.5)%R)
              ("A", "B") None [true; false; true; false] tt)
    as (d & run & pos & below).
  - discriminate.
  - unfold probabilities. cbn. lra.
  - unfold probabilities. cbn. lra.
  - exists d. split; [exact run |]. split; [exact pos |].
    apply below; reflexivity.
Defined.

(** * Match formats *)

Section formats.
Context {Self : Type}.
Variable predict :
  string * string → option (Roster * Roster) → bool → Self → (R * R) * Self.
Local Open Scope R_scope.

(** The scores a series can end with depend on the flags only. *)
Lemma regular_scores (p_undrawable p_drawable : R * R) (d : PScores) :
  bo_match_score p_undrawable p_drawable [true; false; true; false] = Ok d →
  od_keys d
  = [(4, 0); (3, 1); (3, 2); (2, 3); (3, 0); (2, 1);
     (1, 3); (1, 2); (0, 4); (0, 3); (2, 0); (0, 2)]%Z.
Proof.
  destruct p_undrawable as [wu du], p_drawable as [wd dd]. intros run.
  vm_compute in run. by injection run as <-.
Qed.

Lemma title_scores (p_undrawable p_drawable : R * R) (d : PScores) :
  bo_match_score p_undrawable p_drawable [false; false; true; true; false]
    = Ok d →
  od_keys d
  = [(5, 0); (4, 1); (3, 2); (4, 0); (3, 1); (2, 3); (3, 0);
     (2, 1); (1, 4); (1, 3); (1, 2); (0, 5); (0, 4); (0, 3)]%Z.
Proof.
  destruct p_undrawable as [wu du], p_drawable as [wd dd]. intros run.
  vm_compute in run. by injection run as <-.
Qed.

(** The table of a series that ends with an undrawable map. *)
Lemma series_table (teams : string * string)
    (rosters : option (Roster * Roster)) (drawables : list bool) (self : Self) :
  last drawables = Some false →
  let undrawable := predict teams rosters false self in
  let drawable := predict teams rosters true undrawable.2 in
  ∃ d,
    _predict_bo_match_score predict teams rosters drawables self
      = (Ok d, drawable.2) ∧
    bo_match_score undrawable.1 drawable.1 drawables = Ok d ∧
    NoDup (od_keys d) ∧
    (∀ score1 score2 p, ((score1, score2), p) ∈ d → score1 ≠ score2) ∧
    (probabilities undrawable.1 → probabilities drawable.1 →
     undrawable.1.2 = 0 →
     (∀ k p, (k, p) ∈ d → 0 <= p) ∧ total d = 1).
Proof.
  intros la undrawable drawable. unfold _predict_bo_match_score.
  subst drawable undrawable.
  destruct (predict teams rosters false self) as [p_undrawable self1].
  cbn [fst snd].
  destruct (predict teams rosters true self1) as [p_drawable self2].
  cbn [fst snd].
  assert (drawables ≠ []) as some by (by intros ->).
  destruct (finished_bo_match_score
              (probabilities p_undrawable ∧ probabilities p_drawable)
              p_undrawable p_drawable drawables some)
    as (d & run & all & nodup); [done |].
  exists d. rewrite run. repeat (split; [done |]).
  rewrite List.Forall_forall in all. split.
  - intros score1 score2 p i. apply list_elem_of_In, all in i.
    by destruct i as [(untied & _) _].
  - intros pu pd nodraw. split.
    + intros k p i. apply list_elem_of_In, all in i.
      destruct i as [_ val]. by apply val.
    + destruct (bo_match_score_total p_undrawable p_drawable drawables
                  nodraw la) as (d' & run' & one).
      rewrite run in run'. by injection run' as <-.
Qed.

(** C9: [predict_match_score] runs the series calculation on the
    maps drawable, undrawable, drawable, undrawable (plus the
    tie-breaker) for the format 'regular' and on undrawable,
    undrawable, drawable, drawable, undrawable (plus the tie-breaker)
    for 'title'.  In both cases it returns a table of the scores the
    series can end with: each once, none of them tied (4-0 to 0-4 and
    the broken ties 3-2 and 2-3 for 'regular'; 5-0 to 0-5 with 3-2 and
    2-3 for 'title'), and, when the model's two predictions are
    probabilities and the undrawable prediction has no draw, with
    nonnegative entries that sum to 1 (floats read as reals).  For
    every other format it raises [NotImplementedError] and leaves the
    predictor as it was. *)
Theorem predict_match_score_formats (teams : string * string)
    (rosters : option (Roster * Roster)) (match_format : string)
    (self : Self) :
  let undrawable := predict teams rosters false self in
  let drawable := predict teams rosters true undrawable.2 in
  let distribution (d : PScores) :=
    NoDup (od_keys d) ∧
    (∀ score1 score2 p, ((score1, score2), p) ∈ d → score1 ≠ score2) ∧
    (probabilities undrawable.1 → probabilities drawable.1 →
     undrawable.1.2 = 0 →
     (∀ k p, (k, p) ∈ d → 0 <= p) ∧ total d = 1) in
  (match_format = "regular" →
     predict_match_score predict teams rosters match_format self
       = _predict_bo_match_score predict teams rosters
           [true; false; true; false] self ∧
     ∃ d,
       predict_match_score predict teams rosters match_format self
         = (Ok d, drawable.2) ∧
       od_keys d
       = [(4, 0); (3, 1); (3, 2); (2, 3); (3, 0); (2, 1);
          (1, 3); (1, 2); (0, 4); (0, 3); (2, 0); (0, 2)]%Z ∧
       distribution d) ∧
  (match_format = "title" →
     predict_match_score predict teams rosters match_format self
       = _predict_bo_match_score predict teams rosters
           [false; false; true; true; false] self ∧
     ∃ d,
       predict_match_score predict teams rosters match_format self
         = (Ok d, drawable.2) ∧
       od_keys d
       = [(5, 0); (4, 1); (3, 2); (4, 0); (3, 1); (2, 3); (3, 0);
          (2, 1); (1, 4); (1, 3); (1, 2); (0, 5); (0, 4); (0, 3)]%Z ∧
       distribution d) ∧
  (match_format ≠ "regular" → match_format ≠ "title" →
     predict_match_score predict teams rosters match_format self
       = (Raise NotImplementedError, self)).
Proof.
  intros undrawable drawable distribution.
  unfold predict_match_score. split; [| split].
  - intros ->. cbn [String.eqb Ascii.eqb Bool.eqb]. split; [done |].
    destruct (series_table teams rosters [true; false; true; false] self
                eq_refl) as (d & run & table & shape).
    exists d. split; [exact run |]. split; [| exact shape].
    exact (regular_scores _ _ d table).
  - intros ->. cbn [String.eqb Ascii.eqb Bool.eqb]. split; [done |].
    destruct (series_table teams rosters [false; false; true; true; false]
                self eq_refl) as (d & run & table & shape).
    exists d. split; [exact run |]. split; [| exact shape].
    exact (title_scores _ _ d table).
  - intros nr nt. apply String.eqb_neq in nr, nt. by rewrite nr, nt.
Qed.
End formats.

(** The three cases on the constant model. *)
Lemma predict_match_score_formats_witness :
  let model := constant_model (0.5, 0)%R (0.25, 0.5)%R in
  (∃ d, predict_match_score model ("A", "B") None "regular" tt = (Ok d, tt) ∧
        length d = 12%nat ∧ total d = 1%R) ∧
  (∃ d, predict_match_score model ("A", "B") None "title" tt = (Ok d, tt) ∧
        length d = 14%nat ∧ total d = 1%R) ∧
  predict_match_score model ("A", "B") None "bo3" tt
    = (Raise NotImplementedError, tt).
Proof.
  intros model.
  assert (probabilities (0.5, 0)%R) as pu by (unfold probabilities; cbn; lra).
  assert (probabilities (0.25, 0.5)%R) as pd by (unfold probabilities; cbn; lra).
  split; [| split].
  - destruct (predict_match_score_formats model ("A", "B") None "regular" tt)
      as (regular & _ & _).
    destruct (regular eq_refl) as (_ & d & run & keys & _ & _ & mass).
    exists d. split; [exact run |]. split.
    + rewrite <- (length_map fst). unfold od_keys in keys. by rewrite keys.
    + by apply mass.
  - destruct (predict_match_score_formats model ("A", "B") None "title" tt)
      as (_ & title & _).
    destruct (title eq_refl) as (_ & d & run & keys & _ & _ & mass).
    exists d. split; [exact run |]. split.
    + rewrite <- (length_map fst). unfold od_keys in keys. by rewrite keys.
    + by apply mass.
  - destruct (predict_match_score_formats model ("A", "B") None "bo3" tt)
      as (_ & _ & other).
    apply other; discriminate.
Defined.

(** * Match prediction *)

Section match_prediction.
Context {Self : Type}.
Variable predict :
  string * string → option (Roster * Roster) → bool → Self → (R * R) * Self.
Local Open Scope R_scope.

Lemma IZR_abs_bound (x n : Z) : (Z.abs x ≤ n)%Z → - IZR n <= IZR x <= IZR n.
Proof.
  intros b. rewrite <- opp_IZR. split; apply IZR_le; lia.
Qed.

(** The two sums of [predict_match] over a finished table. *)
Lemma win_and_diff_bounds (n : Z) (d : PScores) :
  Forall (finished True n) d →
  0 <= (win_and_diff d).1 <= total d ∧
  - (IZR n * total d) <= (win_and_diff d).2 <= IZR n * total d.
Proof.
  unfold win_and_diff.
  enough (∀ w e, Forall (finished True n) d →
            let sums := fold_left
              (λ (sums : R * R) (item : (Z * Z) * R),
                 let '(p_win, e_diff) := sums in
                 let '((score1, score2), p) := item in
                 (if bool_decide (score1 > score2)%Z then (p_win + p)%R
                  else p_win,
                  (e_diff + p * IZR (score1 - score2))%R)) d (w, e) in
            w <= sums.1 <= w + total d ∧
            e - IZR n * total d <= sums.2 <= e + IZR n * total d) as gen.
  { intros all. destruct (gen 0 0 all) as [win diff]. split; lra. }
  induction d as [|[[score1 score2] p] rest IH]; intros w e all;
    cbn [fold_left total].
  - cbn. lra.
  - apply Forall_cons in all as [[key val] all]. cbn [fst snd] in key, val.
    specialize (val I).
    destruct key as (_ & _ & _ & _ & bound). apply IZR_abs_bound in bound.
    assert (0 <= total rest) as pos.
    { apply entry_below_total. eapply Forall_impl; [exact all |].
      intros entry [_ v]. by apply v. }
    assert (- (IZR n * p) <= p * IZR (score1 - score2) <= IZR n * p) by nra.
    case_bool_decide.
    + destruct (IH (w + p) (e + p * IZR (score1 - score2)) all) as [win diff].
      cbn zeta in win, diff. split; nra.
    + destruct (IH w (e + p * IZR (score1 - score2)) all) as [win diff].
      cbn zeta in win, diff. split; nra.
Qed.

(** X10: [predict_match] on probabilities whose undrawable draw
    probability is 0, in exact arithmetic (floats read as reals; the
    sums of a binary64 run can pass the bounds by a rounding error):
    for the regular format it returns a win probability in [0,1] and
    an expected map differential in [-4,4], for the title format a win
    probability in [0,1] and an expected differential in [-5,5].  For
    any other format it raises [NotImplementedError] and leaves the
    predictor as it was, whatever the arithmetic. *)
Theorem predict_match_bounds (teams : string * string)
    (rosters : option (Roster * Roster)) (match_format : string) (self : Self) :
  let undrawable := predict teams rosters false self in
  let drawable := predict teams rosters true undrawable.2 in
  probabilities undrawable.1 → probabilities drawable.1 →
  undrawable.1.2 = 0 →
  (match_format = "regular" →
     ∃ p_win e_diff,
       (predict_match predict teams rosters match_format self).1
         = Ok (p_win, e_diff) ∧
       0 <= p_win <= 1 ∧ -4 <= e_diff <= 4) ∧
  (match_format = "title" →
     ∃ p_win e_diff,
       (predict_match predict teams rosters match_format self).1
         = Ok (p_win, e_diff) ∧
       0 <= p_win <= 1 ∧ -5 <= e_diff <= 5) ∧
  (match_format ≠ "regular" → match_format ≠ "title" →
     predict_match predict teams rosters match_format self
       = (Raise NotImplementedError, self)).
Proof.
  intros undrawable drawable pu pd nodraw.
  assert (∀ drawables, drawables ≠ [] → last drawables = Some false →
    ∃ d, _predict_bo_match_score predict teams rosters drawables self
           = (Ok d, drawable.2) ∧
         0 <= (win_and_diff d).1 <= 1 ∧
         - IZR (Z.of_nat (length drawables)) <= (win_and_diff d).2
           <= IZR (Z.of_nat (length drawables))) as series.
  { intros drawables some la. unfold _predict_bo_match_score.
    subst drawable undrawable.
    destruct (predict teams rosters false self) as [p_undrawable self1].
    cbn [fst snd] in *.
    destruct (predict teams rosters true self1) as [p_drawable self2].
    cbn [fst snd] in *.
    destruct (finished_bo_match_score True p_undrawable p_drawable drawables
                some) as (d & run & all & _); [done |].
    destruct (bo_match_score_total p_undrawable p_drawable drawables nodraw la)
      as (d' & run' & one).
    rewrite run in run'. injection run' as <-.
    exists d. rewrite run. split; [done |].
    pose proof (win_and_diff_bounds _ d all) as [win diff].
    rewrite one in win, diff. split; lra. }
  unfold predict_match, predict_match_score. split; [| split].
  - intros ->. cbn [String.eqb Ascii.eqb Bool.eqb].
    destruct (series [true; false; true; false]) as (d & -> & win & diff);
      [done | done |].
    exists (win_and_diff d).1, (win_and_diff d).2. cbn [fst length] in *.
    split; [by destruct (win_and_diff d) |]. split; [done |].
    change (Z.of_nat 4) with 4%Z in diff. lra.
  - intros ->. cbn [String.eqb Ascii.eqb Bool.eqb].
    destruct (series [false; false; true; true; false])
      as (d & -> & win & diff); [done | done |].
    exists (win_and_diff d).1, (win_and_diff d).2. cbn [fst length] in *.
    split; [by destruct (win_and_diff d) |]. split; [done |].
    change (Z.of_nat 5) with 5%Z in diff. lra.
  - intros nr nt. apply String.eqb_neq in nr, nt. by rewrite nr, nt.
Qed.
End match_prediction.

(** The constant model, the three cases. *)
Lemma predict_match_bounds_witness :
  let model := constant_model (0.5, 0)%R (0.25, 0.5)%R in
  (∃ p_win e_diff,
     (predict_match model ("A", "B") None "regular" tt).1 = Ok (p_win, e_diff) ∧
     (0 <= p_win <= 1)%R ∧ (-4 <= e_diff <= 4)%R) ∧
  predict_match model ("A", "B") None "bo3" tt = (Raise NotImplementedError, tt).
Proof.
  intros model.
  assert (probabilities (0.5, 0)%R) as pu by (unfold probabilities; cbn; lra).
  assert (probabilities (0.25, 0.5)%R) as pd by (unfold probabilities; cbn; lra).
  split.
  - destruct (predict_match_bounds model ("A", "B") None "regular" tt pu pd
                eq_refl) as (regular & _ & _).
    exact (regular eq_refl).
  - destruct (predict_match_bounds model ("A", "B") None "bo3" tt pu pd
                eq_refl) as (_ & _ & other).
    apply other; discriminate.
Defined.

(** * The heuristic model *)

Section heuristic.
Local Open Scope R_scope.

(** X11: the heuristic model is consistent under a swap of the two
    teams, in exact arithmetic (floats read as reals; the binary64
    sum is 1 up to the rounding of 0.5 + alpha and 0.5 - alpha, which
    is exact for the default alpha = 0.2 and loses everything for an
    alpha as large as 1e16): when the head-to-head table reads
    opposite values for the two orders of the pair (as the standings
    update keeps it), the win probabilities it gives for (A, B) and
    for (B, A) sum to 1. *)
Theorem heuristic_complement (self : SimplePredictor.t) (A B : string)
    (rosters rosters' : option (Roster * Roster)) (drawable drawable' : bool) :
  getd (head_to_head_map_diffs (SimplePredictor.base self)) (A, B)
    = (- getd (head_to_head_map_diffs (SimplePredictor.base self)) (B, A))%Z →
  (SimplePredictor.predict self (A, B) rosters drawable).1
  + (SimplePredictor.predict self (B, A) rosters' drawable').1 = 1.
Proof.
  intros anti. unfold SimplePredictor.predict. cbn [fst].
  rewrite anti. repeat case_bool_decide; try lia; lra.
Qed.

(** Map-diffs 3 and -3, head-to-head 2 and -2. *)
Lemma heuristic_complement_witness :
  let self :=
    SimplePredictor.mk
      (set_head_to_head_map_diffs
         (λ _, <[("B", "A") := (-2)%Z]> (<[("A", "B") := 2%Z]> ∅))
         (set_map_diffs (λ _, <["B" := (-3)%Z]> (<["A" := 3%Z]> ∅)) (fresh ∅)))
      0.2 0.1 in
  (SimplePredictor.predict self ("A", "B") None false).1
  + (SimplePredictor.predict self ("B", "A") None true).1 = 1.
Proof.
  intros self.
  apply (heuristic_complement self "A" "B" None None false true).
  reflexivity.
Defined.

(** X12: for the heuristic model, whatever alpha, beta and the
    standings are, [predict_match_score] in the regular and in the
    title format returns a score table and leaves the predictor as it
    is; in exact arithmetic (floats read as reals) the probabilities
    of the table sum to 1 (a binary64 run with the default alpha = 0.2
    sums to 0.9999999999999999). *)
Theorem heuristic_series_sum_to_one (self : SimplePredictor.t)
    (teams : string * string) (rosters : option (Roster * Roster)) :
  (∃ d, predict_match_score simple_model teams rosters "regular" self
          = (Ok d, self) ∧ total d = 1) ∧
  (∃ d, predict_match_score simple_model teams rosters "title" self
          = (Ok d, self) ∧ total d = 1).
Proof.
  assert (∀ drawables, last drawables = Some false →
    ∃ d, _predict_bo_match_score simple_model teams rosters drawables self
           = (Ok d, self) ∧ total d = 1) as series.
  { intros drawables la. unfold _predict_bo_match_score, simple_model.
    destruct (bo_match_score_total
                (SimplePredictor.predict self teams rosters false)
                (SimplePredictor.predict self teams rosters true)
                drawables) as (d & -> & one); [| done |].
    - unfold SimplePredictor.predict. by destruct teams.
    - by exists d. }
  split; by apply series.
Qed.
End heuristic.

(** * The player-based model *)

Section player_ratings.
Import PlayerTrueSkillPredictor.
Local Open Scope R_scope.

(** X13: the best roster holds eligible players only.  When
    [_update_best_roster] returns a roster, the roster consists of
    eligible players; it is one of the team's queued rosters or, when
    no queued roster is fully eligible, it has min(6, number of
    eligible players) players, without repetition if the eligible
    players are listed without repetition; every queued roster has a
    member of uncertainty other than 0; the roster is stored as the
    team's best roster and nothing else changes.  When
    [_update_best_roster] raises, the exception is the ValueError of
    the rating constructor, the queue holds a roster none of whose
    members has an uncertainty other than 0 (an empty roster, for one),
    and nothing has changed.  The predictor is one whose environment
    can create the prior rating (sigma other than 0). *)
Theorem best_roster_eligible (self : t) (team : string) (members : list string)
    (prior : creates_prior self) :
  let queue := default [] (roster_queues (base self) !! team) in
  match _update_best_roster team members self with
  | (Ok best, self') =>
      Forall (λ name, name ∈ members) best ∧
      (best ∈ queue ∨
       (Forall (λ roster, ¬ Forall (λ name, name ∈ members) roster) queue ∧
        length best = Nat.min 6 (length members) ∧
        (NoDup members → NoDup best))) ∧
      Forall (λ roster, ¬ zero_sigma self roster) queue ∧
      self' = set_best_rosters <[team := best]> self
  | (Raise e, self') =>
      e = ValueError ∧ Exists (zero_sigma self) queue ∧ self' = self
  end.
Proof.
  intros queue.
  destruct (_update_best_roster team members self) as [[best|e] self'] eqn:run.
  2: { by apply update_best_roster_raises in run as (-> & -> & zero). }
  pose proof (sorted_reverse_by_spec (_min_roster_rating self) queue) as sorted.
  destruct (sorted_reverse_by (_min_roster_rating self) queue)
    as [rosters|e] eqn:sort.
  2: { unfold _update_best_roster in run.
       change (default [] (roster_queues (base self) !! team)) with queue in run.
       by rewrite sort in run. }
  destruct sorted as [perm keys].
  destruct (update_best_roster_sorted team members self rosters sort)
    as (best' & run' & chosen).
  rewrite run in run'. injection run' as <- ->.
  destruct (sorted_reverse_spec (_min_rating self) members) as [perm' _].
  split; [| split; [| split; [| done]]].
  - destruct chosen as [(skipped & rest & _ & _ & yes) | [_ ->]]; [done |].
    apply List.Forall_forall. intros name i. apply list_elem_of_In in i.
    apply elem_of_take in i as (n & i & _).
    apply list_elem_of_lookup_2 in i. by rewrite perm' in i.
  - destruct chosen as [(skipped & rest & e & _ & _) | [none ->]].
    + left. rewrite <- perm, e. apply elem_of_app. right.
      apply elem_of_cons. by left.
    + right. split; [by rewrite <- perm |]. split.
      * rewrite length_take. by rewrite perm'.
      * intros nodup. rewrite <- perm' in nodup.
        eapply sublist_NoDup; [exact nodup | apply sublist_take].
  - eapply Forall_impl; [exact keys |]. intros roster [k key] zero.
    destruct (min_roster_rating_cases self roster) as [raises _].
    by rewrite (raises zero) in key.
Qed.

(** The sample team: the selected roster X is made of eligible
    players. *)
Lemma best_roster_eligible_witness :
  Forall (λ name, name ∈ Sample.members) Sample.X.
Proof.
  assert (creates_prior Sample.player_model) as prior.
  { unfold creates_prior. cbn. lra. }
  pose proof (best_roster_eligible Sample.player_model "T" Sample.members prior)
    as cases.
  cbv zeta in cases.
  rewrite (sample_best Sample.player_model sample_model_X sample_model_Y
             sample_model_queue) in cases.
  by destruct cases.
Defined.

(** X14: when the availabilities hold no member list for the team's
    current match (no stage yet, no entry for the stage and match
    number, or no entry for the team), [_record_team_ratings] raises
    KeyError and changes nothing; the loop body of
    [_update_teams_ratings] then raises KeyError with the new player
    ratings already stored, and the best roster, the team rating and
    the history untouched. *)
Theorem record_team_ratings_missing (self : t) (team : string)
    (roster : Roster) (new_ratings : list Rating) :
  (∀ stg per_team,
     stage (base self) = Some stg →
     availabilities (base self) !! (stg, match_number team self) = Some per_team →
     per_team !! team = None) →
  _record_team_ratings team self = (Raise KeyError, self) ∧
  update_team_ratings team roster new_ratings self
    = (Raise KeyError, store_player_ratings roster new_ratings self).
Proof.
  intros missing.
  assert (∀ self', base self' = base self →
            _record_team_ratings team self' = (Raise KeyError, self')) as raises.
  { intros self' same. unfold _record_team_ratings, match_number.
    rewrite same. fold (match_number team self).
    destruct (stage (base self)) as [stg|] eqn:es; [| done].
    destruct (availabilities (base self) !! (stg, match_number team self))
      as [per_team|] eqn:ea; [| done].
    by rewrite (missing stg per_team eq_refl ea). }
  split; [by apply raises |].
  unfold update_team_ratings. by rewrite raises.
Qed.

(** The loop that records the members' ratings. *)
Lemma record_members_lookup (f : string → Rating) (members : list string)
    (before : gmap string Rating) (name : string) :
  foldl (λ ratings name, <[name := f name]> ratings) before members !! name
  = if decide (name ∈ members) then Some (f name) else before !! name.
Proof.
  revert before. induction members as [|first members IH]; intros before;
    cbn [foldl].
  - rewrite decide_False; [done | apply not_elem_of_nil].
  - rewrite IH. destruct (decide (name ∈ members)) as [i | ni].
    + rewrite decide_True; [done | by apply elem_of_cons; right].
    + destruct (decide (name = first)) as [-> | ne].
      * rewrite lookup_insert_eq, decide_True; [done | by apply elem_of_cons; left].
      * rewrite lookup_insert_ne by done. rewrite decide_False; [done |].
        by intros [? | ?]%elem_of_cons.
Qed.

(** X15: the snapshot of a match.  When the availabilities hold the
    team's members for its current match, [_record_team_ratings]
    leaves in the history, under (stage, match number), a snapshot
    that holds the current rating of every member and whatever an
    earlier record of the same match had put there for any other
    name, whether it returns or raises; the snapshots of the other
    matches are as before.  When it returns, the snapshot holds the
    returned rating under the team's name, and that rating is the
    summary of the roster stored as the team's best roster, which has
    a member of uncertainty other than 0.  When it raises, the
    exception is the ValueError of the rating constructor (a queued
    roster or the selected roster has no member of uncertainty other
    than 0) and the snapshot holds no new entry for the team.  The
    predictor is one whose environment can create the prior rating
    (sigma other than 0). *)
Theorem snapshot_records_members (self : t) (team stg : string)
    (per_team : gmap string (list string)) (members : list string) :
  creates_prior self →
  stage (base self) = Some stg →
  availabilities (base self) !! (stg, match_number team self) = Some per_team →
  per_team !! team = Some members →
  let key := (stg, match_number team self) in
  let before := default ∅ (od_get key (ratings_history self)) in
  let out := _record_team_ratings team self in
  ∃ snapshot,
    od_get key (ratings_history out.2) = Some snapshot ∧
    (∀ name, name ∈ members → name ≠ team →
       snapshot !! name = Some (rating_of self name)) ∧
    (∀ name, name ∉ members → name ≠ team →
       snapshot !! name = before !! name) ∧
    (∀ other, other ≠ key →
       od_get other (ratings_history out.2)
       = od_get other (ratings_history self)) ∧
    match out.1 with
    | Ok rating =>
        snapshot !! team = Some rating ∧
        ∃ best,
          best_rosters out.2 !! team = Some best ∧
          rating = summary self best ∧ ¬ zero_sigma self best
    | Raise e =>
        e = ValueError ∧
        snapshot !! team
        = if decide (team ∈ members) then Some (rating_of self team)
          else before !! team
    end.
Proof.
  intros _ es ea em key before out. subst out. unfold _record_team_ratings.
  rewrite es, ea, em. fold key. rewrite update_best_roster_history.
  pose proof (update_best_roster_state team members self) as state.
  destruct (_update_best_roster team members self) as [[best|e] self1] eqn:sel;
    cbn [fst snd].
  - subst self1.
    change (_roster_rating (set_ratings_history ?f (set_best_rosters ?g self))
              best) with (_roster_rating self best).
    destruct (_roster_rating self best) as [rating|e] eqn:rate; cbn [fst snd].
    + destruct (roster_rating_returns self best rating rate) as [-> some].
      eexists. cbn.
      split; [rewrite od_get_set; by rewrite decide_True |].
      split; [| split; [| split]].
      * intros name i ne. rewrite lookup_insert_ne by done.
        rewrite record_members_lookup. by rewrite decide_True.
      * intros name ni ne. rewrite lookup_insert_ne by done.
        rewrite record_members_lookup. by rewrite decide_False.
      * intros other ne. rewrite !od_get_set. by rewrite !decide_False.
      * split; [apply lookup_insert_eq |]. exists best.
        split; [apply lookup_insert_eq | done].
    + apply roster_rating_raises in rate as [-> zero].
      eexists. cbn.
      split; [rewrite od_get_set; by rewrite decide_True |].
      split; [| split; [| split]].
      * intros name i ne. rewrite record_members_lookup. by rewrite decide_True.
      * intros name ni ne. rewrite record_members_lookup. by rewrite decide_False.
      * intros other ne. rewrite od_get_set. by rewrite decide_False.
      * split; [done |]. apply record_members_lookup.
  - apply update_best_roster_raises in sel as (-> & -> & zero).
    eexists. cbn.
    split; [rewrite od_get_set; by rewrite decide_True |].
    split; [| split; [| split]].
    + intros name i ne. rewrite record_members_lookup. by rewrite decide_True.
    + intros name ni ne. rewrite record_members_lookup. by rewrite decide_False.
    + intros other ne. rewrite od_get_set. by rewrite decide_False.
    + split; [done |]. apply record_members_lookup.
Qed.

(** X16: storing the new player ratings.  After the loop that
    assigns the ratings of a game to a roster, a player outside the
    first [len(ratings)] names of the roster has the rating it had;
    and if the roster names each player once, the player at position
    i has the i-th new rating.  Nothing but the rating jar changes. *)
Theorem store_player_ratings_lookup (self : t) (roster : Roster)
    (new_ratings : list Rating) :
  let self' := store_player_ratings roster new_ratings self in
  (∀ name, name ∉ take (length new_ratings) roster →
     rating_of self' name = rating_of self name) ∧
  (NoDup roster → ∀ i name rating,
     roster !! i = Some name → new_ratings !! i = Some rating →
     rating_of self' name = rating) ∧
  base self' = base self ∧ best_rosters self' = best_rosters self ∧
  ratings_history self' = ratings_history self.
Proof.
  intros self'. subst self'. unfold store_player_ratings, rating_of. cbn.
  split; [| split; [| done]].
  - intros name ni. rewrite <- zip_names in ni.
    destruct (store_pairs_lookup (zip roster new_ratings) (ratings self) name)
      as [out _].
    by rewrite out.
  - intros nodup i name rating en er.
    destruct (store_pairs_lookup (zip roster new_ratings) (ratings self) name)
      as [_ inside].
    rewrite (inside) with (rating := rating); [done | |].
    + rewrite zip_names. eapply sublist_NoDup; [done | apply sublist_take].
    + apply (list_elem_of_lookup_2 _ i). by apply lookup_zip_Some.
Qed.

Lemma sum_squares_below (l : list R) :
  Forall (λ x, 0 <= x) l →
  0 <= sum l ∧ 0 <= sum (map (λ x, x ^ 2) l) <= sum l * sum l.
Proof.
  induction 1 as [|x l pos _ (total & squares & below)];
    cbn [map]; [cbn; lra |].
  rewrite !sum_cons. split; [lra |]. split; nra.
Qed.

(** X17: a roster is never scored below the average of its players,
    in exact arithmetic (floats read as reals; the bound is attained
    by a roster of one player, so a binary64 run can fall short of it
    by a rounding error).  When [_min_roster_rating] returns the score
    of a roster none of whose members has a negative uncertainty, the
    score is at least the sum of the members' individual scores
    [_min_rating] divided by 6. *)
Theorem roster_score_above_average (self : t) (roster : Roster) (score : R) :
  _min_roster_rating self roster = Ok score →
  Forall (λ name, 0 <= Rating.sigma (rating_of self name)) roster →
  sum (map (_min_rating self) roster) / 6 <= score.
Proof.
  intros run pos. unfold _min_roster_rating in run.
  destruct (_roster_rating self roster) as [rating|e] eqn:rate; [| done].
  apply roster_rating_returns in rate as [-> _].
  assert (score = Rating.mu (summary self roster)
                  - 3 * Rating.sigma (summary self roster)) as ->
    by (by injection run).
  clear run. unfold summary, _min_rating. cbn [Rating.mu Rating.sigma].
  set (mus := map (λ name, Rating.mu (rating_of self name)) roster).
  set (sigmas := map (λ name, Rating.sigma (rating_of self name)) roster).
  assert (sum (map (λ name, Rating.mu (rating_of self name)
                            - 3 * Rating.sigma (rating_of self name)) roster)
          = sum mus - 3 * sum sigmas) as ->.
  { subst mus sigmas. clear pos. induction roster as [|name roster IH];
      cbn [map]; [cbn; lra |].
    rewrite !sum_cons, IH. lra. }
  assert (map (λ name, Rating.sigma (rating_of self name) ^ 2) roster
          = map (λ x, x ^ 2) sigmas) as ->.
  { subst sigmas. by rewrite map_map. }
  destruct (sum_squares_below sigmas) as (total & squares & below).
  { subst sigmas. apply List.Forall_forall. intros x i.
    apply in_map_iff in i as (name & <- & i).
    rewrite List.Forall_forall in pos. by apply pos. }
  assert (sqrt (sum (map (λ x, x ^ 2) sigmas)) <= sum sigmas) as root.
  { apply sqrt_le_1_alt in below. by rewrite sqrt_square in below. }
  lra.
Qed.
End player_ratings.

(** Team U has no entry in the availabilities of the sample. *)
Lemma record_team_ratings_missing_witness :
  PlayerTrueSkillPredictor._record_team_ratings "U" Sample.player_model
    = (Raise KeyError, Sample.player_model) ∧
  PlayerTrueSkillPredictor.update_team_ratings "U" Sample.X Sample.unchanged
    Sample.player_model
    = (Raise KeyError, sample_trained).
Proof.
  apply (record_team_ratings_missing Sample.player_model "U" Sample.X
           Sample.unchanged).
  intros stg per_team es ea.
  injection es as <-.
  vm_compute in ea. injection ea as <-.
  reflexivity.
Defined.

(** The sample team's first match of stage1. *)
Lemma snapshot_records_members_witness :
  ∃ snapshot,
    od_get ("stage1", 0%nat)
      (PlayerTrueSkillPredictor.ratings_history
         (PlayerTrueSkillPredictor._record_team_ratings "T"
            Sample.player_model).2)
      = Some snapshot ∧
    snapshot !! "b1" = Some (Rating.mk 0 2.5).
Proof.
  assert (creates_prior Sample.player_model) as prior.
  { unfold creates_prior. cbn. lra. }
  destruct (snapshot_records_members Sample.player_model "T" "stage1"
              {[ "T" := Sample.members ]} Sample.members
              prior eq_refl eq_refl eq_refl)
    as (snapshot & eh & inside & _).
  exists snapshot. split; [exact eh |].
  rewrite (inside "b1"); [reflexivity | | discriminate].
  unfold Sample.members, Sample.X, Sample.Y. set_solver.
Defined.

(** Roster X of the sample team, six players of uncertainty 1. *)
Lemma roster_score_above_average_witness :
  (sum (map (PlayerTrueSkillPredictor._min_rating sample_trained) Sample.X) / 6
   <= 0 - 3 * (sqrt 6 / 6))%R.
Proof.
  apply (roster_score_above_average sample_trained Sample.X).
  - destruct (min_roster_rating_cases sample_trained Sample.X) as [_ returns].
    rewrite returns by exact (sample_uncertain_X sample_trained sample_trained_X).
    by rewrite (sample_summary_X sample_trained sample_trained_X).
  - apply List.Forall_forall. intros name i.
    apply (in_map (PlayerTrueSkillPredictor.rating_of sample_trained)) in i.
    rewrite sample_trained_X in i. cbn in i.
    repeat (destruct i as [<- | i]; [cbn; lra |]). destruct i.
Defined.

(** * The prediction point *)

Section prediction_point.
Context {Self : Type}.
Variable predict :
  string * string → option (Roster * Roster) → bool → Self → (R * R) * Self.
Local Open Scope R_scope.

Lemma ln_le (x y : R) : 0 < x → x <= y → ln x <= ln y.
Proof.
  intros pos [lt | ->]; [| lra]. left. by apply ln_increasing.
Qed.

Lemma ln_positive (x : R) : 0 < x → (0 < ln x ↔ 1 < x).
Proof.
  intros pos. rewrite <- ln_1. split.
  - apply ln_lt_inv; lra.
  - apply ln_increasing. lra.
Qed.

(** X18: the point of a game.  Whenever [evaluate] returns a point
    and a verdict, the point is at most ln 2; a positive point is only
    given to a correct prediction; and when the model's draw
    probability is not positive, a correct prediction never gets a
    negative point. *)
Theorem evaluate_point (game : Game) (self self' : Self) (point : R)
    (correct : bool) :
  evaluate predict game self = (Ok (point, correct), self') →
  point <= ln 2 ∧
  (0 < point → correct = true) ∧
  ((predict (Game.teams game) (Some (Game.rosters game)) false self).1.2 <= 0 →
   correct = true → 0 <= point).
Proof.
  unfold evaluate. pose proof ln_lt_2 as two. case_bool_decide as tie.
  - intros [= <- <- <-]. split; [lra |]. split; [lra |]. intros _ _. lra.
  - destruct (predict _ _ _ _) as [[w d] self1]. cbn [fst snd].
    unfold scored_probability.
    pose proof (clamp_bounds w) as bw. pose proof (clamp_bounds d) as bd.
    set (p_win := clamp w) in *. set (p_draw := clamp d) in *.
    assert (d <= 0 → p_draw = 0) as nodraw.
    { intros neg. subst p_draw. unfold clamp.
      rewrite Rmin_left by lra. apply Rmax_left. lra. }
    case_bool_decide as won; unfold log; case_bool_decide as pos;
      try discriminate; intros [= <- <- <-].
    + split; [apply ln_le; lra |].
      split.
      * rewrite ln_positive by done.
        intros half. apply bool_decide_eq_true_2. lra.
      * intros neg right. apply bool_decide_eq_true in right.
        rewrite (nodraw neg) in right. rewrite <- ln_1. apply ln_le; lra.
    + split; [apply ln_le; lra |].
      split.
      * rewrite ln_positive by done.
        intros half. apply bool_decide_eq_true_2. lra.
      * intros neg right. apply bool_decide_eq_true in right.
        rewrite (nodraw neg) in right. rewrite <- ln_1. apply ln_le; lra.
Qed.
End prediction_point.

(** A model that gives team 1 three chances in four, and team 1 wins. *)
Lemma evaluate_point_witness :
  let game := Game.mk ("A", "B") (1, 0) "stage1" 7 "regular" false ([], []) in
  ∃ point correct,
    evaluate (constant_model (0.75, 0)%R (0.5, 0.25)%R) game tt
      = (Ok (point, correct), tt) ∧
    correct = true ∧ (0 <= point <= ln 2)%R.
Proof.
  intros game.
  assert (evaluate (constant_model (0.75, 0)%R (0.5, 0.25)%R) game tt
          = (Ok (ln (2 * 0.75), true), tt)) as run.
  { unfold evaluate, game. cbn [Game.score Game.teams Game.rosters fst snd].
    rewrite bool_decide_eq_false_2 by discriminate.
    cbn [constant_model]. unfold scored_probability.
    cbn [Game.score fst snd]. rewrite bool_decide_eq_true_2 by done.
    rewrite !clamp_inside by lra. unfold log.
    rewrite !bool_decide_eq_true_2 by lra. reflexivity. }
  exists (ln (2 * 0.75))%R, true. split; [exact run |].
  destruct (evaluate_point (constant_model (0.75, 0)%R (0.5, 0.25)%R) game tt tt
              _ _ run) as (bound & _ & above).
  split; [reflexivity |]. split; [| exact bound].
  apply above; [cbn; lra | reflexivity].
Defined.

(** * Training *)

Section training_facts.
Local Open Scope R_scope.

(** The standings update neither reads nor writes the roster queues,
    the draw counts and the evaluation history. *)
Lemma update_stage_log (st : string) (log b : Predictor) :
  _update_stage st (with_log log b) = with_log log (_update_stage st b).
Proof.
  unfold _update_stage. cbn [stage with_log]. case_bool_decide; [done |].
  by destruct (extends_stage st (stage b)).
Qed.

Lemma update_match_ids_log (mid : Z) (teams : string * string)
    (log b : Predictor) :
  _update_match_ids mid teams (with_log log b)
  = with_log log (_update_match_ids mid teams b).
Proof.
  unfold _update_match_ids. cbn [match_id with_log]. by case_bool_decide.
Qed.

Lemma handle_match_result_log (is_title : bool) (winner loser : string)
    (sw sl : Z) (log b : Predictor) :
  handle_match_result is_title winner loser sw sl (with_log log b)
  = with_log log (handle_match_result is_title winner loser sw sl b).
Proof.
  unfold handle_match_result. destruct is_title; by repeat case_bool_decide.
Qed.

Lemma update_standings_log (game : Game) (log b : Predictor) :
  _update_standings game (with_log log b)
  = ((_update_standings game b).1, with_log log (_update_standings game b).2).
Proof.
  unfold _update_standings. rewrite update_stage_log, update_match_ids_log.
  set (b1 := _update_match_ids _ _ _).
  destruct (Game.teams game) as [team1 team2].
  destruct (Game.score game) as [score1 score2].
  case_bool_decide; [| done].
  destruct (if bool_decide (score1 > score2)%Z then _ else _) as [winner loser].
  set (is_title := String.eqb _ _).
  assert (∀ b2, (if is_title then with_log log b2
                 else set_stage_head_to_head_map_diffs (incr (loser, winner) (-1))
                        (set_stage_head_to_head_map_diffs (incr (winner, loser) 1)
                           (set_stage_map_diffs (incr loser (-1))
                              (set_stage_map_diffs (incr winner 1)
                                 (with_log log b2)))))
                = with_log log
                    (if is_title then b2
                     else set_stage_head_to_head_map_diffs (incr (loser, winner) (-1))
                            (set_stage_head_to_head_map_diffs (incr (winner, loser) 1)
                               (set_stage_map_diffs (incr loser (-1))
                                  (set_stage_map_diffs (incr winner 1) b2)))))
    as stage_part by (intros b2; by destruct is_title).
  change (set_head_to_head_map_diffs ?f
            (set_head_to_head_map_diffs ?g
               (set_map_diffs ?h (set_map_diffs ?k (with_log log b1)))))
    with (with_log log
            (set_head_to_head_map_diffs f
               (set_head_to_head_map_diffs g
                  (set_map_diffs h (set_map_diffs k b1))))).
  rewrite stage_part.
  set (b3 := if is_title then _ else _).
  change (score (with_log log b3)) with (score b3).
  destruct (score b3) as [sc|]; [| done].
  destruct (sc !! winner) as [sw|]; [| done].
  destruct (sc !! loser) as [sl|]; [| done].
  by rewrite handle_match_result_log.
Qed.

(** The heuristic model never changes when it is asked, and the only
    exception of its evaluation is the domain error of the logarithm. *)
Lemma simple_evaluate (game : Game) (self : SimplePredictor.t) :
  ∃ r, evaluate simple_model game self = (r, self) ∧
       ∀ e, r = Raise e → e = ValueError.
Proof.
  unfold evaluate, simple_model. case_bool_decide.
  - by eexists.
  - destruct (SimplePredictor.predict _ _ _ _) as [p_win p_draw].
    destruct (scored_probability _ _ _) as [p correct].
    unfold log. case_bool_decide; eexists; (split; [done |]); congruence.
Qed.

Lemma simple_p_draw (self : SimplePredictor.t) teams rosters drawable :
  (SimplePredictor.predict self teams rosters drawable).2 = 0.
Proof. unfold SimplePredictor.predict. by destruct teams. Qed.

(** [_update_draws] on the heuristic model, whose draw probability
    is 0. *)
Lemma simple_update_draws (game : Game) (self : SimplePredictor.t) :
  let self' := _update_draws SimpleTraining.on_base simple_model game self in
  SimplePredictor.base self'
  = set_real_draws
      (if bool_decide ((Game.score game).1 = (Game.score game).2)
       then real_draws (SimplePredictor.base self) + 1
       else real_draws (SimplePredictor.base self))
      (SimplePredictor.base self) ∧
  SimplePredictor.alpha self' = SimplePredictor.alpha self ∧
  SimplePredictor.beta self' = SimplePredictor.beta self.
Proof.
  unfold _update_draws, simple_model.
  pose proof (simple_p_draw self (Game.teams game)
                (Some (Game.rosters game)) true) as nodraw.
  destruct (SimplePredictor.predict self _ _ true) as [p_win p_draw].
  cbn [snd] in nodraw. subst p_draw.
  destruct self as [b α β], b.
  destruct (Game.drawable game); case_bool_decide; cbn;
    by rewrite ?Rplus_0_r.
Qed.

(** One call of [train] on the heuristic model. *)
Lemma simple_train_step (size : nat) (game : Game) (self : SimplePredictor.t) :
  let out := _update_standings game (SimplePredictor.base self) in
  match (evaluate simple_model game self).1 with
  | Raise e => SimpleTraining.train size game self = (Raise e, self)
  | Ok (point, correct) =>
      ∃ self1,
        SimpleTraining.train size game self
          = (match out.1 with Ok _ => Ok point | Raise e => Raise e end, self1) ∧
        with_log (SimplePredictor.base self1) out.2 = SimplePredictor.base self1 ∧
        points (SimplePredictor.base self1)
          = (points (SimplePredictor.base self) ++ [point])%list ∧
        corrects (SimplePredictor.base self1)
          = (corrects (SimplePredictor.base self) ++ [correct])%list ∧
        roster_queues (SimplePredictor.base self1)
          = roster_queues (_update_rosters size game (SimplePredictor.base self)) ∧
        expected_draws (SimplePredictor.base self1)
          = expected_draws (SimplePredictor.base self) ∧
        real_draws (SimplePredictor.base self1)
          = (match out.1 with
             | Ok _ =>
                 if bool_decide ((Game.score game).1 = (Game.score game).2)
                 then real_draws (SimplePredictor.base self) + 1
                 else real_draws (SimplePredictor.base self)
             | Raise _ => real_draws (SimplePredictor.base self)
             end) ∧
        SimplePredictor.alpha self1 = SimplePredictor.alpha self ∧
        SimplePredictor.beta self1 = SimplePredictor.beta self
  end.
Proof.
  intros out. destruct (simple_evaluate game self) as (r & ev & _).
  unfold SimpleTraining.train, train. rewrite ev. cbn [fst].
  destruct r as [[point correct] | e]; [| done]. cbn zeta.
  set (b1 := SimplePredictor.base (SimpleTraining.on_base _ _)).
  pose proof (update_standings_log game b1 (SimplePredictor.base self)) as fr.
  fold out in fr.
  change (with_log b1 (SimplePredictor.base self)) with b1 in fr.
  rewrite fr. destruct out as [[[] | e] b']; cbn [fst snd].
  - eexists. split; [reflexivity |].
    match goal with
    | |- context [_update_draws _ _ ?g ?s] =>
        destruct (simple_update_draws g s) as (eb & ea & ebt)
    end.
    rewrite eb, ea, ebt. by case_bool_decide.
  - eexists. split; [reflexivity |]. done.
Qed.

(** With alpha and beta strictly between -1/2 and 1/2 the heuristic
    model never puts probability 0 on an outcome, and [evaluate]
    returns. *)
Lemma simple_evaluate_ok (game : Game) (self : SimplePredictor.t) :
  -1/2 < SimplePredictor.alpha self < 1/2 →
  -1/2 < SimplePredictor.beta self < 1/2 →
  ∃ point correct, evaluate simple_model game self = (Ok (point, correct), self).
Proof.
  intros ba bb. unfold evaluate, simple_model. case_bool_decide; [by eauto |].
  assert (0 < (SimplePredictor.predict self (Game.teams game)
                 (Some (Game.rosters game)) false).1 < 1) as bw.
  { unfold SimplePredictor.predict. destruct (Game.teams game).
    cbn [fst]. repeat case_bool_decide; lra. }
  pose proof (simple_p_draw self (Game.teams game)
                (Some (Game.rosters game)) false) as nodraw.
  destruct (SimplePredictor.predict _ _ _ _) as [p_win p_draw].
  cbn [fst snd] in bw, nodraw. subst p_draw.
  unfold scored_probability. rewrite !clamp_inside by lra.
  case_bool_decide; unfold log; rewrite bool_decide_eq_true_2 by lra;
    by eauto.
Qed.

Lemma with_log_same (b : Predictor) : with_log b b = b.
Proof. by destruct b. Qed.

Lemma drawn_games_cons (game : Game) (games : list Game) :
  INR (drawn_games (game :: games))
  = (if bool_decide ((Game.score game).1 = (Game.score game).2) then 1 else 0)
    + INR (drawn_games games).
Proof.
  unfold drawn_games. rewrite filter_cons.
  case_decide; case_bool_decide; try done.
  - cbn [length]. rewrite S_INR. lra.
  - lra.
Qed.

Lemma simple_train_each_log (size : nat) (games : list Game) :
  ∀ (acc : R) (self self' : SimplePredictor.t) (total : R),
    train_each SimplePredictor.base SimpleTraining.on_base simple_model
      SimpleTraining._train size games acc self = (Ok total, self') →
    ∃ (new_points : list R) (new_corrects : list bool),
      length new_points = length games ∧
      length new_corrects = length games ∧
      points (SimplePredictor.base self')
        = (points (SimplePredictor.base self) ++ new_points)%list ∧
      corrects (SimplePredictor.base self')
        = (corrects (SimplePredictor.base self) ++ new_corrects)%list ∧
      total = fold_left Rplus new_points acc ∧
      real_draws (SimplePredictor.base self')
        = real_draws (SimplePredictor.base self) + INR (drawn_games games) ∧
      expected_draws (SimplePredictor.base self')
        = expected_draws (SimplePredictor.base self) ∧
      SimplePredictor.alpha self' = SimplePredictor.alpha self ∧
      SimplePredictor.beta self' = SimplePredictor.beta self.
Proof.
  induction games as [|game games IH]; intros acc self self' total run;
    cbn [train_each] in run.
  - injection run as <- <-. exists [], [].
    rewrite !app_nil_r. cbn. repeat split; try done. lra.
  - pose proof (simple_train_step size game self) as step. cbn zeta in step.
    destruct (simple_evaluate game self) as (r & ev & _).
    rewrite ev in step. cbn [fst] in step. unfold SimpleTraining.train in step.
    destruct r as [[point correct] | e]; [| by rewrite step in run].
    destruct step as (self1 & one & _ & ep & ec & _ & ee & er & ea & eb).
    rewrite one in run.
    destruct (_update_standings game (SimplePredictor.base self))
      as [[[] | e] b']; cbn [fst] in run, er; [| done].
    apply IH in run as (ps & cs & lp & lc & -> & -> & -> & -> & -> & -> & ->).
    exists (point :: ps), (correct :: cs).
    rewrite ep, ec, er, ee, ea, eb, drawn_games_cons, <- !app_assoc.
    cbn [length fold_left app]. rewrite lp, lc.
    repeat split; try done. case_bool_decide; lra.
Qed.

(** X19: the bookkeeping of [train_games] on the heuristic model.
    When it returns, the evaluation history has grown by one point and
    one verdict per game, in the order of the games; the returned
    total is the sum of the new points; [real_draws] has grown by the
    number of drawn games; [expected_draws], alpha and beta are as
    before. *)
Theorem heuristic_training_log (size : nat) (games : list Game)
    (self self' : SimplePredictor.t) (total : R) :
  SimpleTraining.train_games size games self = (Ok total, self') →
  ∃ (new_points : list R) (new_corrects : list bool),
    length new_points = length games ∧
    length new_corrects = length games ∧
    points (SimplePredictor.base self')
      = (points (SimplePredictor.base self) ++ new_points)%list ∧
    corrects (SimplePredictor.base self')
      = (corrects (SimplePredictor.base self) ++ new_corrects)%list ∧
    total = sum new_points ∧
    real_draws (SimplePredictor.base self')
      = real_draws (SimplePredictor.base self) + INR (drawn_games games) ∧
    expected_draws (SimplePredictor.base self')
      = expected_draws (SimplePredictor.base self) ∧
    SimplePredictor.alpha self' = SimplePredictor.alpha self ∧
    SimplePredictor.beta self' = SimplePredictor.beta self.
Proof.
  intros run. unfold SimpleTraining.train_games, train_games in run.
  exact (simple_train_each_log size games 0 self self' total run).
Qed.

Lemma simple_train_each_standings (size : nat) (games : list Game) :
  ∀ (acc : R) (self : SimplePredictor.t) (b : Predictor),
    -1/2 < SimplePredictor.alpha self < 1/2 →
    -1/2 < SimplePredictor.beta self < 1/2 →
    with_log (SimplePredictor.base self) b = SimplePredictor.base self →
    let out := replay_standings games b in
    ∃ self',
      with_log (SimplePredictor.base self') out.2 = SimplePredictor.base self' ∧
      match out.1 with
      | Ok _ =>
          ∃ total,
            train_each SimplePredictor.base SimpleTraining.on_base simple_model
              SimpleTraining._train size games acc self = (Ok total, self')
      | Raise e =>
          train_each SimplePredictor.base SimpleTraining.on_base simple_model
            SimpleTraining._train size games acc self = (Raise e, self')
      end.
Proof.
  induction games as [|game games IH]; intros acc self b ba bb same;
    cbn [replay_standings train_each].
  - exists self. split; [done |]. by exists acc.
  - pose proof (simple_train_step size game self) as step. cbn zeta in step.
    destruct (simple_evaluate_ok game self ba bb) as (point & correct & ev).
    rewrite ev in step. cbn [fst] in step. unfold SimpleTraining.train in step.
    destruct step as (self1 & one & st & _ & _ & _ & _ & _ & ea & eb).
    rewrite one. clear one.
    pose proof (update_standings_log game (SimplePredictor.base self) b) as fr.
    rewrite same in fr. rewrite fr in st |- *. cbn [fst snd] in st |- *.
    change (with_log ?l (with_log ?l' ?x)) with (with_log l x) in st.
    destruct (_update_standings game b) as [[[] | e] b']; cbn [fst snd] in *.
    + apply IH; [by rewrite ea | by rewrite eb | done].
    + by exists self1.
Qed.

Lemma simple_train_each_outcome (size : nat) (games : list Game) :
  ∀ (acc : R) (self : SimplePredictor.t) (b : Predictor),
    with_log (SimplePredictor.base self) b = SimplePredictor.base self →
    let out :=
      train_each SimplePredictor.base SimpleTraining.on_base simple_model
        SimpleTraining._train size games acc self in
    match out.1 with
    | Ok _ =>
        ∃ b',
          replay_standings games b = (Ok tt, b') ∧
          with_log (SimplePredictor.base out.2) b' = SimplePredictor.base out.2
    | Raise e =>
        ∃ before game after b1,
          games = (before ++ game :: after)%list ∧
          replay_standings before b = (Ok tt, b1) ∧
          ((e = ValueError ∧
            evaluate simple_model game out.2 = (Raise ValueError, out.2) ∧
            with_log (SimplePredictor.base out.2) b1
              = SimplePredictor.base out.2) ∨
           (∃ b2,
              _update_standings game b1 = (Raise e, b2) ∧
              with_log (SimplePredictor.base out.2) b2
                = SimplePredictor.base out.2))
    end.
Proof.
  induction games as [|game games IH]; intros acc self b same;
    cbn [train_each].
  - cbn. by exists b.
  - pose proof (simple_train_step size game self) as step. cbn zeta in step.
    destruct (simple_evaluate game self) as (r & ev & only).
    rewrite ev in step. cbn [fst] in step. unfold SimpleTraining.train in step.
    destruct r as [[point correct] | e].
    2: { rewrite step. cbn [fst snd]. rewrite (only e eq_refl) in *.
         exists [], game, games, b. split; [done |]. split; [done |].
         left. by repeat split. }
    destruct step as (self1 & one & st & _).
    rewrite one. clear one.
    pose proof (update_standings_log game (SimplePredictor.base self) b) as fr.
    rewrite same in fr. rewrite fr in st |- *. cbn [fst snd] in st |- *.
    change (with_log ?l (with_log ?l' ?x)) with (with_log l x) in st.
    destruct (_update_standings game b) as [[[] | e] b'] eqn:moved;
      cbn [fst snd] in *.
    + specialize (IH (acc + point) self1 b' st). cbn zeta in IH.
      destruct (train_each _ _ _ _ _ games (acc + point) self1) as [[total|e] last];
        cbn [fst snd] in *.
      * destruct IH as (b'' & replay & kept). exists b''.
        cbn [replay_standings]. by rewrite moved.
      * destruct IH as (before & failed & after & b1 & -> & replay & what).
        exists (game :: before), failed, after, b1.
        split; [done |]. split; [| done].
        cbn [replay_standings app]. by rewrite moved.
    + exists [], game, games, b. split; [done |]. split; [done |].
      right. exists b'. by rewrite moved.
Qed.

(** X20: training the heuristic model moves the standings as the
    replay of the games does, for as long as it runs.  When
    [train_games] returns, the replay of the standings updates over
    the same games returns too and every standings field is as the
    replay leaves it.  When [train_games] raises, it does so at one
    game, the replay of the games before it having returned: either
    the evaluation of that game raises ValueError (the domain error of
    the logarithm) on the predictor as it is left, whose standings are
    those of the replay of the earlier games; or the standings update
    of that game raises the exception, and the standings are as that
    failed update leaves them. *)
Theorem heuristic_training_standings (size : nat) (games : list Game)
    (self : SimplePredictor.t) :
  let out := SimpleTraining.train_games size games self in
  match out.1 with
  | Ok _ =>
      ∃ b',
        replay_standings games (SimplePredictor.base self) = (Ok tt, b') ∧
        with_log (SimplePredictor.base out.2) b' = SimplePredictor.base out.2
  | Raise e =>
      ∃ before game after b1,
        games = (before ++ game :: after)%list ∧
        replay_standings before (SimplePredictor.base self) = (Ok tt, b1) ∧
        ((e = ValueError ∧
          evaluate simple_model game out.2 = (Raise ValueError, out.2) ∧
          with_log (SimplePredictor.base out.2) b1
            = SimplePredictor.base out.2) ∨
         (∃ b2,
            _update_standings game b1 = (Raise e, b2) ∧
            with_log (SimplePredictor.base out.2) b2
              = SimplePredictor.base out.2))
  end.
Proof.
  unfold SimpleTraining.train_games, train_games.
  exact (simple_train_each_outcome size games 0 self
           (SimplePredictor.base self) (with_log_same _)).
Qed.

(** X21: a certain prediction that fails.  When alpha is at least
    1/2, team 1 has the larger map differential and team 2 wins the
    game, the scored probability is 0: [train] raises ValueError
    (the domain error of the logarithm) before it records anything,
    the predictor is unchanged, and [train_games] stops at this game
    with the same exception. *)
Theorem heuristic_certain_upset (size : nat) (game : Game) (games : list Game)
    (self : SimplePredictor.t) :
  1/2 <= SimplePredictor.alpha self →
  (getd (map_diffs (SimplePredictor.base self)) (Game.teams game).1
   > getd (map_diffs (SimplePredictor.base self)) (Game.teams game).2)%Z →
  ((Game.score game).1 < (Game.score game).2)%Z →
  SimpleTraining.train size game self = (Raise ValueError, self) ∧
  SimpleTraining.train_games size (game :: games) self
    = (Raise ValueError, self).
Proof.
  intros ba favourite upset.
  assert (SimpleTraining.train size game self = (Raise ValueError, self)) as run.
  { pose proof (simple_train_step size game self) as step. cbn zeta in step.
    assert (evaluate simple_model game self = (Raise ValueError, self)) as ev.
    { unfold evaluate, simple_model.
      rewrite bool_decide_eq_false_2 by lia.
      unfold SimplePredictor.predict. destruct (Game.teams game) as [team1 team2].
      cbn [fst snd] in favourite. rewrite bool_decide_eq_true_2 by done.
      unfold scored_probability. rewrite bool_decide_eq_false_2 by lia.
      assert (clamp (0.5 + SimplePredictor.alpha self) = 1) as ->.
      { unfold clamp. rewrite Rmin_right by lra. apply Rmax_right. lra. }
      rewrite (clamp_inside 0) by lra.
      unfold log. by rewrite bool_decide_eq_false_2 by lra. }
    by rewrite ev in step. }
  split; [done |].
  unfold SimpleTraining.train_games, train_games. cbn [train_each].
  unfold SimpleTraining.train in run. by rewrite run.
Qed.

Lemma update_rosters_bounded (size : nat) (game : Game) (b : Predictor) :
  (∀ team queue, roster_queues b !! team = Some queue →
     (length queue ≤ size)%nat) →
  ∀ team queue,
    roster_queues (_update_rosters size game b) !! team = Some queue →
    (length queue ≤ size)%nat.
Proof.
  unfold _update_rosters, appendleft.
  cbn [zip zip_with foldl roster_queues set_roster_queues].
  set (team1 := (Game.teams game).1). set (team2 := (Game.teams game).2).
  intros bounded team q.
  destruct (decide (team = team2)) as [-> | n2].
  { rewrite lookup_insert_eq. intros [= <-]. rewrite length_take. lia. }
  rewrite lookup_insert_ne by done.
  destruct (decide (team = team1)) as [-> | n1].
  { rewrite lookup_insert_eq. intros [= <-]. rewrite length_take. lia. }
  rewrite lookup_insert_ne by done. apply bounded.
Qed.

(** X22: the roster queues.  [_update_rosters] puts the roster of
    each team of the game at the front of the team's queue and keeps
    at most [roster_queue_size] rosters of it, the most recent ones;
    the queues of the other teams and every other field stay as they
    are, and queues of at most [roster_queue_size] rosters stay so. *)
Theorem update_rosters_queues (size : nat) (game : Game) (b : Predictor) :
  let b' := _update_rosters size game b in
  let queue team := default [] (roster_queues b !! team) in
  ((Game.teams game).1 ≠ (Game.teams game).2 →
   roster_queues b' !! (Game.teams game).1
     = Some (take size ((Game.rosters game).1 :: queue (Game.teams game).1)) ∧
   roster_queues b' !! (Game.teams game).2
     = Some (take size ((Game.rosters game).2 :: queue (Game.teams game).2))) ∧
  ((Game.teams game).1 = (Game.teams game).2 →
   roster_queues b' !! (Game.teams game).1
     = Some (take size ((Game.rosters game).2
                        :: take size ((Game.rosters game).1
                                      :: queue (Game.teams game).1)))) ∧
  (∀ team, team ≠ (Game.teams game).1 → team ≠ (Game.teams game).2 →
     roster_queues b' !! team = roster_queues b !! team) ∧
  with_log b' b = b' ∧
  points b' = points b ∧ corrects b' = corrects b ∧
  expected_draws b' = expected_draws b ∧ real_draws b' = real_draws b ∧
  ((∀ team queue, roster_queues b !! team = Some queue →
      (length queue ≤ size)%nat) →
   ∀ team queue, roster_queues b' !! team = Some queue →
     (length queue ≤ size)%nat).
Proof.
  intros b' queue. subst b'.
  pose proof (update_rosters_bounded size game b) as bounded.
  revert bounded. unfold _update_rosters, appendleft.
  cbn [zip zip_with foldl roster_queues set_roster_queues].
  set (team1 := (Game.teams game).1). set (team2 := (Game.teams game).2).
  intros bounded.
  split; [| split; [| split; [| split; [by destruct b |]]]].
  - intros ne. rewrite lookup_insert_ne by done.
    rewrite !lookup_insert_eq, lookup_insert_ne by done. done.
  - intros <-. by rewrite !lookup_insert_eq.
  - intros team n1 n2. by rewrite !lookup_insert_ne.
  - by repeat (split; [done |]).
Qed.

(** X23: training keeps the roster queues bounded.  If no queue
    holds more than [roster_queue_size] rosters before [train_games]
    runs on the heuristic model, none does afterwards, whether the
    training returns or raises. *)
Theorem training_keeps_queues_bounded (size : nat) (games : list Game)
    (self : SimplePredictor.t) :
  (∀ team queue,
     roster_queues (SimplePredictor.base self) !! team = Some queue →
     (length queue ≤ size)%nat) →
  ∀ team queue,
    roster_queues
      (SimplePredictor.base (SimpleTraining.train_games size games self).2)
      !! team = Some queue →
    (length queue ≤ size)%nat.
Proof.
  unfold SimpleTraining.train_games, train_games. generalize 0.
  revert self. induction games as [|game games IH]; intros self acc bounded;
    cbn [train_each]; [done |].
  pose proof (simple_train_step size game self) as step. cbn zeta in step.
  destruct (simple_evaluate game self) as (r & ev & _).
  rewrite ev in step. cbn [fst] in step. unfold SimpleTraining.train in step.
  destruct r as [[point correct] | e]; [| by rewrite step].
  destruct step as (self1 & one & _ & _ & _ & eq & _).
  rewrite one.
  assert (∀ team queue,
            roster_queues (SimplePredictor.base self1) !! team = Some queue →
            (length queue ≤ size)%nat) as bounded1.
  { rewrite eq.
    by apply update_rosters_bounded. }
  destruct (_update_standings game (SimplePredictor.base self)) as [[[] | e] b'];
    cbn [fst snd]; [by apply IH | done].
Qed.
End training_facts.

(** A drawn game and a game that A wins, on a fresh predictor: two
    points, one drawn game. *)
Lemma heuristic_training_log_witness :
  let games :=
    [Game.mk ("A", "B") (1, 1) "stage1" 7 "regular" true ([], []);
     Game.mk ("A", "B") (2, 0) "stage1" 7 "regular" false ([], [])] in
  let self := SimplePredictor.mk (fresh ∅) 0.2 0.1 in
  ∃ total self',
    SimpleTraining.train_games 12 games self = (Ok total, self') ∧
    ∃ (new_points : list R) (new_corrects : list bool),
      length new_points = 2%nat ∧
      points (SimplePredictor.base self') = new_points ∧
      corrects (SimplePredictor.base self') = new_corrects ∧
      total = sum new_points.
Proof.
  intros games self.
  destruct (simple_train_each_standings 12 games 0%R self (fresh ∅))
    as (self' & _ & total & run); [cbn; lra | cbn; lra | reflexivity |].
  exists total, self'. split; [exact run |].
  destruct (heuristic_training_log 12 games self self' total run)
    as (ps & cs & lp & _ & ep & ec & et & _).
  exists ps, cs. split; [exact lp |]. split; [exact ep |].
  split; [exact ec | exact et].
Defined.

(** Alpha 1/2: A leads the standings and loses. *)
Lemma heuristic_certain_upset_witness :
  let game := Game.mk ("A", "B") (0, 1) "stage1" 7 "regular" false ([], []) in
  let self :=
    SimplePredictor.mk
      (set_map_diffs (λ _, <["B" := (-1)%Z]> (<["A" := 1%Z]> ∅)) (fresh ∅))
      0.5 0 in
  SimpleTraining.train 12 game self = (Raise ValueError, self) ∧
  SimpleTraining.train_games 12 [game] self = (Raise ValueError, self).
Proof.
  intros game self.
  apply (heuristic_certain_upset 12 game [] self); [cbn; lra | done | done].
Defined.

(** Queues of at most 12 rosters: the empty ones of a fresh predictor. *)
Lemma training_keeps_queues_bounded_witness :
  let games :=
    [Game.mk ("A", "B") (2, 0) "stage1" 7 "regular" false (["a"], ["b"])] in
  let self := SimplePredictor.mk (fresh ∅) 0.2 0.1 in
  (length
     (default []
        (roster_queues
           (SimplePredictor.base (SimpleTraining.train_games 12 games self).2)
           !! "A")) ≤ 12)%nat.
Proof.
  intros games self.
  destruct (roster_queues _ !! "A") as [queue|] eqn:found; [| cbn; lia].
  apply (training_keeps_queues_bounded 12 games self) in found; [done |].
  intros team other. cbn. by rewrite lookup_empty.
Defined.

(** * Stage prediction: when it returns, and what it settles *)

Section odict_keys.
Context {K V : Type} `{EqDecision K}.
Implicit Types (d : odict K V) (k : K) (v : V).

Lemma od_get_is_Some k d : is_Some (od_get k d) ↔ k ∈ od_keys d.
Proof.
  induction d as [|[k0 v0] d IH]; cbn.
  - split; [by intros [? ?] | by intros ?%elem_of_nil].
  - destruct (decide (k0 = k)) as [-> | ne].
    + split; [intros _; apply list_elem_of_here | by eauto].
    + rewrite IH, elem_of_cons. split; [by right | by intros [? | ?]].
Qed.

Lemma od_get_elem k v d : NoDup (od_keys d) → (k, v) ∈ d → od_get k d = Some v.
Proof.
  induction d as [|[k0 v0] d IH]; cbn; [by intros _ ?%elem_of_nil |].
  intros [fresh nodup]%NoDup_cons [[= -> ->] | i]%elem_of_cons.
  - by rewrite decide_True.
  - rewrite decide_False; [by apply IH |].
    intros ->. apply fresh. apply (list_elem_of_fmap_2 fst) in i. exact i.
Qed.

Lemma od_set_keys_held k v d :
  k ∈ od_keys d → od_keys (od_set k v d) = od_keys d.
Proof.
  induction d as [|[k0 v0] d IH]; cbn; [by intros ?%elem_of_nil |].
  destruct (decide (k0 = k)) as [-> | ne]; [done |].
  intros [? | i]%elem_of_cons; [congruence |]. cbn. f_equal. by apply IH.
Qed.

Lemma od_set_keys_new k v d :
  k ∉ od_keys d → od_keys (od_set k v d) = (od_keys d ++ [k])%list.
Proof.
  induction d as [|[k0 v0] d IH]; cbn; [done |].
  intros [ne ni]%not_elem_of_cons.
  destruct (decide (k0 = k)) as [-> | _]; [done |]. cbn. f_equal. by apply IH.
Qed.
End odict_keys.

(** The table of current standings that [predict_stage] starts from
    lists the teams in their order. *)
Lemma initial_wins_keys (f : string → Z * Z) (teams : list string) :
  ∀ d : odict string (Z * Z),
    NoDup (od_keys d ++ teams) →
    od_keys (foldl (λ d team, od_set team (f team) d) d teams)
    = (od_keys d ++ teams)%list.
Proof.
  induction teams as [|team teams IH]; intros d nodup; cbn [foldl].
  - by rewrite app_nil_r.
  - assert (od_keys (od_set team (f team) d) = (od_keys d ++ [team])%list) as new.
    { apply od_set_keys_new. apply NoDup_app in nodup as (_ & apart & _).
      intros i. apply (apart _ i), list_elem_of_here. }
    rewrite IH; rewrite new, <- app_assoc; done.
Qed.

Lemma bracket_refl (d : odict string (Z * Z)) : Forall2 bracket d d.
Proof.
  apply Forall_Forall2_diag, Forall_forall. intros [team [w m]] _.
  unfold bracket. cbn. repeat split; lia.
Qed.

(** Brackets position by position. *)
Lemma bracket_keys (low high : odict string (Z * Z)) :
  Forall2 bracket low high → od_keys low = od_keys high.
Proof.
  induction 1 as [|[k v] [k' v'] low high (e & _) _ IH]; [done |].
  unfold od_keys in *. cbn in *. by rewrite e, IH.
Qed.

Lemma bracket_get (low high : odict string (Z * Z)) (team : string)
    (v v' : Z * Z) :
  Forall2 bracket low high →
  od_get team low = Some v → od_get team high = Some v' →
  (v.1 ≤ v'.1)%Z ∧ (v.2 ≤ v'.2)%Z.
Proof.
  induction 1 as [|[k w] [k' w'] low high (e & b) _ IH]; cbn in *; [done |].
  subst k'. destruct (decide (k = team)); [| done].
  intros [= <-] [= <-]. exact b.
Qed.

Lemma bracket_set (low high : odict string (Z * Z)) (team : string)
    (v v' : Z * Z) :
  Forall2 bracket low high → (v.1 ≤ v'.1)%Z ∧ (v.2 ≤ v'.2)%Z →
  Forall2 bracket (od_set team v low) (od_set team v' high).
Proof.
  intros al b.
  induction al as [|[k w] [k' w'] low high (e & b') al IH]; cbn in *.
  - constructor; [by split | constructor].
  - subst k'. destruct (decide (k = team)); constructor; done.
Qed.

(** One step of the widening: it needs the team to be listed, and
    keeps the brackets. *)
Lemma widen_bracket (team : string) (min_wins max_wins : odict string (Z * Z)) :
  Forall2 bracket min_wins max_wins →
  match widen team (min_wins, max_wins) with
  | Ok (min_wins', max_wins') =>
      Forall2 bracket min_wins' max_wins' ∧
      od_keys min_wins' = od_keys min_wins ∧ team ∈ od_keys min_wins
  | Raise e => e = KeyError ∧ team ∉ od_keys min_wins
  end.
Proof.
  intros al. unfold widen, od_item.
  destruct (od_get team min_wins) as [[w m]|] eqn:e1; cbn.
  2: { split; [done |]. rewrite <- od_get_is_Some, e1. by intros [? ?]. }
  assert (team ∈ od_keys min_wins) as i by (apply od_get_is_Some; eauto).
  destruct (od_get team max_wins) as [[w' m']|] eqn:e2; cbn.
  2: { rewrite (bracket_keys _ _ al) in i.
       apply od_get_is_Some in i as [? ?]. congruence. }
  destruct (bracket_get _ _ _ _ _ al e1 e2) as [bw bm]. cbn in bw, bm.
  split; [apply bracket_set; [done | cbn; lia] |].
  split; [by apply od_set_keys_held | done].
Qed.

Lemma widen_loop (games : list Game) :
  ∀ min_wins max_wins : odict string (Z * Z),
    Forall2 bracket min_wins max_wins →
    match for_each (λ bounds game,
                      bounds ← widen (Game.teams game).1 bounds;
                      widen (Game.teams game).2 bounds)
                   games (min_wins, max_wins) with
    | Ok (min_wins', max_wins') =>
        Forall2 bracket min_wins' max_wins' ∧
        od_keys min_wins' = od_keys min_wins ∧
        Forall (teams_listed (od_keys min_wins)) games
    | Raise e =>
        e = KeyError ∧
        Exists (λ game, ¬ teams_listed (od_keys min_wins) game) games
    end.
Proof.
  induction games as [|game games IH]; intros min_wins max_wins al;
    cbn [for_each]; [done |].
  pose proof (widen_bracket (Game.teams game).1 _ _ al) as w1.
  destruct (widen (Game.teams game).1 (min_wins, max_wins))
    as [[min1 max1]|e]; cbn -[widen for_each].
  2: { destruct w1 as [-> n]. split; [done |].
       apply Exists_cons_hd. by intros [? ?]. }
  destruct w1 as (al1 & k1 & i1).
  pose proof (widen_bracket (Game.teams game).2 _ _ al1) as w2.
  destruct (widen (Game.teams game).2 (min1, max1)) as [[min2 max2]|e];
    cbn -[widen for_each].
  2: { destruct w2 as [-> n]. rewrite k1 in n. split; [done |].
       apply Exists_cons_hd. by intros [? ?]. }
  destruct w2 as (al2 & k2 & i2). rewrite k1 in k2, i2.
  specialize (IH _ _ al2). rewrite k2 in IH.
  destruct (for_each _ games (min2, max2)) as [[min' max']|e].
  - destruct IH as (al' & k' & listed). repeat split; try done.
    by constructor.
  - destruct IH as [-> ex]. split; [done |]. by apply Exists_cons_tl.
Qed.

(** [l[-i]] raises IndexError exactly on a list shorter than [i]. *)
Lemma from_end_spec {A : Type} (i : nat) (l : list A) :
  match from_end (S i) l with
  | Ok x => (S i ≤ length l)%nat ∧ l !! (length l - S i)%nat = Some x
  | Raise e => e = IndexError ∧ (length l < S i)%nat
  end.
Proof.
  unfold from_end. cbn [pred]. rewrite rev_alt.
  change (rev_append l []) with (reverse l).
  destruct (reverse l !! i) as [x|] eqn:e.
  - apply reverse_lookup_Some in e as [e lt]. split; [lia | done].
  - apply lookup_ge_None in e. rewrite length_reverse in e. split; [done | lia].
Qed.

(** The order of (wins, map diff) pairs. *)
Lemma sorted_pairs_spec (l : list (Z * Z)) :
  sorted_pairs l ≡ₚ l ∧
  StronglySorted (λ a b, pair_lt b a = false) (sorted_pairs l).
Proof.
  split; [apply sorted_by_perm |].
  apply sorted_by_sorted; unfold pair_lt.
  - intros x y z xy yz. apply bool_decide_eq_false in xy, yz.
    apply bool_decide_eq_false. lia.
  - done.
  - intros x y cmp. apply bool_decide_eq_true in cmp.
    apply bool_decide_eq_false. lia.
Qed.

Lemma sorted_pairs_length {V : Type} (d : odict V (Z * Z)) :
  length (sorted_pairs (od_values d)) = length d.
Proof.
  destruct (sorted_pairs_spec (od_values d)) as [perm _].
  rewrite perm. apply length_map.
Qed.

Lemma od_keys_length {K V : Type} (d : odict K V) : length (od_keys d) = length d.
Proof. apply length_map. Qed.

(** What [stage_bounds] needs, and what it gives. *)
Lemma stage_bounds_spec (games : list Game) (teams : list string)
    (self : Predictor) :
  NoDup teams →
  match stage_bounds games teams self with
  | Ok (min_wins, max_wins, min_3rd_wins, max_4th_wins) =>
      Forall2 bracket min_wins max_wins ∧
      od_keys min_wins = teams ∧
      Forall (teams_listed teams) games ∧
      (4 ≤ length teams)%nat ∧
      from_end 3 (sorted_pairs (od_values min_wins)) = Ok min_3rd_wins ∧
      from_end 4 (sorted_pairs (od_values max_wins)) = Ok max_4th_wins
  | Raise e =>
      (e = KeyError ∧ Exists (λ game, ¬ teams_listed teams game) games) ∨
      (e = IndexError ∧ Forall (teams_listed teams) games ∧
       (length teams < 4)%nat)
  end.
Proof.
  intros nodup. unfold stage_bounds. cbv zeta.
  match goal with
  | |- context [foldl ?f [] teams] => set (wins := foldl f [] teams)
  end.
  assert (od_keys wins = teams) as keys
    by (by apply (initial_wins_keys _ teams [])).
  assert (Forall2 bracket wins wins) as al by apply bracket_refl.
  pose proof (widen_loop games wins wins al) as loop. rewrite keys in loop.
  destruct (for_each _ games (wins, wins)) as [[min_wins max_wins]|e]; cbn.
  2: { left. exact loop. }
  destruct loop as (al' & keys' & listed).
  assert (length min_wins = length teams) as len
    by (by rewrite <- (od_keys_length min_wins), keys').
  assert (length max_wins = length teams) as len'.
  { rewrite <- (od_keys_length max_wins), <- (bracket_keys _ _ al'). 
    by rewrite keys'. }
  pose proof (from_end_spec 2 (sorted_pairs (od_values min_wins))) as third.
  rewrite sorted_pairs_length, len in third.
  destruct (from_end 3 _) as [m3|e] eqn:e3; cbn.
  2: { right. destruct third as [-> short]. repeat split; [done |]. lia. }
  pose proof (from_end_spec 3 (sorted_pairs (od_values max_wins))) as fourth.
  rewrite sorted_pairs_length, len' in fourth.
  destruct (from_end 4 _) as [m4|e] eqn:e4; cbn.
  2: { right. destruct fourth as [-> short]. by repeat split. }
  repeat split; try done. lia.
Qed.

Lemma sampled_keys (table : odict string (R * R)) :
  od_keys (sampled table) = od_keys table.
Proof.
  unfold sampled, od_keys. rewrite map_map. apply map_ext.
  by intros [team [a b]].
Qed.

Section certainties.
Variables (self : Predictor) (min_wins max_wins : odict string (Z * Z))
          (min_3rd_wins max_4th_wins : Z * Z).

(** The last loop of [predict_stage] finds every listed team in the
    bounds, and keeps the teams of the table in their order. *)
Lemma normalize_loop_returns (items : odict string (pvalue * pvalue)) :
  ∀ prediction,
    Forall (λ item, item.1 ∈ od_keys min_wins ∧ item.1 ∈ od_keys max_wins ∧
                    item.1 ∈ od_keys prediction) items →
    ∃ out,
      for_each (λ prediction '(team, (p_top3, p_top1)),
                  entry ← normalize self min_wins max_wins min_3rd_wins
                             max_4th_wins team p_top3 p_top1;
                  Ok (od_set team entry prediction))
               items prediction = Ok out ∧
      od_keys out = od_keys prediction.
Proof.
  induction items as [|[team [p3 p1]] items IH]; intros prediction listed;
    cbn [for_each].
  - by exists prediction.
  - apply Forall_cons in listed as [(i1 & i2 & i3) listed]. cbn [fst] in *.
    assert (∃ entry, normalize self min_wins max_wins min_3rd_wins
                       max_4th_wins team p3 p1 = Ok entry) as [entry ->].
    { unfold normalize, od_item.
      apply od_get_is_Some in i1 as [v1 ->], i2 as [v2 ->]. cbn.
      destruct (pair_lt v2 min_3rd_wins); [by eauto |].
      destruct (pair_lt max_4th_wins v1); by eauto. }
    cbn -[for_each].
    destruct (IH (od_set team entry prediction)) as (out & run & keys).
    { eapply Forall_impl; [exact listed |]. intros item (? & ? & ?).
      by rewrite od_set_keys_held. }
    exists out. split; [done |]. rewrite keys. by apply od_set_keys_held.
Qed.

(** What a bool in the first place of a normalized entry means. *)
Lemma normalize_settled team a b top3 top1 :
  normalize self min_wins max_wins min_3rd_wins max_4th_wins team
    (Freq a) (Freq b) = Ok (top3, top1) →
  (settled true top3 = true →
     ∃ v, od_get team min_wins = Some v ∧ pair_lt max_4th_wins v = true) ∧
  (settled false top3 = true →
     settled false top1 = true ∧
     ∃ v, od_get team max_wins = Some v ∧ pair_lt v min_3rd_wins = true).
Proof.
  unfold normalize, od_item.
  destruct (od_get team max_wins) as [max_team|]; cbn; [| done].
  destruct (pair_lt max_team min_3rd_wins) eqn:out.
  { intros [= <- <-]. split; [done |]. intros _. split; [done | by eauto]. }
  destruct (od_get team min_wins) as [min_team|]; cbn; [| done].
  destruct (pair_lt max_4th_wins min_team) eqn:clinched.
  - intros [= <- _]. split; [by eauto | done].
  - by intros [= <- <-].
Qed.
End certainties.

(** [predict_stage] after [stage_bounds]: it returns a table of the
    same teams, each entry the normalized form of the sampled one. *)
Lemma predict_stage_run
    (_predict_stage : list Game → Predictor → odict string (R * R))
    (games : list Game) (self : Predictor) :
  let kept := stage_games games self in
  let teams := od_keys (_predict_stage kept self) in
  NoDup teams →
  match stage_bounds kept teams self with
  | Ok (min_wins, max_wins, min_3rd_wins, max_4th_wins) =>
      ∃ out,
        predict_stage _predict_stage games self = Ok out ∧
        od_keys out = teams ∧
        ∀ team entry, od_get team out = Some entry →
          ∃ a b,
            normalize self min_wins max_wins min_3rd_wins max_4th_wins team
              (Freq a) (Freq b) = Ok entry
  | Raise e => predict_stage _predict_stage games self = Raise e
  end.
Proof.
  intros kept teams nodup. unfold predict_stage. fold kept.
  rewrite sampled_keys. fold teams.
  pose proof (stage_bounds_spec kept teams self nodup) as bounds.
  destruct (stage_bounds kept teams self)
    as [[[[min_wins max_wins] m3] m4]|e]; cbn -[for_each]; [| done].
  destruct bounds as (al & keys & _).
  set (table := sampled (_predict_stage kept self)).
  assert (od_keys table = teams) as keyt by apply sampled_keys.
  destruct (normalize_loop_returns self min_wins max_wins m3 m4 table table)
    as (out & run & keys').
  { apply Forall_forall. intros [team entry] i.
    apply (list_elem_of_fmap_2 fst) in i. cbn [fst] in *.
    change (team ∈ od_keys table) in i.
    rewrite <- (bracket_keys _ _ al), keys. by rewrite keyt in *. }
  exists out. split; [exact run |]. split; [by rewrite keys' |].
  intros team entry e.
  destruct (normalize_loop self min_wins max_wins m3 m4 _ _ _ run team _ e)
    as [[e' out'] | (p3 & p1 & i & n)].
  - destruct out'. apply od_get_Some in e'.
    apply (list_elem_of_fmap_2 fst) in e'. exact e'.
  - unfold table, sampled in i.
    apply list_elem_of_fmap in i as ([t [a b]] & [= -> -> ->] & _).
    by exists a, b.
Qed.

(** X24: when [predict_stage] returns and when it raises.  Given the
    table that [_predict_stage] has returned for the kept games (the
    regular games of the tracked stage), its teams being distinct as
    the keys of a dict are: [predict_stage] raises KeyError exactly
    when a kept game names a team that the table does not list;
    otherwise it raises IndexError exactly when the table lists fewer
    than 4 teams; otherwise it returns a table of the same teams in
    the same order. *)
Theorem predict_stage_returns
    (_predict_stage : list Game → Predictor → odict string (R * R))
    (games : list Game) (self : Predictor) :
  let kept := stage_games games self in
  let teams := od_keys (_predict_stage kept self) in
  NoDup teams →
  match predict_stage _predict_stage games self with
  | Ok out =>
      od_keys out = teams ∧ Forall (teams_listed teams) kept ∧
      (4 ≤ length teams)%nat
  | Raise e =>
      (e = KeyError ∧ Exists (λ game, ¬ teams_listed teams game) kept) ∨
      (e = IndexError ∧ Forall (teams_listed teams) kept ∧
       (length teams < 4)%nat)
  end.
Proof.
  intros kept teams nodup.
  pose proof (predict_stage_run _predict_stage games self nodup) as run.
  pose proof (stage_bounds_spec kept teams self nodup) as bounds.
  fold kept teams in run.
  destruct (stage_bounds kept teams self)
    as [[[[min_wins max_wins] m3] m4]|e].
  - destruct run as (out & -> & keys & _).
    by destruct bounds as (_ & _ & listed & four & _).
  - by rewrite run.
Qed.

(** ** Counting the settled teams *)

Lemma sorted_middle {A : Type} (R : A → A → Prop) (l1 l2 : list A) (x : A) :
  StronglySorted R (l1 ++ x :: l2) →
  Forall (λ y, R y x) l1 ∧ Forall (R x) l2.
Proof.
  induction l1 as [|y l1 IH]; cbn; intros sorted.
  - apply StronglySorted_inv in sorted as [_ after]. by split.
  - apply StronglySorted_inv in sorted as [sorted first].
    destruct (IH sorted) as [before after]. split; [| done].
    constructor; [| done].
    apply Forall_app in first as [_ first].
    by apply Forall_cons in first as [? _].
Qed.

Lemma filter_none {A : Type} (P : A → Prop) `{∀ x, Decision (P x)}
    (l : list A) :
  Forall (λ x, ¬ P x) l → filter P l = [].
Proof.
  induction 1 as [|x l no _ IH]; [done |]. by rewrite filter_cons_False.
Qed.

Lemma pair_lt_irrefl (v : Z * Z) : pair_lt v v = false.
Proof. unfold pair_lt. apply bool_decide_eq_false. lia. Qed.

(** At most three values lie above the fourth from the top. *)
Lemma above_fourth (l : list (Z * Z)) (m4 : Z * Z) :
  from_end 4 (sorted_pairs l) = Ok m4 →
  (length (filter (λ v, pair_lt m4 v) l) ≤ 3)%nat.
Proof.
  intros e. destruct (sorted_pairs_spec l) as [perm sorted].
  rewrite <- perm.
  pose proof (from_end_spec 3 (sorted_pairs l)) as spec. rewrite e in spec.
  destruct spec as [four here]. set (L := sorted_pairs l) in *.
  set (i := (length L - 4)%nat) in *.
  assert (L = (take i L ++ m4 :: drop (S i) L)%list) as split
    by (symmetry; by apply take_drop_middle).
  rewrite split in sorted. apply sorted_middle in sorted as [before _].
  rewrite split, filter_app, filter_cons_False, (filter_none _ (take i L)).
  - cbn [app]. etrans; [apply length_filter |]. rewrite length_drop. lia.
  - eapply Forall_impl; [exact before |]. intros y le. cbn in le.
    by apply Is_true_false.
  - apply Is_true_false, pair_lt_irrefl.
Qed.

(** At least three values do not lie below the third from the top. *)
Lemma below_third (l : list (Z * Z)) (m3 : Z * Z) :
  from_end 3 (sorted_pairs l) = Ok m3 →
  (length (filter (λ v, pair_lt v m3) l) + 3 ≤ length l)%nat.
Proof.
  intros e. destruct (sorted_pairs_spec l) as [perm sorted].
  rewrite <- perm.
  pose proof (from_end_spec 2 (sorted_pairs l)) as spec. rewrite e in spec.
  destruct spec as [three here]. set (L := sorted_pairs l) in *.
  set (i := (length L - 3)%nat) in *.
  assert (L = (take i L ++ m3 :: drop (S i) L)%list) as split
    by (symmetry; by apply take_drop_middle).
  rewrite split in sorted. apply sorted_middle in sorted as [_ after].
  rewrite split at 1.
  rewrite filter_app, (filter_none _ (m3 :: drop (S i) L)), app_nil_r.
  - etrans; [apply Nat.add_le_mono_r, length_filter |].
    rewrite length_take. lia.
  - constructor; [apply Is_true_false, pair_lt_irrefl |].
    eapply Forall_impl; [exact after |]. intros y le. cbn in le.
    by apply Is_true_false.
Qed.

Lemma filter_values {K V : Type} (Q : V → Prop) `{∀ v, Decision (Q v)}
    (d : odict K V) :
  length (filter Q (od_values d)) = length (filter (λ entry, Q entry.2) d).
Proof.
  unfold od_values. induction d as [|[k v] d IH]; [done |].
  cbn [map snd].
  destruct (decide (Q v)) as [q | q].
  - rewrite (filter_cons_True Q), (filter_cons_True (λ entry : K * V, Q entry.2))
      by done.
    cbn [length]. by rewrite IH.
  - by rewrite (filter_cons_False Q),
       (filter_cons_False (λ entry : K * V, Q entry.2)) by done.
Qed.

(** The entries of one table that pass a test are no more than the
    entries of another table, under the same names, that pass
    another. *)
Lemma settled_count {V : Type} (P : V → bool) (Q : Z * Z → bool)
    (out : odict string V) (d : odict string (Z * Z)) :
  NoDup (od_keys out) →
  (∀ team v, od_get team out = Some v → P v = true →
     ∃ w, od_get team d = Some w ∧ Q w = true) →
  (length (filter (λ entry, P entry.2) out)
   ≤ length (filter (λ w, Q w) (od_values d)))%nat.
Proof.
  intros nodup each. rewrite filter_values.
  rewrite <- (length_fmap fst (filter _ out)), <- (length_fmap fst (filter _ d)).
  apply submseteq_length, NoDup_submseteq.
  - eapply sublist_NoDup; [exact nodup |].
    apply fmap_sublist, sublist_filter.
  - intros team i.
    apply list_elem_of_fmap in i as ([t v] & -> & i).
    apply list_elem_of_filter in i as [p i]. cbn [fst snd] in *.
    destruct (each t v (od_get_elem _ _ _ nodup i) (Is_true_true_1 _ p))
      as (w & e & q).
    apply list_elem_of_fmap. exists (t, w). split; [done |].
    apply list_elem_of_filter. split; [cbn; by rewrite q |].
    by apply od_get_Some.
Qed.

Lemma pair_lt_below (a b c : Z * Z) :
  pair_lt a b = true → (b.1 ≤ c.1)%Z → (b.2 ≤ c.2)%Z → pair_lt a c = true.
Proof.
  unfold pair_lt. intros lt **. apply bool_decide_eq_true in lt.
  apply bool_decide_eq_true. lia.
Qed.

Lemma pair_lt_above (a b c : Z * Z) :
  pair_lt b c = true → (a.1 ≤ b.1)%Z → (a.2 ≤ b.2)%Z → pair_lt a c = true.
Proof.
  unfold pair_lt. intros lt **. apply bool_decide_eq_true in lt.
  apply bool_decide_eq_true. lia.
Qed.

(** X25: what [predict_stage] settles.  In the table it returns (the
    teams of the table of [_predict_stage] being distinct), at most
    three teams have the bool True in the first place (certain of the
    top 3), at least three teams do not have the bool False there
    (not ruled out of the top 3), and a team with False in the first
    place has False in the second (ruled out as champion too). *)
Theorem predict_stage_settles
    (_predict_stage : list Game → Predictor → odict string (R * R))
    (games : list Game) (self : Predictor)
    (out : odict string (pvalue * pvalue)) :
  NoDup (od_keys (_predict_stage (stage_games games self) self)) →
  predict_stage _predict_stage games self = Ok out →
  (length (filter (λ entry, settled true entry.2.1) out) ≤ 3)%nat ∧
  (length (filter (λ entry, settled false entry.2.1) out) + 3
   ≤ length out)%nat ∧
  (∀ team top3 top1, od_get team out = Some (top3, top1) →
     settled false top3 = true → settled false top1 = true).
Proof.
  intros nodup run.
  pose proof (predict_stage_run _predict_stage games self nodup) as steps.
  pose proof (stage_bounds_spec (stage_games games self) _ self nodup) as bounds.
  destruct (stage_bounds _ _ self) as [[[[min_wins max_wins] m3] m4]|e];
    [| by rewrite steps in run].
  destruct steps as (out' & run' & keys & entries).
  rewrite run in run'. injection run' as <-.
  destruct bounds as (al & keym & _ & _ & third & fourth).
  assert (NoDup (od_keys out)) as distinct by (by rewrite keys).
  assert (∀ team v, od_get team min_wins = Some v →
            ∃ w, od_get team max_wins = Some w ∧ (v.1 ≤ w.1)%Z ∧ (v.2 ≤ w.2)%Z)
    as up.
  { intros team v e.
    assert (is_Some (od_get team max_wins)) as [w e'].
    { apply od_get_is_Some. rewrite <- (bracket_keys _ _ al).
      apply od_get_is_Some. by eauto. }
    exists w. split; [done |]. by apply (bracket_get _ _ _ _ _ al e e'). }
  assert (∀ team w, od_get team max_wins = Some w →
            ∃ v, od_get team min_wins = Some v ∧ (v.1 ≤ w.1)%Z ∧ (v.2 ≤ w.2)%Z)
    as down.
  { intros team w e'.
    assert (is_Some (od_get team min_wins)) as [v e].
    { apply od_get_is_Some. rewrite (bracket_keys _ _ al).
      apply od_get_is_Some. by eauto. }
    exists v. split; [done |]. by apply (bracket_get _ _ _ _ _ al e e'). }
  split; [| split].
  - etrans; [| exact (above_fourth _ _ fourth)].
    apply (settled_count (λ v, settled true v.1) (λ w, pair_lt m4 w));
      [done |].
    intros team [top3 top1] e yes. cbn [fst] in yes.
    destruct (entries team _ e) as (a & b & n).
    apply normalize_settled in n as [clinched _].
    destruct (clinched yes) as (v & ev & lt).
    destruct (up team v ev) as (w & ew & le1 & le2).
    exists w. split; [done |]. by apply (pair_lt_below _ v).
  - assert (length out = length (od_values min_wins)) as ->.
    { rewrite <- (od_keys_length out), keys, <- keym.
      unfold od_keys, od_values. by rewrite !length_map. }
    etrans; [| exact (below_third _ _ third)].
    apply Nat.add_le_mono_r.
    apply (settled_count (λ v, settled false v.1) (λ v, pair_lt v m3));
      [done |].
    intros team [top3 top1] e yes. cbn [fst] in yes.
    destruct (entries team _ e) as (a & b & n).
    apply normalize_settled in n as [_ ruled].
    destruct (ruled yes) as (_ & w & ew & lt).
    destruct (down team w ew) as (v & ev & le1 & le2).
    exists v. split; [done |]. by apply (pair_lt_above _ w).
  - intros team top3 top1 e yes.
    destruct (entries team _ e) as (a & b & n).
    apply normalize_settled in n as [_ ruled]. by destruct (ruled yes).
Qed.

(** Three teams, no game left: the fourth-largest best case does not
    exist. *)
Lemma predict_stage_returns_witness :
  let sampling (games : list Game) (self : Predictor) : odict string (R * R) :=
    [("A", (1, 0.5)%R); ("B", (1, 0.25)%R); ("C", (1, 0.25)%R)] in
  predict_stage sampling [] (fresh ∅) = Raise IndexError.
Proof.
  intros sampling.
  assert (NoDup (od_keys (sampling (stage_games [] (fresh ∅)) (fresh ∅))))
    as nodup by (apply (bool_decide_unpack _); by vm_compute).
  pose proof (predict_stage_returns sampling [] (fresh ∅) nodup) as cases.
  destruct (predict_stage sampling [] (fresh ∅)) as [out|e].
  - destruct cases as (_ & _ & four). cbn in four. lia.
  - destruct cases as [[_ missing] | [-> _]]; [| reflexivity].
    by apply Exists_nil in missing.
Defined.

(** Four teams, no game left: A, B and C are certain of the top 3 and
    D is ruled out. *)
Lemma predict_stage_settles_witness :
  let self :=
    set_stage_title_losses (λ _, <["C" := 1]> (<["B" := 1]> ∅))
      (set_stage_wins (λ _, <["C" := 6]> (<["B" := 8]> (<["A" := 10]> ∅)))
         (set_stage (Some "stage1") (Some "stage1") (fresh ∅))) in
  let sampling (games : list Game) (self : Predictor) : odict string (R * R) :=
    [("A", (1, 0.5)%R); ("B", (1, 0.25)%R); ("C", (1, 0.25)%R); ("D", (0, 0)%R)] in
  ∃ out,
    predict_stage sampling [] self = Ok out ∧
    (length (filter (λ entry, settled true entry.2.1) out) ≤ 3)%nat ∧
    (length (filter (λ entry, settled false entry.2.1) out) + 3
     ≤ length out)%nat ∧
    od_get "D" out = Some (Definite false, Definite false).
Proof.
  intros self sampling.
  assert (∃ out, predict_stage sampling [] self = Ok out ∧
                 od_get "D" out = Some (Definite false, Definite false))
    as (out & run & eD).
  { eexists. split; [vm_compute; reflexivity |]. by vm_compute. }
  assert (NoDup (od_keys (sampling (stage_games [] self) self)))
    as nodup by (apply (bool_decide_unpack _); by vm_compute).
  destruct (predict_stage_settles sampling [] self out nodup run)
    as (above & below & _).
  exists out. by repeat split.
Defined.
